(** * Offline lockbox: password generator, strength estimator, envelope
    encryption and vault storage.

    A shallow embedding of [src/lib/password-generator.ts],
    [src/lib/encryption.ts] and [src/lib/storage.ts], and of the handlers of
    the components that call them: first the model, then its properties.

    Conventions of the embedding.
    - A JavaScript string is the list of its UTF-16 code units ([list N]);
      [js "abc"] turns a literal into that list.
    - The random source ([crypto.getRandomValues], [WordArray.random]) is a
      tape of bytes with a cursor; a draw reads the bytes of its array at
      the cursor and advances it.
    - Numbers that the code only uses as counts and lengths are integers
      ([Z]); an optional field is an [option].
    - Code that can throw returns a [result]; the storage functions run in a
      state of the key-value store and the random source.
    - CryptoJS and [JSON] are not part of the repository. Their functions
      are fields of the records [CryptoJS] and [JSON]; those that can
      throw return a [result], and what a proof assumes of them is a
      hypothesis of its statement. *)

From stdpp Require Import base numbers list strings gmap countable finite sorting.
From Stdlib Require Import QArith Lqa.
Local Open Scope Z_scope.

(** ** JavaScript strings *)

Abbreviation jsstring := (list N).

Definition js (s : string) : jsstring :=
  map Ascii.N_of_ascii (String.list_ascii_of_string s).

Definition mem (c : N) (s : jsstring) : bool := existsb (N.eqb c) s.

(** [str.replace(/[...]/g, '')] with a character class: every code unit of
    the class is dropped. *)
Definition remove_class (cls : jsstring) (str : jsstring) : jsstring :=
  List.filter (λ c, negb (mem c cls)) str.

(** [str[i]] in a string concatenation: the one-unit string at [i], and the
    text of [undefined] when [i] is not an index of [str]. *)
Definition char_at (str : jsstring) (i : nat) : jsstring :=
  match str !! i with
  | Some c => [c]
  | None => js "undefined"
  end.

(** ** The random source *)

Record rng := { tape : nat → N; pos : nat }.

(** [crypto.getRandomValues(new Uint8Array(1))]: one byte. *)
Definition getRandomValues1 (r : rng) : N * rng :=
  ((tape r (pos r) mod 256)%N, {| tape := tape r; pos := S (pos r) |}).

(** The word of 32 bits that the four bytes of the tape from [p] on make,
    the first byte lowest: the byte order of typed arrays on the machines
    the application runs on. *)
Definition word_at (t : nat → N) (p : nat) : N :=
  (t p mod 256 + 256 * (t (p + 1)%nat mod 256 + 256 * (t (p + 2)%nat mod 256
     + 256 * (t (p + 3)%nat mod 256))))%N.

(** [crypto.getRandomValues(new Uint32Array(1))]: one word, four bytes. *)
Definition getRandomValues32 (r : rng) : N * rng :=
  (word_at (tape r) (pos r), {| tape := tape r; pos := pos r + 4 |}).

(** ** Results of code that can throw *)

Inductive exn := Error (message : string).

Inductive result (A : Type) :=
| Ok (a : A)
| Throw (e : exn).
Arguments Ok {A} a.
Arguments Throw {A} e.

(** ** password-generator.ts *)

Record PasswordOptions := {
  opt_length : Z;                  (* [length] *)
  includeUppercase : bool;
  includeLowercase : bool;
  includeNumbers : bool;
  includeSpecialChars : bool;
  numberCount : option Z;
  specialCharCount : option Z;
  excludeSimilar : bool;
  excludeAmbiguous : bool;
}.

Definition UPPERCASE : jsstring := js "ABCDEFGHIJKLMNOPQRSTUVWXYZ".
Definition LOWERCASE : jsstring := js "abcdefghijklmnopqrstuvwxyz".
Definition NUMBERS : jsstring := js "0123456789".
Definition SPECIAL_CHARS : jsstring := js "!@#$%^&*()_+-=[]{}|;:,.<>?".

Definition SIMILAR_CHARS : jsstring := js "il1Lo0O".
(* 34 is the double quote. *)
Definition AMBIGUOUS_CHARS : jsstring :=
  js "{}[]()/\'" ++ [34%N] ++ js "`~,;.<>".

(** The class of the regular expression applied to the special characters
    when [excludeAmbiguous] is set. *)
Definition ambiguous_class : jsstring :=
  js "{}[]()/\'" ++ [34%N] ++ js "`,;.<>".

(** [getRandomChar(str)]: [str[array[0] % str.length]]. *)
Definition getRandomChar (str : jsstring) (r : rng) : jsstring * rng :=
  let '(b, r') := getRandomValues1 r in
  (char_at str (N.to_nat b `mod` length str)%nat, r').

(** [for (let i = 0; i < n; i++) acc += getRandomChar(str)] *)
Fixpoint draw_chars (n : nat) (str acc : jsstring) (r : rng) : jsstring * rng :=
  match n with
  | O => (acc, r)
  | S n' =>
      let '(c, r') := getRandomChar str r in
      draw_chars n' str (acc ++ c) r'
  end.

(** [count || 1]: an absent count and the count 0 both give 1. *)
Definition or_one (count : option Z) : Z :=
  match count with
  | Some c => if c =? 0 then 1 else c
  | None => 1
  end.

(** [[array[i], array[j]] = [array[j], array[i]]]. The loop of
    [shuffleString] only swaps at indices of the array ([j <= i < length]);
    at other indices JavaScript would write [undefined] and grow the array,
    which a list of code units cannot hold, and the model leaves the array
    as it is. *)
Definition swap (array : jsstring) (i j : nat) : jsstring :=
  match array !! i, array !! j with
  | Some x, Some y => <[j:=x]> (<[i:=y]> array)
  | _, _ => array
  end.

(** The loop of [shuffleString], [i] running down to 1. *)
Fixpoint shuffle_loop (i : nat) (array : jsstring) (r : rng) : jsstring * rng :=
  match i with
  | O => (array, r)
  | S i' =>
      let '(b, r') := getRandomValues1 r in
      let j := (N.to_nat b `mod` (i + 1))%nat in
      shuffle_loop i' (swap array i j) r'
  end.

Definition shuffleString (str : jsstring) (r : rng) : jsstring * rng :=
  shuffle_loop (length str - 1) str r.

Definition upperChars (o : PasswordOptions) : jsstring :=
  if excludeSimilar o then remove_class (js "IL") UPPERCASE else UPPERCASE.
Definition lowerChars (o : PasswordOptions) : jsstring :=
  if excludeSimilar o then remove_class (js "il") LOWERCASE else LOWERCASE.
Definition numberChars (o : PasswordOptions) : jsstring :=
  if excludeSimilar o then remove_class (js "10") NUMBERS else NUMBERS.
Definition specialChars (o : PasswordOptions) : jsstring :=
  if excludeAmbiguous o then remove_class ambiguous_class SPECIAL_CHARS
  else SPECIAL_CHARS.

(** The state of the first part of [generatePassword]: the two string
    variables and the random source. *)
Record build := { charset : jsstring; requiredChars : jsstring; source : rng }.

Definition addUppercase (o : PasswordOptions) (b : build) : build :=
  if includeUppercase o then
    let '(c, r) := getRandomChar (upperChars o) (source b) in
    {| charset := charset b ++ upperChars o;
       requiredChars := requiredChars b ++ c; source := r |}
  else b.

Definition addLowercase (o : PasswordOptions) (b : build) : build :=
  if includeLowercase o then
    let '(c, r) := getRandomChar (lowerChars o) (source b) in
    {| charset := charset b ++ lowerChars o;
       requiredChars := requiredChars b ++ c; source := r |}
  else b.

Definition addNumbers (o : PasswordOptions) (b : build) : build :=
  if includeNumbers o then
    let numCount := or_one (numberCount o) in
    let '(req, r) :=
      draw_chars (Z.to_nat numCount) (numberChars o) (requiredChars b) (source b) in
    {| charset := charset b ++ numberChars o; requiredChars := req; source := r |}
  else b.

Definition addSpecialChars (o : PasswordOptions) (b : build) : build :=
  if includeSpecialChars o then
    let specialCount := or_one (specialCharCount o) in
    let '(req, r) :=
      draw_chars (Z.to_nat specialCount) (specialChars o) (requiredChars b) (source b) in
    {| charset := charset b ++ specialChars o; requiredChars := req; source := r |}
  else b.

Definition buildCharset (o : PasswordOptions) (r : rng) : build :=
  addSpecialChars o (addNumbers o (addLowercase o (addUppercase o
    {| charset := []; requiredChars := []; source := r |}))).

Definition noCharType : exn :=
  Error "At least one character type must be selected".
Definition tooShort : exn :=
  Error "Password length is too short for the required character counts".

Definition generatePassword (o : PasswordOptions) (r : rng) : result jsstring * rng :=
  let b := buildCharset o r in
  if bool_decide (charset b = []) then (Throw noCharType, source b)
  else
    let remainingLength := opt_length o - Z.of_nat (length (requiredChars b)) in
    if remainingLength <? 0 then (Throw tooShort, source b)
    else
      let '(password, r1) :=
        draw_chars (Z.to_nat remainingLength) (charset b) (requiredChars b) (source b) in
      let '(shuffled, r2) := shuffleString password r1 in
      (Ok shuffled, r2).

Definition DEFAULT_PASSWORD_OPTIONS : PasswordOptions :=
  {| opt_length := 16;
     includeUppercase := true; includeLowercase := true;
     includeNumbers := true; includeSpecialChars := true;
     numberCount := Some 2; specialCharCount := Some 2;
     excludeSimilar := true; excludeAmbiguous := false |}.

(** ** JavaScript numbers

    A number is [NaN], an infinity or a finite value. Finite values are
    rationals: the estimator adds and compares small integers and one
    bounded term, and rounding plays no part in what is proved. The sign of
    zero is not modelled. *)

Inductive number := NaN | NegInfinity | Infinity | Num (q : Q).
Arguments Num q%_Q.

Definition Qsign (q : Q) : comparison := (q ?= 0)%Q.

Definition num_add (a b : number) : number :=
  match a, b with
  | NaN, _ | _, NaN => NaN
  | Infinity, NegInfinity | NegInfinity, Infinity => NaN
  | Infinity, _ | _, Infinity => Infinity
  | NegInfinity, _ | _, NegInfinity => NegInfinity
  | Num p, Num q => Num (p + q)
  end.

Definition num_neg (a : number) : number :=
  match a with
  | NaN => NaN
  | Infinity => NegInfinity
  | NegInfinity => Infinity
  | Num q => Num (- q)
  end.

Definition num_sub (a b : number) : number := num_add a (num_neg b).

(** An infinity times a finite number: [NaN] for 0, the sign otherwise. *)
Definition inf_times (plus : bool) (q : Q) : number :=
  match Qsign q with
  | Eq => NaN
  | Gt => if plus then Infinity else NegInfinity
  | Lt => if plus then NegInfinity else Infinity
  end.

Definition num_mul (a b : number) : number :=
  match a, b with
  | NaN, _ | _, NaN => NaN
  | Infinity, Infinity | NegInfinity, NegInfinity => Infinity
  | Infinity, NegInfinity | NegInfinity, Infinity => NegInfinity
  | Infinity, Num q | Num q, Infinity => inf_times true q
  | NegInfinity, Num q | Num q, NegInfinity => inf_times false q
  | Num p, Num q => Num (p * q)
  end.

Definition num_div (a b : number) : number :=
  match a, b with
  | NaN, _ | _, NaN => NaN
  | (Infinity | NegInfinity), (Infinity | NegInfinity) => NaN
  | Infinity, Num q => if Qle_bool 0 q then Infinity else NegInfinity
  | NegInfinity, Num q => if Qle_bool 0 q then NegInfinity else Infinity
  | Num _, (Infinity | NegInfinity) => Num 0
  | Num p, Num q =>
      match Qsign q with
      | Eq => inf_times true p
      | _ => Num (p / q)
      end
  end.

(** [a < b]; false as soon as one side is [NaN]. *)
Definition num_lt (a b : number) : bool :=
  match a, b with
  | NaN, _ | _, NaN => false
  | _, NegInfinity => false
  | NegInfinity, _ => true
  | Infinity, _ => false
  | _, Infinity => true
  | Num p, Num q => negb (Qle_bool q p)
  end.

Definition Math_min (a b : number) : number :=
  match a, b with
  | NaN, _ | _, NaN => NaN
  | _, _ => if num_lt b a then b else a
  end.

Definition Math_max (a b : number) : number :=
  match a, b with
  | NaN, _ | _, NaN => NaN
  | _, _ => if num_lt a b then b else a
  end.

Definition of_nat (n : nat) : number := Num (inject_Z (Z.of_nat n)).

(** ** Regular expressions of the estimator *)

Definition in_range (lo hi c : N) : bool := ((lo <=? c) && (c <=? hi))%N.

Definition is_lower (c : N) : bool := in_range 97 122 c.    (* [a-z] *)
Definition is_upper (c : N) : bool := in_range 65 90 c.     (* [A-Z] *)
Definition is_digit (c : N) : bool := in_range 48 57 c.     (* \d *)
(* [^a-zA-Z\d] *)
Definition is_other (c : N) : bool := negb (is_lower c || is_upper c || is_digit c).

(** What [.] does not match: the line terminators. *)
Definition is_line_terminator (c : N) : bool :=
  mem c [10; 13; 8232; 8233]%N.

(** [/(.)\1{2,}/]: some code unit that [.] matches, three times in a row. *)
Fixpoint has_triple (s : jsstring) : bool :=
  match s with
  | a :: ((b :: c :: _) as rest) =>
      ((a =? b)%N && (b =? c)%N && negb (is_line_terminator a)) || has_triple rest
  | _ => false
  end.

Fixpoint starts_with (pat s : jsstring) : bool :=
  match pat, s with
  | [], _ => true
  | p :: pat', c :: s' => (p =? c)%N && starts_with pat' s'
  | _ :: _, [] => false
  end.

Fixpoint contains (pat s : jsstring) : bool :=
  starts_with pat s ||
  match s with
  | [] => false
  | _ :: s' => contains pat s'
  end.

(** Matching with the [i] flag against a pattern of lower-case ASCII letters
    and digits: only the ASCII upper-case letters fold onto them. *)
Definition fold_case (c : N) : N := if is_upper c then (c + 32)%N else c.

(* /123|abc|qwe/i *)
Definition has_common_pattern (s : jsstring) : bool :=
  let t := map fold_case s in
  contains (js "123") t || contains (js "abc") t || contains (js "qwe") t.

(** The elements of [new Set(password)]: the string is iterated by code
    point, a high surrogate followed by a low one counting as one element. *)
Definition is_high_surrogate (c : N) : bool := in_range 55296 56319 c.
Definition is_low_surrogate (c : N) : bool := in_range 56320 57343 c.

Fixpoint code_points (s : jsstring) : list N :=
  match s with
  | [] => []
  | a :: rest =>
      match rest with
      | b :: rest' =>
          if is_high_surrogate a && is_low_surrogate b
          then ((a - 55296) * 1024 + (b - 56320) + 65536)%N :: code_points rest'
          else a :: code_points rest
      | [] => [a]
      end
  end.

Definition set_size (s : jsstring) : nat := length (remove_dups (code_points s)).

(** ** estimatePasswordStrength *)

Record Strength := { score : number; label : string; color : string }.

Section Estimator.

(** [Math.log2] on the positive finite numbers. *)
Variable log2 : Q → Q.

Definition Math_log2 (x : number) : number :=
  match x with
  | NaN | NegInfinity => NaN
  | Infinity => Infinity
  | Num q =>
      match Qsign q with
      | Lt => NaN
      | Eq => NegInfinity
      | Gt => Num (log2 q)
      end
  end.

(** The score before it is clamped. *)
Definition raw_score (password : jsstring) : number :=
  let len := length password in
  let score := Num 0 in
  (* Length bonus *)
  let score := num_add score (Math_min (num_mul (of_nat len) (Num 4)) (Num 25)) in
  (* Character variety bonus *)
  let score := if existsb is_lower password then num_add score (Num 5) else score in
  let score := if existsb is_upper password then num_add score (Num 5) else score in
  let score := if existsb is_digit password then num_add score (Num 5) else score in
  let score := if existsb is_other password then num_add score (Num 10) else score in
  (* Patterns penalty *)
  let score := if has_triple password then num_sub score (Num 10) else score in
  let score := if has_common_pattern password then num_sub score (Num 10) else score in
  (* Length penalties/bonuses *)
  let score := if (16 <=? len)%nat then num_add score (Num 10) else score in
  let score := if (20 <=? len)%nat then num_add score (Num 10) else score in
  let score := if (len <? 8)%nat then num_sub score (Num 20) else score in
  (* Entropy calculation *)
  let uniqueChars := set_size password in
  let entropy := num_mul (of_nat len) (Math_log2 (of_nat uniqueChars)) in
  num_add score (Math_min (num_div entropy (Num 4)) (Num 25)).

Definition estimatePasswordStrength (password : jsstring) : Strength :=
  let score := raw_score password in
  let score := Math_max (Num 0) (Math_min (Num 100) score) in
  if num_lt score (Num 30) then
    {| score := score; label := "Weak"; color := "destructive" |}
  else if num_lt score (Num 60) then
    {| score := score; label := "Fair"; color := "accent" |}
  else if num_lt score (Num 80) then
    {| score := score; label := "Good"; color := "primary" |}
  else
    {| score := score; label := "Strong"; color := "primary" |}.



End Estimator.

(** ** Strings that have a UTF-8 encoding

    CryptoJS turns a string into bytes with
    [unescape(encodeURIComponent(str))], and [encodeURIComponent] throws a
    [URIError] on a string that holds a surrogate outside a pair. *)
Fixpoint well_formed (s : jsstring) : bool :=
  match s with
  | [] => true
  | a :: rest =>
      if is_high_surrogate a then
        match rest with
        | b :: rest' => is_low_surrogate b && well_formed rest'
        | [] => false
        end
      else negb (is_low_surrogate a) && well_formed rest
  end.

(** ** CryptoJS

    The library is not part of the repository: its functions are the fields
    of a record, and what is assumed of them is stated as laws on that
    record. The key derivation, the cipher and the decoding can throw. A
    [WordArray] is the list of its bytes. *)

Abbreviation WordArray := (list N).

Inductive Mode := CBC | CFB | CTR | OFB | ECB.
Inductive Padding := Pkcs7 | AnsiX923 | Iso10126 | Iso97971 | ZeroPadding | NoPadding.

Record CipherConfig := { cfg_iv : WordArray; cfg_mode : Mode; cfg_padding : Padding }.

Record CryptoJS := {
  (* [CryptoJS.PBKDF2(password, salt, { keySize, iterations })] *)
  PBKDF2 : jsstring → jsstring → Z → Z → result WordArray;
  CipherParams : Type;
  (* [CryptoJS.AES.encrypt(message, key, cfg)]; it may draw from the random source *)
  AES_encrypt : jsstring → jsstring → CipherConfig → rng → result CipherParams * rng;
  (* [cipherParams.toString()] *)
  CipherParams_toString : CipherParams → jsstring;
  (* the blocks that [CryptoJS.AES.decrypt(ciphertext, key, cfg)] deciphers,
     before it removes the padding *)
  AES_decrypt_blocks : jsstring → jsstring → CipherConfig → result WordArray;
  (* [wordArray.toString(CryptoJS.enc.Utf8)]; throws on malformed UTF-8 *)
  Utf8_stringify : WordArray → result jsstring;
  (* [CryptoJS.enc.Hex.parse(hexStr)] *)
  Hex_parse : jsstring → WordArray;
}.

(** [CryptoJS.pad.Pkcs7.unpad(data)]: [data.sigBytes -= lastByte], with no
    look at the bytes it drops; with fewer bytes than the last one says,
    none is left. *)
Definition Pkcs7_unpad (blocks : WordArray) : WordArray :=
  take (length blocks - N.to_nat (default 0%N (last blocks))) blocks.

(** [CryptoJS.AES.decrypt(ciphertext, key, cfg)]: the deciphered blocks
    without their padding. The code uses no other padding than PKCS7. *)
Definition AES_decrypt (lib : CryptoJS) (ciphertext key : jsstring) (cfg : CipherConfig)
  : result WordArray :=
  match AES_decrypt_blocks lib ciphertext key cfg with
  | Ok blocks =>
      Ok (match cfg_padding cfg with
          | Pkcs7 => Pkcs7_unpad blocks
          | _ => blocks
          end)
  | Throw e => Throw e
  end.

(** [wordArray.toString()]: two lower-case hexadecimal digits per byte. *)
Definition hex_digit (d : N) : N :=
  nth (N.to_nat d) (js "0123456789abcdef") 0%N.

Definition Hex_stringify (w : WordArray) : jsstring :=
  flat_map (λ b, [hex_digit (b / 16); hex_digit (b mod 16)]%N) w.

(** The four bytes of a word, the highest first, as [toString] reads
    them: [(word >>> (24 - 8 * i)) & 0xff]. *)
Definition word_bytes (w : N) : WordArray :=
  [(w / 16777216) mod 256; (w / 65536) mod 256; (w / 256) mod 256; w mod 256]%N.

(** [for (var i = 0; i < nBytes; i += 4) words.push(cryptoSecureRandomInt())],
    as many words as the loop runs. *)
Fixpoint random_words (n : nat) (r : rng) : list N * rng :=
  match n with
  | O => ([], r)
  | S n' =>
      let '(w, r1) := getRandomValues32 r in
      let '(ws, r2) := random_words n' r1 in
      (w :: ws, r2)
  end.

(** [CryptoJS.lib.WordArray.random(nBytes)]: words of 32 random bits, of
    which the first [nBytes] bytes count. *)
Definition WordArray_random (nBytes : nat) (r : rng) : WordArray * rng :=
  let '(words, r') := random_words ((nBytes + 3) / 4) r in
  (take nBytes (flat_map word_bytes words), r').

(** ** JSON *)

#[local] Set Warnings "-register-all".
Inductive JSValue :=
| JNull
| JBool (b : bool)
| JNumber (q : Q)
| JString (s : jsstring)
| JArray (items : list JSValue)
| JObject (fields : list (jsstring * JSValue)).

Record JSON := {
  JSON_stringify : JSValue → jsstring;
  (* throws a SyntaxError on text that is not JSON *)
  JSON_parse : jsstring → result JSValue;
}.

Fixpoint get_field (key : jsstring) (fields : list (jsstring * JSValue)) : option JSValue :=
  match fields with
  | [] => None
  | (k, v) :: rest => if bool_decide (k = key) then Some v else get_field key rest
  end.

(** ** encryption.ts *)

Record EncryptedData := { data : jsstring; iv : jsstring; salt : jsstring }.

Definition MASTER_PASSWORD_VALIDATION : jsstring := js "MASTER_PASSWORD_VALIDATION".

Section Encryption.

Variable lib : CryptoJS.

Definition deriveKey (masterPassword salt : jsstring) : result jsstring :=
  match PBKDF2 lib masterPassword salt (256 / 32) 100000 with
  | Ok key => Ok (Hex_stringify key)
  | Throw e => Throw e
  end.

Definition generateSalt (r : rng) : jsstring * rng :=
  let '(w, r') := WordArray_random (256 / 8) r in (Hex_stringify w, r').

Definition generateIV (r : rng) : jsstring * rng :=
  let '(w, r') := WordArray_random (96 / 8) r in (Hex_stringify w, r').

Definition encryptData (data masterPassword : jsstring) (r : rng)
  : result EncryptedData * rng :=
  let '(salt, r1) := generateSalt r in
  let '(iv, r2) := generateIV r1 in
  match deriveKey masterPassword salt with
  | Throw e => (Throw e, r2)
  | Ok key =>
      match AES_encrypt lib data key
              {| cfg_iv := Hex_parse lib iv; cfg_mode := CBC; cfg_padding := Pkcs7 |} r2 with
      | (Ok encrypted, r3) =>
          (Ok {| data := CipherParams_toString lib encrypted; iv := iv; salt := salt |}, r3)
      | (Throw e, r3) => (Throw e, r3)
      end
  end.

Definition decryptData (encryptedData : EncryptedData) (masterPassword : jsstring)
  : result jsstring :=
  match deriveKey masterPassword (salt encryptedData) with
  | Throw e => Throw e
  | Ok key =>
      match AES_decrypt lib (data encryptedData) key
              {| cfg_iv := Hex_parse lib (iv encryptedData);
                 cfg_mode := CBC; cfg_padding := Pkcs7 |} with
      | Throw e => Throw e
      | Ok decrypted => Utf8_stringify lib decrypted
      end
  end.

Definition validateMasterPassword (password : jsstring) (testData : EncryptedData) : bool :=
  match decryptData testData password with
  | Ok decrypted => bool_decide (decrypted = MASTER_PASSWORD_VALIDATION)
  | Throw _ => false
  end.

Definition createValidationData (masterPassword : jsstring) (r : rng)
  : result EncryptedData * rng :=
  encryptData MASTER_PASSWORD_VALIDATION masterPassword r.

End Encryption.

(** ** storage.ts *)

Record PasswordEntry := {
  id : jsstring;
  title : jsstring;
  website : jsstring;
  username : jsstring;
  password : jsstring;
  notes : jsstring;
  createdAt : jsstring;
  updatedAt : jsstring;
  tags : list jsstring;
}.

Record VaultData := { entries : list PasswordEntry; version : jsstring }.

(** The JavaScript values of these types. *)
Definition value_of_entry (e : PasswordEntry) : JSValue :=
  JObject [ (js "id", JString (id e)); (js "title", JString (title e));
            (js "website", JString (website e)); (js "username", JString (username e));
            (js "password", JString (password e)); (js "notes", JString (notes e));
            (js "createdAt", JString (createdAt e)); (js "updatedAt", JString (updatedAt e));
            (js "tags", JArray (JString <$> tags e)) ].

Definition value_of_vault (v : VaultData) : JSValue :=
  JObject [ (js "entries", JArray (value_of_entry <$> entries v));
            (js "version", JString (version v)) ].

Definition value_of_envelope (e : EncryptedData) : JSValue :=
  JObject [ (js "data", JString (data e)); (js "iv", JString (iv e));
            (js "salt", JString (salt e)) ].

Definition typeError : exn := Error "TypeError".

(** [const encryptedData: EncryptedData = JSON.parse(value)]: the fields
    that [decryptData] reads. The annotation is not checked when the program
    runs; a value of another shape is outside the typed program, and the
    model throws there (inside the [try] block of the caller). *)
Definition as_EncryptedData (j : JSValue) : result EncryptedData :=
  match j with
  | JObject fields =>
      match get_field (js "data") fields, get_field (js "iv") fields,
            get_field (js "salt") fields with
      | Some (JString d), Some (JString i), Some (JString s) =>
          Ok {| data := d; iv := i; salt := s |}
      | _, _, _ => Throw typeError
      end
  | _ => Throw typeError
  end.

Definition VAULT_DATA : jsstring := js "secure_vault_data".
Definition MASTER_PASSWORD_VALIDATION_KEY : jsstring := js "master_password_validation".
Definition BIOMETRIC_ENABLED : jsstring := js "biometric_enabled".
Definition AUTO_LOCK_TIMEOUT : jsstring := js "auto_lock_timeout".
Definition APP_SETTINGS : jsstring := js "app_settings".

(** The state the storage functions run in: the key-value store of
    [Preferences] and the random source. *)
Record world := { prefs : gmap jsstring jsstring; random : rng }.

(** Computations that read and write the world and may throw. *)
Definition M (A : Type) : Type := world → result A * world.

Definition ret {A} (a : A) : M A := λ w, (Ok a, w).
Definition throw {A} (e : exn) : M A := λ w, (Throw e, w).
Definition bind {A B} (m : M A) (k : A → M B) : M B :=
  λ w, match m w with
       | (Ok a, w') => k a w'
       | (Throw e, w') => (Throw e, w')
       end.
Definition try_catch {A} (body : M A) (handler : exn → M A) : M A :=
  λ w, match body w with
       | (Ok a, w') => (Ok a, w')
       | (Throw e, w') => handler e w'
       end.
Definition lift {A} (x : result A) : M A := λ w, (x, w).
Definition with_random {A} (f : rng → result A * rng) : M A :=
  λ w, let '(a, r) := f (random w) in (a, {| prefs := prefs w; random := r |}).

Notation "'let*' x := m 'in' k" := (bind m (λ x, k))
  (at level 10, x binder, k at level 200).

Definition Preferences_get (key : jsstring) : M (option jsstring) :=
  λ w, (Ok (prefs w !! key), w).
Definition Preferences_set (key value : jsstring) : M unit :=
  λ w, (Ok (), {| prefs := <[key:=value]> (prefs w); random := random w |}).
Definition Preferences_remove (key : jsstring) : M unit :=
  λ w, (Ok (), {| prefs := delete key (prefs w); random := random w |}).

Definition saveFailed : exn := Error "Failed to save password vault".
Definition decryptFailed : exn :=
  Error "Failed to decrypt password vault. Please check your master password.".

Section Storage.

Variable lib : CryptoJS.
Variable json : JSON.

Definition storeVaultData (vaultData : VaultData) (masterPassword : jsstring) : M unit :=
  try_catch
    (let jsonData := JSON_stringify json (value_of_vault vaultData) in
     let* encryptedData := with_random (encryptData lib jsonData masterPassword) in
     Preferences_set VAULT_DATA (JSON_stringify json (value_of_envelope encryptedData)))
    (λ _, throw saveFailed).

(** [null] is [None]. *)
Definition getVaultData (masterPassword : jsstring) : M (option JSValue) :=
  try_catch
    (let* value := Preferences_get VAULT_DATA in
     match value with
     | None | Some [] => ret None                       (* [!value] *)
     | Some value =>
         let* parsed := lift (JSON_parse json value) in
         let* encryptedData := lift (as_EncryptedData parsed) in
         let* decryptedJson := lift (decryptData lib encryptedData masterPassword) in
         let* vault := lift (JSON_parse json decryptedJson) in
         ret (Some vault)
     end)
    (λ _, throw decryptFailed).

Definition storeMasterPasswordValidation (validationData : EncryptedData) : M unit :=
  try_catch
    (Preferences_set MASTER_PASSWORD_VALIDATION_KEY
       (JSON_stringify json (value_of_envelope validationData)))
    (λ _, throw (Error "Failed to save master password validation")).

Definition getMasterPasswordValidation : M (option JSValue) :=
  try_catch
    (let* value := Preferences_get MASTER_PASSWORD_VALIDATION_KEY in
     match value with
     | None | Some [] => ret None
     | Some value =>
         let* parsed := lift (JSON_parse json value) in
         ret (Some parsed)
     end)
    (λ _, ret None).

End Storage.

(** ** Numbers as text

    [minutes.toString()] and [parseInt(value, 10)], for the integers. A
    number holds every integer below [2^53] in absolute value; what the
    two functions do with the others is left open. *)

(** The decimal digits of [n], most significant first, in front of [acc]. *)
Fixpoint digits_fuel (fuel : nat) (n : N) (acc : jsstring) : jsstring :=
  match fuel with
  | O => acc
  | S fuel' =>
      let acc' := (48 + n mod 10)%N :: acc in
      if (n / 10 =? 0)%N then acc' else digits_fuel fuel' (n / 10) acc'
  end.

Definition decimal (n : N) : jsstring := digits_fuel (S (N.to_nat (N.log2 n))) n [].

(** [Number.prototype.toString] on an integer: its decimal digits below
    [2^53]; [shortest] is the text of the others (the shortest digits that
    read back as the number, or the exponential notation). *)
Definition Number_toString (shortest : Z → jsstring) (n : Z) : jsstring :=
  if Z.abs n <? 2 ^ 53 then
    if n <? 0 then 45%N :: decimal (Z.to_N (- n)) else decimal (Z.to_N n)
  else shortest n.

(** White space and line terminators, which [parseInt] skips. *)
Definition is_whitespace (c : N) : bool :=
  mem c [9; 10; 11; 12; 13; 32; 160; 5760; 8232; 8233; 8239; 8287; 12288; 65279]%N
  || in_range 8192 8202 c.

Fixpoint skip_whitespace (s : jsstring) : jsstring :=
  match s with
  | c :: s' => if is_whitespace c then skip_whitespace s' else s
  | [] => []
  end.

(** The value of the longest prefix of decimal digits, and whether there
    was a digit at all. *)
Fixpoint parse_digits (s : jsstring) (acc : N) (seen : bool) : N * bool :=
  match s with
  | c :: s' => if is_digit c then parse_digits s' (acc * 10 + (c - 48))%N true
               else (acc, seen)
  | [] => (acc, seen)
  end.

(** [parseInt(s, 10)]: the integer that the digits write when it is below
    [2^53] in absolute value; [nearest] is the number that an integer
    beyond is rounded to. *)
Definition parseInt (nearest : Z → number) (s : jsstring) : number :=
  let s := skip_whitespace s in
  let '(negative, s) :=
    match s with
    | c :: s' =>
        if (c =? 45)%N then (true, s')           (* - *)
        else if (c =? 43)%N then (false, s')     (* + *)
        else (false, s)
    | [] => (false, s)
    end in
  match parse_digits s 0%N false with
  | (n, true) =>
      let v := if negative then - Z.of_N n else Z.of_N n in
      if Z.abs v <? 2 ^ 53 then Num (inject_Z v) else nearest v
  | (_, false) => NaN
  end.

(** ** storage.ts, the settings *)

(** [validation !== null], the [null] of the function and the one that
    [JSON.parse] can return being the same value. *)
Definition not_null (v : option JSValue) : bool :=
  match v with
  | None | Some JNull => false
  | Some _ => true
  end.

Section Settings.

Variable json : JSON.
Variable shortest : Z → jsstring.
Variable nearest : Z → number.

Definition vaultExists : M bool :=
  try_catch
    (let* validation := getMasterPasswordValidation json in
     ret (not_null validation))
    (λ _, ret false).

Definition setBiometricEnabled (enabled : bool) : M unit :=
  try_catch
    (Preferences_set BIOMETRIC_ENABLED (if enabled then js "true" else js "false"))
    (λ _, ret ()).

Definition isBiometricEnabled : M bool :=
  try_catch
    (let* value := Preferences_get BIOMETRIC_ENABLED in
     ret (bool_decide (value = Some (js "true"))))
    (λ _, ret false).

Definition setAutoLockTimeout (minutes : Z) : M unit :=
  try_catch
    (Preferences_set AUTO_LOCK_TIMEOUT (Number_toString shortest minutes))
    (λ _, ret ()).

Definition getAutoLockTimeout : M number :=
  try_catch
    (let* value := Preferences_get AUTO_LOCK_TIMEOUT in
     match value with
     | None | Some [] => ret (Num 5)
     | Some value => ret (parseInt nearest value)
     end)
    (λ _, ret (Num 5)).

(** The five removals of [Promise.all], in the order of the array. *)
Definition clearAllData : M unit :=
  try_catch
    (let* _ := Preferences_remove VAULT_DATA in
     let* _ := Preferences_remove MASTER_PASSWORD_VALIDATION_KEY in
     let* _ := Preferences_remove BIOMETRIC_ENABLED in
     let* _ := Preferences_remove AUTO_LOCK_TIMEOUT in
     Preferences_remove APP_SETTINGS)
    (λ _, throw (Error "Failed to clear application data")).

End Settings.

(** ** AuthContext.tsx *)

(** The state of the provider and the password kept in
    [window.__masterPassword]. *)
Record session := {
  isAuthenticated : bool;
  hasVault : bool;
  masterPassword : option jsstring;
}.

(** The values that a condition takes for false. *)
Definition falsy (j : JSValue) : bool :=
  match j with
  | JNull | JBool false | JString [] => true
  | JNumber q => Qeq_bool q 0
  | _ => false
  end.

Section Auth.

Variable lib : CryptoJS.
Variable json : JSON.

Definition checkAuth (s : session) : M session :=
  try_catch
    (let* vaultExistsResult := vaultExists json in
     ret {| isAuthenticated := isAuthenticated s; hasVault := vaultExistsResult;
            masterPassword := masterPassword s |})
    (λ _, ret s).

(** [validateMasterPassword] on what [getMasterPasswordValidation]
    returned; a value that is not an [EncryptedData] is refused, as in
    [getVaultData]. *)
Definition validate_value (password : jsstring) (validationData : JSValue) : bool :=
  match as_EncryptedData validationData with
  | Ok testData => validateMasterPassword lib password testData
  | Throw _ => false
  end.

Definition login (password : jsstring) (s : session) : M (bool * session) :=
  try_catch
    (let* validationData := getMasterPasswordValidation json in
     match validationData with
     | None => ret (false, s)
     | Some validationData =>
         if falsy validationData then ret (false, s)
         else if validate_value password validationData then
           ret (true, {| isAuthenticated := true; hasVault := hasVault s;
                         masterPassword := Some password |})
         else ret (false, s)
     end)
    (λ _, ret (false, s)).

Definition logout (s : session) : session :=
  {| isAuthenticated := false; hasVault := hasVault s; masterPassword := None |}.

(** ** MasterPasswordSetup *)

(** What [handleSubmit] reports. *)
Inductive setup_outcome :=
| PasswordMismatch
| PasswordTooShort
| SetupComplete
| SetupFailed.

Definition initialVault : VaultData := {| entries := []; version := js "1.0.0" |}.

Definition MasterPasswordSetup_handleSubmit (password confirmPassword : jsstring)
  : M setup_outcome :=
  if bool_decide (password ≠ confirmPassword) then ret PasswordMismatch
  else if (length password <? 8)%nat then ret PasswordTooShort
  else
    try_catch
      (let* validationData := with_random (createValidationData lib password) in
       let* _ := storeMasterPasswordValidation json validationData in
       let* _ := storeVaultData lib json initialVault password in
       ret SetupComplete)
      (λ _, ret SetupFailed).

End Auth.

(** ** PasswordVault.tsx *)

(** The fields of an entry that the dialog supplies:
    [Omit<PasswordEntry, 'id' | 'createdAt' | 'updatedAt'>]. *)
Module EntryData.
Record t := {
  title : jsstring;
  website : jsstring;
  username : jsstring;
  password : jsstring;
  notes : jsstring;
  tags : list jsstring;
}.
End EntryData.

(** [{ ...entry, ...entryData, updatedAt: now }] *)
Definition updated_entry (entry : PasswordEntry) (entryData : EntryData.t) (now : jsstring)
  : PasswordEntry :=
  {| id := id entry;
     title := EntryData.title entryData;
     website := EntryData.website entryData;
     username := EntryData.username entryData;
     password := EntryData.password entryData;
     notes := EntryData.notes entryData;
     createdAt := createdAt entry;
     updatedAt := now;
     tags := EntryData.tags entryData |}.

(** [{ ...entryData, id: crypto.randomUUID(), createdAt: now, updatedAt: now }] *)
Definition new_entry (entryData : EntryData.t) (uuid now : jsstring) : PasswordEntry :=
  {| id := uuid;
     title := EntryData.title entryData;
     website := EntryData.website entryData;
     username := EntryData.username entryData;
     password := EntryData.password entryData;
     notes := EntryData.notes entryData;
     createdAt := now;
     updatedAt := now;
     tags := EntryData.tags entryData |}.

(** [{ ...vaultData, entries }] *)
Definition with_entries (vaultData : VaultData) (entries' : list PasswordEntry) : VaultData :=
  {| entries := entries'; version := version vaultData |}.

(** The entries after an edit of [editingEntry]. *)
Definition updatedEntries (vaultData : VaultData) (editingEntry : PasswordEntry)
    (entryData : EntryData.t) (now : jsstring) : list PasswordEntry :=
  (λ entry, if bool_decide (id entry = id editingEntry)
            then updated_entry entry entryData now else entry) <$> entries vaultData.

(** The entries after the deletion of [entryId]. *)
Definition remainingEntries (vaultData : VaultData) (entryId : jsstring) : list PasswordEntry :=
  List.filter (λ entry, bool_decide (id entry ≠ entryId)) (entries vaultData).

(** The effect that filters the entries by search text and tag.
    [toLowerCase] is the method of the strings. *)
Definition filteredEntries (toLowerCase : jsstring → jsstring) (vaultData : VaultData)
    (searchQuery : jsstring) (selectedTag : option jsstring) : list PasswordEntry :=
  let filtered := entries vaultData in
  let filtered :=
    match searchQuery with
    | [] => filtered
    | _ =>
        List.filter (λ entry,
          contains (toLowerCase searchQuery) (toLowerCase (title entry))
          || contains (toLowerCase searchQuery) (toLowerCase (website entry))
          || contains (toLowerCase searchQuery) (toLowerCase (username entry))
          || contains (toLowerCase searchQuery) (toLowerCase (notes entry))) filtered
    end in
  match selectedTag with
  | None | Some [] => filtered
  | Some tag => List.filter (λ entry, bool_decide (tag ∈ tags entry)) filtered
  end.

(** The elements of [new Set(array)], in the order of their first
    occurrence. *)
Definition Set_from (array : list jsstring) : list jsstring :=
  fold_left (λ set x, if bool_decide (x ∈ set) then set else set ++ [x]) array [].

(** The order of [Array.prototype.sort] without a comparator: strings by
    their code units. *)
Fixpoint str_leb (a b : jsstring) : bool :=
  match a, b with
  | [], _ => true
  | _ :: _, [] => false
  | x :: a', y :: b' =>
      if (x <? y)%N then true else if (y <? x)%N then false else str_leb a' b'
  end.

Definition str_le (a b : jsstring) : Prop := str_leb a b = true.

Global Instance str_le_dec (a b : jsstring) : Decision (str_le a b).
Proof. unfold str_le. apply _. Defined.

Definition getAllTags (vaultData : VaultData) : list jsstring :=
  let allTags := flat_map tags (entries vaultData) in
  merge_sort str_le (Set_from allTags).

(** The state of the component that the handlers below read and write, with
    the session of the provider. *)
Record vault_state := {
  auth : session;
  vaultData : VaultData;
  editingEntry : option PasswordEntry;
}.

Section Vault.

Variable lib : CryptoJS.
Variable json : JSON.

(** [saveVaultData]: without a master password in memory the session is
    logged out and nothing is stored; a failure to store leaves the state as
    it is. *)
Definition saveVaultData (newVaultData : VaultData) (st : vault_state) : M vault_state :=
  try_catch
    (match masterPassword (auth st) with
     | None | Some [] =>
         ret {| auth := logout (auth st); vaultData := vaultData st;
                editingEntry := editingEntry st |}
     | Some masterPassword =>
         let* _ := storeVaultData lib json newVaultData masterPassword in
         ret {| auth := auth st; vaultData := newVaultData;
                editingEntry := editingEntry st |}
     end)
    (λ _, ret st).

(** [now] is [new Date().toISOString()] and [uuid] is
    [crypto.randomUUID()]. *)
Definition handleSaveEntry (entryData : EntryData.t) (now uuid : jsstring)
    (st : vault_state) : M vault_state :=
  match editingEntry st with
  | Some editing =>
      saveVaultData
        (with_entries (vaultData st) (updatedEntries (vaultData st) editing entryData now))
        st
  | None =>
      saveVaultData
        (with_entries (vaultData st)
           (entries (vaultData st) ++ [new_entry entryData uuid now]))
        st
  end.

Definition handleDeleteEntry (entryId : jsstring) (st : vault_state) : M vault_state :=
  saveVaultData (with_entries (vaultData st) (remainingEntries (vaultData st) entryId)) st.

End Vault.

(** * Properties *)

(** ** The password generator *)

(** A tape for examples: the draw at position [n] is [n]. *)
Definition counting : rng := {| tape := N.of_nat; pos := 0 |}.
Definition constant (b : N) : rng := {| tape := λ _, b; pos := 0 |}.

Example generate_default :
  (generatePassword DEFAULT_PASSWORD_OPTIONS counting).1 = Ok (js "b5OHNKPR^QMJG%4A").
Proof. vm_compute. reflexivity. Qed.

(** *** Drawing characters *)

Definition advance (r : rng) : rng := {| tape := tape r; pos := S (pos r) |}.

Lemma getRandomChar_spec (str : jsstring) (r : rng) :
  str ≠ [] → ∃ c, getRandomChar str r = ([c], advance r) ∧ c ∈ str.
Proof.
  intros Hne. unfold getRandomChar, getRandomValues1, char_at.
  set (i := (_ `mod` _)%nat).
  assert (Hi : (i < length str)%nat).
  { apply Nat.mod_upper_bound. destruct str; [done | simpl; lia]. }
  destruct (lookup_lt_is_Some_2 str i Hi) as [c Hc].
  rewrite Hc. exists c. split; [done |]. eapply list_elem_of_lookup_2, Hc.
Qed.

(** What [n] draws from a non-empty [str] append to [acc]. *)
Lemma draw_chars_spec (n : nat) (str acc : jsstring) (r : rng) :
  str ≠ [] →
  ∃ drawn, (draw_chars n str acc r).1 = acc ++ drawn
           ∧ length drawn = n ∧ Forall (λ c, c ∈ str) drawn.
Proof.
  intros Hne. revert acc r. induction n as [|n IH]; intros acc r; cbn [draw_chars].
  - exists []. by rewrite app_nil_r.
  - destruct (getRandomChar_spec str r Hne) as (c & -> & Hc).
    destruct (IH (acc ++ [c]) (advance r)) as (d & -> & Hlen & Hall).
    exists (c :: d). rewrite <- app_assoc. simpl. split_and!; [done | lia | by constructor].
Qed.

Lemma draw_chars_pos (n : nat) (str acc : jsstring) (r : rng) :
  pos (draw_chars n str acc r).2 = (pos r + n)%nat
  ∧ tape (draw_chars n str acc r).2 = tape r.
Proof.
  revert acc r. induction n as [|n IH]; intros acc r; cbn [draw_chars].
  - simpl. split; [lia | done].
  - unfold getRandomChar, getRandomValues1.
    destruct (IH (acc ++ char_at str (N.to_nat (tape r (pos r) `mod` 256)%N `mod` length str)%nat)
                {| tape := tape r; pos := S (pos r) |}) as [-> ->].
    simpl. split; [lia | done].
Qed.

(** *** The shuffle *)

Lemma swap_length (array : jsstring) (i j : nat) :
  length (swap array i j) = length array.
Proof.
  unfold swap. destruct (array !! i), (array !! j); try done.
  by rewrite !length_insert.
Qed.

Lemma swap_perm (array : jsstring) (i j : nat) : swap array i j ≡ₚ array.
Proof.
  unfold swap.
  destruct (array !! i) as [x|] eqn:Hi; [|done].
  destruct (array !! j) as [y|] eqn:Hj; [|done].
  destruct (decide (i = j)) as [->|Hne].
  - assert (x = y) as -> by congruence.
    rewrite list_insert_insert_eq. by rewrite list_insert_id.
  - apply Permutation_inj. split.
    { by rewrite !length_insert. }
    exists (λ k, if decide (k = i) then j else if decide (k = j) then i else k).
    split.
    + intros a b Hab. repeat case_decide; congruence.
    + intros k. repeat case_decide; subst.
      * rewrite list_lookup_insert_ne by done.
        rewrite list_lookup_insert_eq by (by eapply lookup_lt_Some). done.
      * rewrite list_lookup_insert_eq; [done |].
        rewrite length_insert. by eapply lookup_lt_Some.
      * rewrite !list_lookup_insert_ne by done. done.
Qed.

Lemma shuffle_loop_perm (i : nat) (array : jsstring) (r : rng) :
  (shuffle_loop i array r).1 ≡ₚ array.
Proof.
  revert array r. induction i as [|i IH]; intros array r; simpl; [done |].
  rewrite IH. apply swap_perm.
Qed.

Lemma shuffleString_perm (str : jsstring) (r : rng) : (shuffleString str r).1 ≡ₚ str.
Proof. apply shuffle_loop_perm. Qed.

(** *** The required characters *)

(** How many code units of [s] belong to the class [cls]. *)
Definition count_in (cls s : jsstring) : nat :=
  length (List.filter (λ c, mem c cls) s).

(** What one character class contributes to [requiredChars]: [n] draws from
    its alphabet when the class is enabled, nothing otherwise. *)
Definition part (enabled : bool) (n : nat) (str drawn : jsstring) : Prop :=
  if enabled then length drawn = n ∧ Forall (λ c, c ∈ str) drawn else drawn = [].

Definition enabled_chars (enabled : bool) (str : jsstring) : jsstring :=
  if enabled then str else [].

(** The number of required characters, from the options alone. *)
Definition requiredCount (o : PasswordOptions) : Z :=
  (if includeUppercase o then 1 else 0)
  + (if includeLowercase o then 1 else 0)
  + (if includeNumbers o then Z.max 0 (or_one (numberCount o)) else 0)
  + (if includeSpecialChars o then Z.max 0 (or_one (specialCharCount o)) else 0).

Definition anyClass (o : PasswordOptions) : bool :=
  includeUppercase o || includeLowercase o || includeNumbers o || includeSpecialChars o.

Lemma upperChars_nonempty o : upperChars o ≠ [].
Proof. unfold upperChars. by destruct (excludeSimilar o). Qed.
Lemma lowerChars_nonempty o : lowerChars o ≠ [].
Proof. unfold lowerChars. by destruct (excludeSimilar o). Qed.
Lemma numberChars_nonempty o : numberChars o ≠ [].
Proof. unfold numberChars. by destruct (excludeSimilar o). Qed.
Lemma specialChars_nonempty o : specialChars o ≠ [].
Proof. unfold specialChars. by destruct (excludeAmbiguous o). Qed.

Lemma addUppercase_spec o b :
  ∃ U, requiredChars (addUppercase o b) = requiredChars b ++ U
       ∧ part (includeUppercase o) 1 (upperChars o) U
       ∧ charset (addUppercase o b)
         = charset b ++ enabled_chars (includeUppercase o) (upperChars o).
Proof.
  unfold addUppercase, part, enabled_chars. destruct (includeUppercase o).
  - destruct (getRandomChar_spec (upperChars o) (source b)) as (c & -> & Hc);
      [apply upperChars_nonempty |].
    exists [c]. simpl. split_and!; try done. by constructor.
  - exists []. by rewrite !app_nil_r.
Qed.

Lemma addLowercase_spec o b :
  ∃ L, requiredChars (addLowercase o b) = requiredChars b ++ L
       ∧ part (includeLowercase o) 1 (lowerChars o) L
       ∧ charset (addLowercase o b)
         = charset b ++ enabled_chars (includeLowercase o) (lowerChars o).
Proof.
  unfold addLowercase, part, enabled_chars. destruct (includeLowercase o).
  - destruct (getRandomChar_spec (lowerChars o) (source b)) as (c & -> & Hc);
      [apply lowerChars_nonempty |].
    exists [c]. simpl. split_and!; try done. by constructor.
  - exists []. by rewrite !app_nil_r.
Qed.

Lemma addNumbers_spec o b :
  ∃ D, requiredChars (addNumbers o b) = requiredChars b ++ D
       ∧ part (includeNumbers o) (Z.to_nat (or_one (numberCount o))) (numberChars o) D
       ∧ charset (addNumbers o b)
         = charset b ++ enabled_chars (includeNumbers o) (numberChars o).
Proof.
  unfold addNumbers, part, enabled_chars. destruct (includeNumbers o).
  - destruct (draw_chars_spec (Z.to_nat (or_one (numberCount o))) (numberChars o)
                (requiredChars b) (source b)) as (D & HD & Hlen & Hall);
      [apply numberChars_nonempty |].
    destruct (draw_chars _ _ _ _) as [req r]. simpl in *. subst req. by exists D.
  - exists []. by rewrite !app_nil_r.
Qed.

Lemma addSpecialChars_spec o b :
  ∃ S, requiredChars (addSpecialChars o b) = requiredChars b ++ S
       ∧ part (includeSpecialChars o) (Z.to_nat (or_one (specialCharCount o)))
           (specialChars o) S
       ∧ charset (addSpecialChars o b)
         = charset b ++ enabled_chars (includeSpecialChars o) (specialChars o).
Proof.
  unfold addSpecialChars, part, enabled_chars. destruct (includeSpecialChars o).
  - destruct (draw_chars_spec (Z.to_nat (or_one (specialCharCount o))) (specialChars o)
                (requiredChars b) (source b)) as (D & HD & Hlen & Hall);
      [apply specialChars_nonempty |].
    destruct (draw_chars _ _ _ _) as [req r]. simpl in *. subst req. by exists D.
  - exists []. by rewrite !app_nil_r.
Qed.

(** [requiredChars] is, in this order, the draw for the upper-case class,
    the draw for the lower-case class, the digits and the special
    characters; [charset] is the concatenation of the enabled alphabets. *)
Lemma buildCharset_spec o r :
  ∃ U L D S,
    requiredChars (buildCharset o r) = U ++ L ++ D ++ S
    ∧ part (includeUppercase o) 1 (upperChars o) U
    ∧ part (includeLowercase o) 1 (lowerChars o) L
    ∧ part (includeNumbers o) (Z.to_nat (or_one (numberCount o))) (numberChars o) D
    ∧ part (includeSpecialChars o) (Z.to_nat (or_one (specialCharCount o)))
        (specialChars o) S
    ∧ charset (buildCharset o r)
      = enabled_chars (includeUppercase o) (upperChars o)
        ++ enabled_chars (includeLowercase o) (lowerChars o)
        ++ enabled_chars (includeNumbers o) (numberChars o)
        ++ enabled_chars (includeSpecialChars o) (specialChars o).
Proof.
  unfold buildCharset.
  set (b0 := {| charset := []; requiredChars := []; source := r |}).
  destruct (addUppercase_spec o b0) as (U & HU & PU & CU).
  destruct (addLowercase_spec o (addUppercase o b0)) as (L & HL & PL & CL).
  destruct (addNumbers_spec o (addLowercase o (addUppercase o b0))) as (D & HD & PD & CD).
  destruct (addSpecialChars_spec o (addNumbers o (addLowercase o (addUppercase o b0))))
    as (S & HS & PS & CS).
  exists U, L, D, S. split_and!; try done.
  - rewrite HS, HD, HL, HU. simpl. by rewrite <- !app_assoc.
  - rewrite CS, CD, CL, CU. simpl. by rewrite <- !app_assoc.
Qed.

Lemma part_length enabled n str drawn :
  part enabled n str drawn → length drawn = if enabled then n else 0%nat.
Proof. unfold part. destruct enabled; [by intros [? _] | by intros ->]. Qed.

Lemma requiredChars_length o r :
  Z.of_nat (length (requiredChars (buildCharset o r))) = requiredCount o.
Proof.
  destruct (buildCharset_spec o r) as (U & L & D & S & -> & PU & PL & PD & PS & _).
  rewrite !length_app.
  rewrite (part_length _ _ _ _ PU), (part_length _ _ _ _ PL),
    (part_length _ _ _ _ PD), (part_length _ _ _ _ PS).
  unfold requiredCount.
  destruct (includeUppercase o), (includeLowercase o), (includeNumbers o),
    (includeSpecialChars o); lia.
Qed.

Lemma charset_empty o r : charset (buildCharset o r) = [] ↔ anyClass o = false.
Proof.
  destruct (buildCharset_spec o r) as (U & L & D & S & _ & _ & _ & _ & _ & ->).
  unfold anyClass, enabled_chars.
  pose proof (upperChars_nonempty o). pose proof (lowerChars_nonempty o).
  pose proof (numberChars_nonempty o). pose proof (specialChars_nonempty o).
  destruct (includeUppercase o), (includeLowercase o), (includeNumbers o),
    (includeSpecialChars o); simpl; split; try done;
    intros Heq; repeat (apply app_eq_nil in Heq as [? Heq]); try done.
  all: try (apply app_eq_nil in Heq as [? ?]; done).
Qed.

(** *** The result of [generatePassword] *)

(** When [generatePassword] returns, its result is a rearrangement of the
    required characters followed by the fill drawn from [charset]. *)
Lemma generatePassword_ok o r pw r' :
  generatePassword o r = (Ok pw, r') →
  anyClass o = true ∧ requiredCount o ≤ opt_length o
  ∧ ∃ fill, length fill = Z.to_nat (opt_length o - requiredCount o)
            ∧ Forall (λ c, c ∈ charset (buildCharset o r)) fill
            ∧ pw ≡ₚ requiredChars (buildCharset o r) ++ fill.
Proof.
  unfold generatePassword. cbv zeta. rewrite requiredChars_length.
  case_bool_decide as Hcs; [done |].
  destruct (Z.ltb_spec (opt_length o - requiredCount o) 0) as [|Hrem]; [done |].
  destruct (draw_chars_spec (Z.to_nat (opt_length o - requiredCount o))
              (charset (buildCharset o r)) (requiredChars (buildCharset o r))
              (source (buildCharset o r)) Hcs) as (fill & Hfill & Hlen & Hall).
  destruct (draw_chars _ _ _ _) as [password r1]. simpl in Hfill. subst password.
  pose proof (shuffleString_perm (requiredChars (buildCharset o r) ++ fill) r1) as Hperm.
  destruct (shuffleString _ _) as [shuffled r2]. simpl in Hperm.
  intros [= <- <-]. split_and!.
  - rewrite charset_empty in Hcs. by destruct (anyClass o).
  - lia.
  - by exists fill.
Qed.

Lemma generatePassword_returns o r :
  anyClass o = true → requiredCount o ≤ opt_length o →
  ∃ pw r', generatePassword o r = (Ok pw, r').
Proof.
  intros Hany Hlen. unfold generatePassword. cbv zeta. rewrite requiredChars_length.
  case_bool_decide as Hcs.
  { rewrite charset_empty in Hcs. congruence. }
  destruct (Z.ltb_spec (opt_length o - requiredCount o) 0); [lia |].
  destruct (draw_chars _ _ _ _) as [password r1].
  destruct (shuffleString _ _) as [shuffled r2]. eauto.
Qed.

Lemma generatePassword_throws o r :
  anyClass o = false ∨ opt_length o < requiredCount o →
  (generatePassword o r).1 = Throw (if anyClass o then tooShort else noCharType).
Proof.
  intros Hbad. unfold generatePassword. cbv zeta. rewrite requiredChars_length.
  case_bool_decide as Hcs.
  { rewrite charset_empty in Hcs. by rewrite Hcs. }
  assert (anyClass o = true) as Hany.
  { rewrite charset_empty in Hcs. by destruct (anyClass o). }
  rewrite Hany. destruct Hbad as [|Hshort]; [congruence |].
  destruct (Z.ltb_spec (opt_length o - requiredCount o) 0); [done | lia].
Qed.

Lemma count_in_app cls s1 s2 :
  count_in cls (s1 ++ s2) = (count_in cls s1 + count_in cls s2)%nat.
Proof. unfold count_in. by rewrite List.filter_app, length_app. Qed.

Lemma count_in_perm cls s1 s2 : s1 ≡ₚ s2 → count_in cls s1 = count_in cls s2.
Proof.
  unfold count_in. induction 1 as [|x l l' _ IH|x y l|l l' l'' _ IH1 _ IH2]; simpl.
  - done.
  - destruct (mem x cls); simpl; lia.
  - destruct (mem x cls), (mem y cls); simpl; lia.
  - lia.
Qed.

Lemma count_in_all cls s :
  Forall (λ c, mem c cls = true) s → count_in cls s = length s.
Proof.
  unfold count_in. induction 1 as [|c s Hc _ IH]; simpl; [done |].
  rewrite Hc. simpl. lia.
Qed.

Lemma count_in_none cls s :
  Forall (λ c, mem c cls = false) s → count_in cls s = 0%nat.
Proof.
  unfold count_in. induction 1 as [|c s Hc _ IH]; simpl; [done |]. by rewrite Hc.
Qed.

Lemma mem_true c s : mem c s = true ↔ c ∈ s.
Proof.
  unfold mem. rewrite existsb_exists. split.
  - intros (x & Hx & Heq). apply N.eqb_eq in Heq as ->. by apply list_elem_of_In.
  - intros Hc. exists c. split; [by apply list_elem_of_In | apply N.eqb_refl].
Qed.

(** Every member of [str] satisfies the test [p] when [forallb] says so. *)
Lemma Forall_of_forallb (p : N → bool) (str drawn : jsstring) :
  forallb p str = true → Forall (λ c, c ∈ str) drawn → Forall (λ c, p c = true) drawn.
Proof.
  rewrite forallb_forall. intros Hp. apply List.Forall_impl. intros c Hc.
  by apply Hp, list_elem_of_In.
Qed.

Ltac by_alphabet o :=
  unfold upperChars, lowerChars, numberChars, specialChars;
  destruct (excludeSimilar o), (excludeAmbiguous o); vm_compute; reflexivity.

Lemma part_all (p : N → bool) enabled n str drawn :
  forallb p str = true → part enabled n str drawn → Forall (λ c, p c = true) drawn.
Proof.
  intros Hp. unfold part. destruct enabled.
  - intros [_ Hall]. by eapply Forall_of_forallb.
  - intros ->. constructor.
Qed.

Definition setNumberCount (c : option Z) (o : PasswordOptions) : PasswordOptions :=
  {| opt_length := opt_length o;
     includeUppercase := includeUppercase o; includeLowercase := includeLowercase o;
     includeNumbers := includeNumbers o; includeSpecialChars := includeSpecialChars o;
     numberCount := c; specialCharCount := specialCharCount o;
     excludeSimilar := excludeSimilar o; excludeAmbiguous := excludeAmbiguous o |}.

Definition setSpecialCharCount (c : option Z) (o : PasswordOptions) : PasswordOptions :=
  {| opt_length := opt_length o;
     includeUppercase := includeUppercase o; includeLowercase := includeLowercase o;
     includeNumbers := includeNumbers o; includeSpecialChars := includeSpecialChars o;
     numberCount := numberCount o; specialCharCount := c;
     excludeSimilar := excludeSimilar o; excludeAmbiguous := excludeAmbiguous o |}.

(** Options that enable one class only. *)
Definition only_lowercase (len : Z) (similar : bool) : PasswordOptions :=
  {| opt_length := len;
     includeUppercase := false; includeLowercase := true;
     includeNumbers := false; includeSpecialChars := false;
     numberCount := None; specialCharCount := None;
     excludeSimilar := similar; excludeAmbiguous := false |}.

Definition only_uppercase (len : Z) (similar : bool) : PasswordOptions :=
  {| opt_length := len;
     includeUppercase := true; includeLowercase := false;
     includeNumbers := false; includeSpecialChars := false;
     numberCount := None; specialCharCount := None;
     excludeSimilar := similar; excludeAmbiguous := false |}.

Definition no_class (len : Z) : PasswordOptions :=
  {| opt_length := len;
     includeUppercase := false; includeLowercase := false;
     includeNumbers := false; includeSpecialChars := false;
     numberCount := Some 2; specialCharCount := Some 2;
     excludeSimilar := false; excludeAmbiguous := false |}.

(** C4. Whenever [generatePassword] returns a password, its length is
    [options.length]; it throws when the required characters outnumber the
    requested length (the error "Password length is too short ...", or "At
    least one character type ..." when no class is enabled at all), and it
    throws "At least one character type must be selected" when no class is
    enabled. *)
Theorem generatePassword_length (o : PasswordOptions) (r : rng) :
  (∀ pw r', generatePassword o r = (Ok pw, r') → Z.of_nat (length pw) = opt_length o)
  ∧ (opt_length o < requiredCount o →
     (generatePassword o r).1 = Throw (if anyClass o then tooShort else noCharType))
  ∧ (anyClass o = false → (generatePassword o r).1 = Throw noCharType).
Proof.
  split_and!.
  - intros pw r' Hgen.
    destruct (generatePassword_ok _ _ _ _ Hgen) as (_ & Hle & fill & Hlen & _ & Hperm).
    rewrite Hperm, length_app, Hlen, Nat2Z.inj_add, requiredChars_length. lia.
  - intros Hshort. apply generatePassword_throws. by right.
  - intros Hnone. rewrite generatePassword_throws by (by left). by rewrite Hnone.
Qed.

Lemma generatePassword_length_witness :
  Z.of_nat (length (js "b5OHNKPR^QMJG%4A")) = 16
  ∧ (generatePassword (setNumberCount (Some 20) DEFAULT_PASSWORD_OPTIONS) counting).1
    = Throw tooShort
  ∧ (generatePassword (no_class 16) counting).1 = Throw noCharType.
Proof.
  split_and!.
  - apply (proj1 (generatePassword_length DEFAULT_PASSWORD_OPTIONS counting)
             (js "b5OHNKPR^QMJG%4A") (shuffleString (js "Ab45%^GHJKMNOPQR")
                {| tape := N.of_nat; pos := 16 |}).2).
    vm_compute. reflexivity.
  - apply (proj1 (proj2 (generatePassword_length
             (setNumberCount (Some 20) DEFAULT_PASSWORD_OPTIONS) counting))).
    vm_compute. reflexivity.
  - apply (proj2 (proj2 (generatePassword_length (no_class 16) counting))).
    reflexivity.
Defined.



Lemma part_in cls enabled n str drawn :
  forallb (λ c, mem c cls) str = true → part enabled n str drawn →
  Forall (λ c, mem c cls = true) drawn.
Proof. apply part_all. Qed.

Lemma part_out cls enabled n str drawn :
  forallb (λ c, negb (mem c cls)) str = true → part enabled n str drawn →
  Forall (λ c, mem c cls = false) drawn.
Proof.
  intros Hp Hpart. pose proof (part_all _ _ _ _ _ Hp Hpart) as Hall.
  eapply List.Forall_impl; [| exact Hall]. intros c Hc. by apply negb_true_iff.
Qed.

(** The required characters, counted by class. *)
Lemma requiredChars_counts o r :
  let req := requiredChars (buildCharset o r) in
  count_in UPPERCASE req = (if includeUppercase o then 1 else 0)%nat
  ∧ count_in LOWERCASE req = (if includeLowercase o then 1 else 0)%nat
  ∧ count_in NUMBERS req
    = (if includeNumbers o then Z.to_nat (or_one (numberCount o)) else 0)%nat
  ∧ count_in SPECIAL_CHARS req
    = (if includeSpecialChars o then Z.to_nat (or_one (specialCharCount o)) else 0)%nat.
Proof.
  destruct (buildCharset_spec o r) as (U & L & D & S & Hreq & PU & PL & PD & PS & _).
  cbv zeta. rewrite Hreq, !count_in_app.
  pose proof (part_length _ _ _ _ PU) as HU. pose proof (part_length _ _ _ _ PL) as HL.
  pose proof (part_length _ _ _ _ PD) as HD. pose proof (part_length _ _ _ _ PS) as HS.
  split_and!.
  - rewrite (count_in_all UPPERCASE U), (count_in_none UPPERCASE L),
      (count_in_none UPPERCASE D), (count_in_none UPPERCASE S); [lia | ..].
    + eapply part_out, PS. by_alphabet o.
    + eapply part_out, PD. by_alphabet o.
    + eapply part_out, PL. by_alphabet o.
    + eapply part_in, PU. by_alphabet o.
  - rewrite (count_in_none LOWERCASE U), (count_in_all LOWERCASE L),
      (count_in_none LOWERCASE D), (count_in_none LOWERCASE S); [lia | ..].
    + eapply part_out, PS. by_alphabet o.
    + eapply part_out, PD. by_alphabet o.
    + eapply part_in, PL. by_alphabet o.
    + eapply part_out, PU. by_alphabet o.
  - rewrite (count_in_none NUMBERS U), (count_in_none NUMBERS L),
      (count_in_all NUMBERS D), (count_in_none NUMBERS S); [lia | ..].
    + eapply part_out, PS. by_alphabet o.
    + eapply part_in, PD. by_alphabet o.
    + eapply part_out, PL. by_alphabet o.
    + eapply part_out, PU. by_alphabet o.
  - rewrite (count_in_none SPECIAL_CHARS U), (count_in_none SPECIAL_CHARS L),
      (count_in_none SPECIAL_CHARS D), (count_in_all SPECIAL_CHARS S); [lia | ..].
    + eapply part_in, PS. by_alphabet o.
    + eapply part_out, PD. by_alphabet o.
    + eapply part_out, PL. by_alphabet o.
    + eapply part_out, PU. by_alphabet o.
Qed.

(** The fill can only add members of a class. *)
Lemma generatePassword_count cls o r pw r' :
  generatePassword o r = (Ok pw, r') →
  (count_in cls (requiredChars (buildCharset o r)) ≤ count_in cls pw)%nat.
Proof.
  intros Hgen.
  destruct (generatePassword_ok _ _ _ _ Hgen) as (_ & _ & fill & _ & _ & Hperm).
  rewrite (count_in_perm cls _ _ Hperm), count_in_app. lia.
Qed.

(** C8. A password that [generatePassword] returns contains at least
    [numberCount] digits when digits are enabled with a count of at least 1,
    at least [specialCharCount] special characters likewise, and at least one
    character of each of the other enabled classes (upper case, lower
    case). *)
Theorem generatePassword_class_satisfaction (o : PasswordOptions) (r : rng)
    (pw : jsstring) (r' : rng) :
  generatePassword o r = (Ok pw, r') →
  (∀ n, includeNumbers o = true → numberCount o = Some n → 1 ≤ n →
        n ≤ Z.of_nat (count_in NUMBERS pw))
  ∧ (∀ n, includeSpecialChars o = true → specialCharCount o = Some n → 1 ≤ n →
          n ≤ Z.of_nat (count_in SPECIAL_CHARS pw))
  ∧ (includeUppercase o = true → 1 ≤ Z.of_nat (count_in UPPERCASE pw))
  ∧ (includeLowercase o = true → 1 ≤ Z.of_nat (count_in LOWERCASE pw)).
Proof.
  intros Hgen.
  destruct (requiredChars_counts o r) as (HU & HL & HD & HS).
  pose proof (generatePassword_count UPPERCASE _ _ _ _ Hgen).
  pose proof (generatePassword_count LOWERCASE _ _ _ _ Hgen).
  pose proof (generatePassword_count NUMBERS _ _ _ _ Hgen).
  pose proof (generatePassword_count SPECIAL_CHARS _ _ _ _ Hgen).
  split_and!.
  - intros n Hinc Hn Hpos. rewrite Hinc, Hn in HD. simpl in HD.
    destruct (Z.eqb_spec n 0); lia.
  - intros n Hinc Hn Hpos. rewrite Hinc, Hn in HS. simpl in HS.
    destruct (Z.eqb_spec n 0); lia.
  - intros Hinc. rewrite Hinc in HU. lia.
  - intros Hinc. rewrite Hinc in HL. lia.
Qed.

Lemma generatePassword_class_satisfaction_witness :
  2 ≤ Z.of_nat (count_in NUMBERS (js "b5OHNKPR^QMJG%4A"))
  ∧ 2 ≤ Z.of_nat (count_in SPECIAL_CHARS (js "b5OHNKPR^QMJG%4A"))
  ∧ 1 ≤ Z.of_nat (count_in UPPERCASE (js "b5OHNKPR^QMJG%4A"))
  ∧ 1 ≤ Z.of_nat (count_in LOWERCASE (js "b5OHNKPR^QMJG%4A")).
Proof.
  pose proof (generatePassword_class_satisfaction DEFAULT_PASSWORD_OPTIONS counting
                (js "b5OHNKPR^QMJG%4A") (shuffleString (js "Ab45%^GHJKMNOPQR")
                   {| tape := N.of_nat; pos := 16 |}).2
                ltac:(vm_compute; reflexivity)) as (HD & HS & HU & HL).
  split_and!.
  - apply (HD 2); [reflexivity | reflexivity | lia].
  - apply (HS 2); [reflexivity | reflexivity | lia].
  - apply HU. reflexivity.
  - apply HL. reflexivity.
Defined.

(** [generatePassword] reads the two counts through [|| 1] only. *)
Lemma generatePassword_numberCount c o r :
  or_one c = or_one (numberCount o) →
  generatePassword (setNumberCount c o) r = generatePassword o r.
Proof.
  intros Hc.
  unfold generatePassword, buildCharset, addSpecialChars, addNumbers, addLowercase,
    addUppercase, upperChars, lowerChars, numberChars, specialChars, setNumberCount.
  cbn [opt_length includeUppercase includeLowercase includeNumbers includeSpecialChars
       numberCount specialCharCount excludeSimilar excludeAmbiguous].
  by rewrite Hc.
Qed.

Lemma generatePassword_specialCharCount c o r :
  or_one c = or_one (specialCharCount o) →
  generatePassword (setSpecialCharCount c o) r = generatePassword o r.
Proof.
  intros Hc.
  unfold generatePassword, buildCharset, addSpecialChars, addNumbers, addLowercase,
    addUppercase, upperChars, lowerChars, numberChars, specialChars, setSpecialCharCount.
  cbn [opt_length includeUppercase includeLowercase includeNumbers includeSpecialChars
       numberCount specialCharCount excludeSimilar excludeAmbiguous].
  by rewrite Hc.
Qed.

(** C9. With digits enabled and [numberCount] 0 or absent, [requiredChars]
    holds exactly one digit, every returned password holds at least one, and
    the call is the call with [numberCount] 1; the same for
    [specialCharCount] and the special characters. *)
Theorem zero_count_means_one (o : PasswordOptions) (r : rng) :
  (includeNumbers o = true → numberCount o = None ∨ numberCount o = Some 0 →
     count_in NUMBERS (requiredChars (buildCharset o r)) = 1%nat
     ∧ (∀ pw r', generatePassword o r = (Ok pw, r') → (1 ≤ count_in NUMBERS pw)%nat)
     ∧ generatePassword o r = generatePassword (setNumberCount (Some 1) o) r)
  ∧ (includeSpecialChars o = true →
     specialCharCount o = None ∨ specialCharCount o = Some 0 →
     count_in SPECIAL_CHARS (requiredChars (buildCharset o r)) = 1%nat
     ∧ (∀ pw r', generatePassword o r = (Ok pw, r') →
          (1 ≤ count_in SPECIAL_CHARS pw)%nat)
     ∧ generatePassword o r = generatePassword (setSpecialCharCount (Some 1) o) r).
Proof.
  destruct (requiredChars_counts o r) as (_ & _ & HD & HS).
  split.
  - intros Hinc Hcount. rewrite Hinc in HD.
    assert (or_one (numberCount o) = 1) as Hone by (by destruct Hcount as [-> | ->]).
    rewrite Hone in HD. change (Z.to_nat 1) with 1%nat in HD. split_and!.
    + done.
    + intros pw r' Hgen. rewrite <- HD. by eapply generatePassword_count.
    + symmetry. apply generatePassword_numberCount. by rewrite Hone.
  - intros Hinc Hcount. rewrite Hinc in HS.
    assert (or_one (specialCharCount o) = 1) as Hone by (by destruct Hcount as [-> | ->]).
    rewrite Hone in HS. change (Z.to_nat 1) with 1%nat in HS. split_and!.
    + done.
    + intros pw r' Hgen. rewrite <- HS. by eapply generatePassword_count.
    + symmetry. apply generatePassword_specialCharCount. by rewrite Hone.
Qed.

Lemma zero_count_means_one_witness :
  count_in NUMBERS
    (requiredChars (buildCharset (setNumberCount (Some 0) DEFAULT_PASSWORD_OPTIONS)
                      counting)) = 1%nat
  ∧ count_in SPECIAL_CHARS
      (requiredChars (buildCharset (setSpecialCharCount None DEFAULT_PASSWORD_OPTIONS)
                        counting)) = 1%nat.
Proof.
  split.
  - apply (proj1 (zero_count_means_one
             (setNumberCount (Some 0) DEFAULT_PASSWORD_OPTIONS) counting));
      [reflexivity | right; reflexivity].
  - apply (proj2 (zero_count_means_one
             (setSpecialCharCount None DEFAULT_PASSWORD_OPTIONS) counting));
      [reflexivity | left; reflexivity].
Defined.

(** *** Characters left out by [excludeSimilar] *)

(** X1. With [excludeSimilar], a password that [generatePassword] returns
    contains none of [I], [L], [i], [l], [1] and [0]: these are the
    characters that the filters remove from the alphabets. *)
Lemma excludeSimilar_removed o r pw r' :
  excludeSimilar o = true → generatePassword o r = (Ok pw, r') →
  Forall (λ c, mem c (js "ILil10") = false) pw.
Proof.
  intros Hsim Hgen.
  destruct (generatePassword_ok _ _ _ _ Hgen) as (_ & _ & fill & _ & Hall & Hperm).
  destruct (buildCharset_spec o r) as (U & L & D & S & Hreq & PU & PL & PD & PS & Hcs).
  rewrite Hperm, Hreq, !Forall_app. split_and!.
  - eapply part_out, PU. unfold upperChars. rewrite Hsim. vm_compute. reflexivity.
  - eapply part_out, PL. unfold lowerChars. rewrite Hsim. vm_compute. reflexivity.
  - eapply part_out, PD. unfold numberChars. rewrite Hsim. vm_compute. reflexivity.
  - eapply part_out, PS. by_alphabet o.
  - assert (forallb (λ c, negb (mem c (js "ILil10"))) (charset (buildCharset o r)) = true)
      as Hcharset.
    { rewrite Hcs. unfold enabled_chars, upperChars, lowerChars, numberChars, specialChars.
      rewrite Hsim.
      destruct (includeUppercase o), (includeLowercase o), (includeNumbers o),
        (includeSpecialChars o), (excludeAmbiguous o); vm_compute; reflexivity. }
    pose proof (Forall_of_forallb _ _ _ Hcharset Hall) as Hfill.
    eapply List.Forall_impl; [| exact Hfill]. intros c Hc. by apply negb_true_iff.
Qed.

Lemma excludeSimilar_removed_witness :
  Forall (λ c, mem c (js "ILil10") = false) (js "b5OHNKPR^QMJG%4A").
Proof.
  apply (excludeSimilar_removed DEFAULT_PASSWORD_OPTIONS counting
           (js "b5OHNKPR^QMJG%4A") (shuffleString (js "Ab45%^GHJKMNOPQR")
              {| tape := N.of_nat; pos := 16 |}).2);
    [reflexivity | vm_compute; reflexivity].
Defined.

(** C5. With [excludeSimilar] set, lower-case letters only and length 1, a
    random byte 12 selects the letter [o]: the alphabet is
    [abcdefghjkmnopqrstuvwxyz], from which only [i] and [l] were removed.
    Upper-case letters only give [O] in the same way. *)
Theorem excludeSimilar_keeps_o :
  (generatePassword (only_lowercase 1 true) (constant 12)).1 = Ok (js "o")
  ∧ (generatePassword (only_uppercase 1 true) (constant 12)).1 = Ok (js "O")
  ∧ mem 111%N SIMILAR_CHARS = true ∧ mem 79%N SIMILAR_CHARS = true.
Proof. vm_compute. done. Qed.

(** ** The strength estimator *)

Section EstimatorProperties.

Variable log2 : Q → Q.

(** The label that the bands give a score. *)
Definition band (s : number) : string :=
  if num_lt s (Num 30) then "Weak"
  else if num_lt s (Num 60) then "Fair"
  else if num_lt s (Num 80) then "Good"
  else "Strong".

Definition finite (x : number) : Prop := ∃ q, x = Num q.

Lemma finite_add a b : finite a → finite b → finite (num_add a b).
Proof. intros [p ->] [q ->]. by eexists. Qed.

Lemma finite_sub a b : finite a → finite b → finite (num_sub a b).
Proof. intros [p ->] [q ->]. by eexists. Qed.

Lemma finite_min a b : finite a → finite b → finite (Math_min a b).
Proof.
  intros [p ->] [q ->]. unfold Math_min, num_lt.
  destruct (negb (Qle_bool p q)); by eexists.
Qed.

Lemma finite_if (c : bool) a b : finite a → finite b → finite (if c then a else b).
Proof. by destruct c. Qed.

Lemma finite_Num q : finite (Num q).
Proof. by eexists. Qed.

Lemma set_size_pos (password : jsstring) : password ≠ [] → (0 < set_size password)%nat.
Proof.
  intros Hne. unfold set_size.
  assert (∃ c, c ∈ code_points password) as [c Hc].
  { destruct password as [|a [|b rest]]; [done | exists a; apply list_elem_of_here |].
    cbn [code_points]. destruct (_ && _); eexists; apply list_elem_of_here. }
  apply elem_of_remove_dups in Hc.
  destruct (remove_dups _); [by apply elem_of_nil in Hc | simpl; lia].
Qed.

Lemma finite_entropy (password : jsstring) :
  password ≠ [] →
  finite (num_mul (of_nat (length password)) (Math_log2 log2 (of_nat (set_size password)))).
Proof.
  intros Hne. pose proof (set_size_pos password Hne) as Hpos.
  unfold of_nat, Math_log2, Qsign.
  assert ((inject_Z (Z.of_nat (set_size password)) ?= 0)%Q = Gt) as ->.
  { apply Qgt_alt. unfold Qlt. simpl. lia. }
  by eexists.
Qed.

Lemma finite_raw_score (password : jsstring) : password ≠ [] → finite (raw_score log2 password).
Proof.
  intros Hne. unfold raw_score. cbv zeta.
  apply finite_add.
  - repeat first [ apply finite_if | apply finite_add | apply finite_sub
                 | apply finite_min | apply finite_Num ].
  - apply finite_min; [| apply finite_Num].
    destruct (finite_entropy password Hne) as [e ->]. by eexists.
Qed.

Lemma clamp_range (q : Q) :
  ∃ q', Math_max (Num 0) (Math_min (Num 100) (Num q)) = Num q' ∧ (0 <= q' <= 100)%Q.
Proof.
  unfold Math_min, num_lt.
  destruct (Qle_bool 100 q) eqn:H100; simpl.
  { exists 100%Q. split; [reflexivity |]. split; discriminate. }
  unfold Math_max, num_lt.
  assert (q <= 100)%Q as Hq.
  { apply Qlt_le_weak, Qnot_le_lt. intros Hle. apply Qle_bool_iff in Hle. congruence. }
  destruct (Qle_bool q 0) eqn:H0; simpl.
  - exists 0%Q. split; [reflexivity |]. split; discriminate.
  - exists q. split; [reflexivity |]. split; [| done].
    apply Qlt_le_weak, Qnot_le_lt. intros Hle. apply Qle_bool_iff in Hle. congruence.
Qed.

(** X2. On a non-empty password the score is a finite number between 0 and
    100, and the label is the one its band gives. *)
Lemma estimate_nonempty (password : jsstring) :
  password ≠ [] →
  ∃ q, score (estimatePasswordStrength log2 password) = Num q ∧ (0 <= q <= 100)%Q
       ∧ label (estimatePasswordStrength log2 password) = band (Num q).
Proof.
  intros Hne. destruct (finite_raw_score password Hne) as [s Hs].
  unfold estimatePasswordStrength. cbv zeta. rewrite Hs.
  destruct (clamp_range s) as (q & -> & Hq). exists q. unfold band.
  repeat (destruct (num_lt (Num q) _); [simpl; by split; [| split] |]).
  simpl. by split; [| split].
Qed.

(** On every password the label is the one the band of the score gives, a
    score that is [NaN] falling through to the last band. *)
Lemma estimate_label (password : jsstring) :
  label (estimatePasswordStrength log2 password)
  = band (score (estimatePasswordStrength log2 password)).
Proof.
  unfold estimatePasswordStrength, band. cbv zeta.
  set (s := Math_max _ _).
  destruct (num_lt s (Num 30)) eqn:H30; simpl; [by rewrite H30 |].
  destruct (num_lt s (Num 60)) eqn:H60; simpl; [by rewrite H30, H60 |].
  destruct (num_lt s (Num 80)) eqn:H80; simpl; by rewrite H30, H60, ?H80.
Qed.


(** The function itself, on the empty string that no caller passes: the
    score is [NaN] (no element of the set makes [Math.log2(0)] minus
    infinity, 0 times it is [NaN], and neither [Math.min] nor [Math.max]
    clamps [NaN]); no comparison with [NaN] holds, so the label is the
    last one. *)
Lemma estimate_empty_password :
  estimatePasswordStrength log2 []
  = {| score := NaN; label := "Strong"; color := "primary" |}.
Proof. reflexivity. Qed.

End EstimatorProperties.

Lemma estimate_nonempty_witness :
  ∃ q, score (estimatePasswordStrength (λ x, x) (js "aaaaaaaa")) = Num q
       ∧ (0 <= q <= 100)%Q
       ∧ label (estimatePasswordStrength (λ x, x) (js "aaaaaaaa")) = band (Num q).
Proof. apply (estimate_nonempty (λ x, x) (js "aaaaaaaa")). discriminate. Defined.

(** ** Integers as text *)

Definition digit_step (acc c : N) : N := (acc * 10 + (c - 48))%N.

Lemma parse_digits_app (ds rest : jsstring) (acc : N) (seen : bool) :
  Forall (λ c, is_digit c = true) ds →
  parse_digits (ds ++ rest) acc seen
  = parse_digits rest (fold_left digit_step ds acc) (if ds is [] then seen else true).
Proof.
  intros Hds. revert acc seen. induction Hds as [|c ds Hc _ IH]; intros acc seen; [done |].
  simpl. rewrite Hc, IH. by destruct ds.
Qed.

Lemma digits_fuel_S (fuel : nat) (n : N) (acc : jsstring) :
  digits_fuel (S fuel) n acc
  = if (n / 10 =? 0)%N then (48 + n mod 10)%N :: acc
    else digits_fuel fuel (n / 10) ((48 + n mod 10)%N :: acc).
Proof. reflexivity. Qed.

Lemma digits_fuel_spec (fuel : nat) (n : N) (acc : jsstring) :
  (n < 10 ^ N.of_nat (S fuel))%N →
  ∃ ds, digits_fuel (S fuel) n acc = ds ++ acc
        ∧ ds ≠ []
        ∧ Forall (λ c, is_digit c = true) ds
        ∧ fold_left digit_step ds 0%N = n.
Proof.
  revert n acc. induction fuel as [|fuel IH]; intros n acc Hn.
  - exists [(48 + n mod 10)%N]. cbn [digits_fuel].
    change (10 ^ N.of_nat 1)%N with 10%N in Hn.
    rewrite (N.div_small n 10) by done. rewrite (N.mod_small n 10) by done.
    simpl. split_and!; try done.
    + constructor; [| done]. unfold is_digit, in_range. apply andb_true_iff.
      split; apply N.leb_le; lia.
    + unfold digit_step. lia.
  - rewrite digits_fuel_S. destruct (N.eqb_spec (n / 10) 0) as [Hsmall|Hbig].
    + exists [(48 + n mod 10)%N].
      assert (n < 10)%N as Hlt by (apply N.div_small_iff in Hsmall; lia).
      rewrite (N.mod_small n 10) by done. split_and!; try done.
      * constructor; [| done]. unfold is_digit, in_range. apply andb_true_iff.
        split; apply N.leb_le; lia.
      * unfold digit_step. simpl. lia.
    + destruct (IH (n / 10)%N ((48 + n mod 10)%N :: acc)) as (ds & Hds & Hne & Hall & Hval).
      { rewrite Nat2N.inj_succ, N.pow_succ_r' in Hn.
        apply N.Div0.div_lt_upper_bound. exact Hn. }
      exists (ds ++ [(48 + n mod 10)%N]). split_and!.
      * rewrite Hds. by rewrite <- app_assoc.
      * by destruct ds.
      * apply Forall_app. split; [done |]. constructor; [| done].
        pose proof (N.mod_lt n 10 ltac:(lia)) as Hmod. unfold is_digit, in_range.
        apply andb_true_iff.
        revert Hmod. generalize (n mod 10)%N. intros x Hx.
        split; apply N.leb_le; lia.
      * rewrite fold_left_app. simpl. rewrite Hval. unfold digit_step.
        pose proof (N.div_mod' n 10) as Hdm. revert Hdm.
        generalize (n / 10)%N (n mod 10)%N. intros q r Hdm. lia.
Qed.

Lemma decimal_spec (n : N) :
  ∃ ds, decimal n = ds ∧ ds ≠ [] ∧ Forall (λ c, is_digit c = true) ds
        ∧ fold_left digit_step ds 0%N = n.
Proof.
  destruct (digits_fuel_spec (N.to_nat (N.log2 n)) n []) as (ds & Hds & Hne & Hall & Hval).
  - rewrite Nat2N.inj_succ, N2Nat.id.
    destruct (N.eq_dec n 0%N) as [->|Hpos]; [done |].
    pose proof (N.log2_spec n) as Hlog.
    assert (2 ^ N.succ (N.log2 n) ≤ 10 ^ N.succ (N.log2 n))%N
      by (apply N.pow_le_mono_l; lia).
    lia.
  - exists ds. rewrite app_nil_r in Hds. done.
Qed.

(** ** What is assumed of the libraries *)

(** Decrypting with the key and the configuration of the encryption, in
    the mode and with the padding that the code uses, gives the message
    back. *)
Definition cipher_round_trip (lib : CryptoJS) : Prop :=
  ∀ message key iv r encrypted r',
    let cfg := {| cfg_iv := iv; cfg_mode := CBC; cfg_padding := Pkcs7 |} in
    AES_encrypt lib message key cfg r = (Ok encrypted, r') →
    ∃ decrypted,
      AES_decrypt lib (CipherParams_toString lib encrypted) key cfg = Ok decrypted
      ∧ Utf8_stringify lib decrypted = Ok message.

(** No bytes decode to the empty string. *)
Definition utf8_empty (lib : CryptoJS) : Prop := Utf8_stringify lib [] = Ok [].

(** Encrypting only draws from the random source: the tape is kept and the
    cursor does not move back. *)
Definition cipher_draws (lib : CryptoJS) : Prop :=
  ∀ message key cfg r,
    tape (AES_encrypt lib message key cfg r).2 = tape r
    ∧ (pos r ≤ pos (AES_encrypt lib message key cfg r).2)%nat.

(** The library turns a string into the bytes of its UTF-8 encoding: the
    key derivation returns a key exactly when password and salt have one,
    and the cipher encrypts every message that has one under every key that
    has one. *)
Definition utf8_domain (lib : CryptoJS) : Prop :=
  (∀ P s keySize iterations,
     (∃ key, PBKDF2 lib P s keySize iterations = Ok key)
     ↔ well_formed P = true ∧ well_formed s = true)
  ∧ (∀ message key cfg r,
       well_formed message = true → well_formed key = true →
       ∃ encrypted, (AES_encrypt lib message key cfg r).1 = Ok encrypted).

(** [JSON.parse] reads back what [JSON.stringify] writes for a vault and
    for an envelope, and a JSON text is not the empty string. *)
Definition json_round_trip (json : JSON) : Prop :=
  (∀ v, JSON_parse json (JSON_stringify json (value_of_vault v)) = Ok (value_of_vault v))
  ∧ (∀ e, JSON_parse json (JSON_stringify json (value_of_envelope e))
          = Ok (value_of_envelope e))
  ∧ (∀ j, JSON_stringify json j ≠ []).

(** [JSON.stringify] escapes a surrogate outside a pair, so that its text
    has a UTF-8 encoding. *)
Definition json_well_formed (json : JSON) : Prop :=
  ∀ j, well_formed (JSON_stringify json j) = true.

(** A key that [PBKDF2] returns has [keySize] words of four bytes. *)
Definition key_sized (lib : CryptoJS) : Prop :=
  ∀ P s keySize iterations key,
    PBKDF2 lib P s keySize iterations = Ok key →
    length key = Z.to_nat (4 * keySize) ∧ Forall (λ b, (b < 256)%N) key.

(** ** Texts in hexadecimal and in decimal *)

Lemma well_formed_below (s : jsstring) :
  Forall (λ c, (c < 55296)%N) s → well_formed s = true.
Proof.
  induction 1 as [|c s Hc _ IH]; [done |]. cbn [well_formed].
  unfold is_high_surrogate, is_low_surrogate, in_range.
  rewrite (proj2 (N.leb_gt 55296 c)) by done. rewrite (proj2 (N.leb_gt 56320 c)) by lia.
  simpl. exact IH.
Qed.

Lemma hex_digit_below (d : N) : (hex_digit d < 128)%N.
Proof.
  unfold hex_digit.
  destruct (nth_in_or_default (N.to_nat d) (js "0123456789abcdef") 0%N) as [Hin| ->];
    [| lia].
  revert Hin. generalize (nth (N.to_nat d) (js "0123456789abcdef") 0%N). intros c Hin.
  simpl in Hin. repeat (destruct Hin as [<-|Hin]; [lia |]). done.
Qed.

Lemma Hex_stringify_well_formed (w : WordArray) : well_formed (Hex_stringify w) = true.
Proof.
  apply well_formed_below. induction w as [|b w IH]; simpl; [constructor |].
  pose proof (hex_digit_below (b / 16)). pose proof (hex_digit_below (b mod 16)).
  repeat constructor; [lia | lia | exact IH].
Qed.

Lemma decimal_well_formed (n : N) : well_formed (decimal n) = true.
Proof.
  destruct (decimal_spec n) as (ds & -> & _ & Hall & _).
  apply well_formed_below. eapply List.Forall_impl; [| exact Hall].
  intros c Hc. unfold is_digit, in_range in Hc.
  apply andb_true_iff in Hc as [_ Hc]. apply N.leb_le in Hc. lia.
Qed.

Lemma decimal_inj (n1 n2 : N) : decimal n1 = decimal n2 → n1 = n2.
Proof.
  intros Heq.
  destruct (decimal_spec n1) as (ds1 & H1 & _ & _ & <-).
  destruct (decimal_spec n2) as (ds2 & H2 & _ & _ & <-).
  congruence.
Qed.

Lemma sentinel_well_formed : well_formed MASTER_PASSWORD_VALIDATION = true.
Proof. reflexivity. Qed.

(** ** Sealing and opening *)

Section Sealing.

Variable lib : CryptoJS.
Variable json : JSON.

Lemma generateSalt_well_formed r : well_formed (generateSalt r).1 = true.
Proof.
  unfold generateSalt. destruct (WordArray_random _ r) as [w r'].
  apply Hex_stringify_well_formed.
Qed.

(** A derived key is a text in hexadecimal. *)
Lemma deriveKey_well_formed P s key : deriveKey lib P s = Ok key → well_formed key = true.
Proof.
  unfold deriveKey. destruct (PBKDF2 lib P s _ _) as [w|e]; [| done].
  intros [= <-]. apply Hex_stringify_well_formed.
Qed.

(** The key derivation returns a key exactly on the passwords that have a
    UTF-8 encoding. *)
Lemma deriveKey_returns P s :
  utf8_domain lib → well_formed P = true → well_formed s = true →
  ∃ key, deriveKey lib P s = Ok key.
Proof.
  intros [Hkey _] HP Hs. unfold deriveKey.
  destruct (proj2 (Hkey P s (256 / 32) 100000) (conj HP Hs)) as [w ->]. by eexists.
Qed.

Lemma deriveKey_throws P s :
  utf8_domain lib → well_formed P = false → ∃ e, deriveKey lib P s = Throw e.
Proof.
  intros [Hkey _] HP. unfold deriveKey.
  destruct (PBKDF2 lib P s (256 / 32) 100000) as [w|e] eqn:Hw; [| by eexists].
  destruct (proj1 (Hkey P s (256 / 32) 100000)) as [HP' _]; [by eexists | congruence].
Qed.

Lemma encryptData_salt_iv message masterPassword r e r' :
  encryptData lib message masterPassword r = (Ok e, r') →
  salt e = (generateSalt r).1 ∧ iv e = (generateIV (generateSalt r).2).1.
Proof.
  unfold encryptData. destruct (generateSalt r) as [s r1]. simpl.
  destruct (generateIV r1) as [i r2]. destruct (deriveKey _ _ _) as [key|]; [| done].
  destruct (AES_encrypt _ _ _ _ _) as [[enc|] r3]; [| done]. by intros [= <- <-].
Qed.

(** [encryptData] returns an envelope for every message and password that
    have a UTF-8 encoding, *)
Lemma encryptData_returns message masterPassword r :
  utf8_domain lib → well_formed message = true → well_formed masterPassword = true →
  ∃ e r', encryptData lib message masterPassword r = (Ok e, r').
Proof.
  intros Hutf8 Hm HP. unfold encryptData.
  pose proof (generateSalt_well_formed r) as Hs.
  destruct (generateSalt r) as [s r1]. simpl in Hs.
  destruct (generateIV r1) as [i r2].
  destruct (deriveKey_returns masterPassword s Hutf8 HP Hs) as [key Hkey]. rewrite Hkey.
  destruct Hutf8 as [_ Hcipher].
  destruct (Hcipher message key
              {| cfg_iv := Hex_parse lib i; cfg_mode := CBC; cfg_padding := Pkcs7 |} r2 Hm
              (deriveKey_well_formed _ _ _ Hkey)) as [enc Henc].
  destruct (AES_encrypt _ _ _ _ _) as [[enc'|] r3]; [by eexists _, _ | done].
Qed.

(** and throws, after the draws of salt and IV, on a password that has
    none. *)
Lemma encryptData_throws message masterPassword r :
  utf8_domain lib → well_formed masterPassword = false →
  ∃ e, encryptData lib message masterPassword r
       = (Throw e, (generateIV (generateSalt r).2).2).
Proof.
  intros Hutf8 HP. unfold encryptData.
  destruct (generateSalt r) as [s r1]. simpl. destruct (generateIV r1) as [i r2]. simpl.
  destruct (deriveKey_throws masterPassword s Hutf8 HP) as [e ->]. by eexists.
Qed.

Lemma decrypt_encrypt message masterPassword r e r' :
  cipher_round_trip lib →
  encryptData lib message masterPassword r = (Ok e, r') →
  decryptData lib e masterPassword = Ok message.
Proof.
  intros Hcipher. unfold encryptData, decryptData.
  destruct (generateSalt r) as [s r1]. destruct (generateIV r1) as [i r2].
  destruct (deriveKey lib masterPassword s) as [key|] eqn:Hkey; [| done].
  destruct (AES_encrypt _ _ _ _ _) as [[enc|] r3] eqn:Henc; [| done].
  intros [= <- <-]. cbn [salt data iv]. rewrite Hkey.
  destruct (Hcipher _ _ _ _ _ _ Henc) as (decrypted & -> & Htext). exact Htext.
Qed.

(** Decryption depends on the password through the derived key only. *)
Lemma decryptData_same_key e P1 P2 :
  deriveKey lib P2 (salt e) = deriveKey lib P1 (salt e) →
  decryptData lib e P2 = decryptData lib e P1.
Proof. intros Hkey. unfold decryptData. by rewrite Hkey. Qed.

Lemma as_EncryptedData_envelope e : as_EncryptedData (value_of_envelope e) = Ok e.
Proof. by destruct e. Qed.

(** The world after [storeVaultData]: the random source is the one
    [encryptData] left, and the envelope, when there is one, is under
    [VAULT_DATA]. *)
Definition stored (vault : VaultData) (masterPassword : jsstring) (w : world) : world :=
  let sealed :=
    encryptData lib (JSON_stringify json (value_of_vault vault)) masterPassword (random w) in
  {| prefs := match sealed.1 with
              | Ok e => <[VAULT_DATA := JSON_stringify json (value_of_envelope e)]> (prefs w)
              | Throw _ => prefs w
              end;
     random := sealed.2 |}.

(** [storeVaultData] returns when [encryptData] does, and throws its one
    error otherwise. *)
Lemma storeVaultData_stored vault masterPassword w :
  storeVaultData lib json vault masterPassword w
  = (match (encryptData lib (JSON_stringify json (value_of_vault vault)) masterPassword
              (random w)).1 with
     | Ok _ => Ok ()
     | Throw _ => Throw saveFailed
     end, stored vault masterPassword w).
Proof.
  unfold storeVaultData, stored, try_catch, bind, with_random, Preferences_set, throw.
  cbv zeta. by destruct (encryptData _ _ _ _) as [[e|] r].
Qed.

Lemma stored_lookup vault masterPassword w e r :
  encryptData lib (JSON_stringify json (value_of_vault vault)) masterPassword (random w)
  = (Ok e, r) →
  prefs (stored vault masterPassword w) !! VAULT_DATA
  = Some (JSON_stringify json (value_of_envelope e)).
Proof. intros Hseal. unfold stored. rewrite Hseal. cbn [fst prefs]. apply lookup_insert_eq. Qed.

(** Opening under the password [P2] a world whose vault key holds the
    envelope [e]: decryption of the envelope, then [JSON.parse]; whatever
    fails, the error is [decryptFailed]. *)
Lemma getVaultData_envelope e P2 w :
  json_round_trip json →
  prefs w !! VAULT_DATA = Some (JSON_stringify json (value_of_envelope e)) →
  getVaultData lib json P2 w
  = match decryptData lib e P2 with
    | Ok text =>
        match JSON_parse json text with
        | Ok v => (Ok (Some v), w)
        | Throw _ => (Throw decryptFailed, w)
        end
    | Throw _ => (Throw decryptFailed, w)
    end.
Proof.
  intros (_ & Henv & Hne) Hkey.
  unfold getVaultData, try_catch, bind, Preferences_get, lift, ret, throw.
  rewrite Hkey.
  destruct (JSON_stringify json (value_of_envelope e)) as [|c text] eqn:Htext.
  { by apply Hne in Htext. }
  rewrite <- Htext, Henv, as_EncryptedData_envelope.
  destruct (decryptData lib e P2) as [plain|]; [| reflexivity].
  destruct (JSON_parse json plain); reflexivity.
Qed.

(** Every failure of [getVaultData] is the same error. *)
Lemma getVaultData_error masterPassword w e w' :
  getVaultData lib json masterPassword w = (Throw e, w') → e = decryptFailed.
Proof.
  unfold getVaultData, try_catch, throw.
  destruct (bind _ _ w) as [[v|e'] w'']; congruence.
Qed.

(** Sealing a vault under a password that has a UTF-8 encoding returns an
    envelope. *)
Lemma vault_sealed vault masterPassword r :
  utf8_domain lib → json_well_formed json → well_formed masterPassword = true →
  ∃ e r', encryptData lib (JSON_stringify json (value_of_vault vault)) masterPassword r
          = (Ok e, r').
Proof. intros Hutf8 Hjson HP. by apply encryptData_returns. Qed.

(** What was stored under a password is read back under it. *)
Lemma getVaultData_same_password vault P w :
  cipher_round_trip lib → utf8_domain lib → json_round_trip json → json_well_formed json →
  well_formed P = true →
  storeVaultData lib json vault P w = (Ok (), stored vault P w)
  ∧ getVaultData lib json P (stored vault P w)
    = (Ok (Some (value_of_vault vault)), stored vault P w).
Proof.
  intros Hcipher Hutf8 Hjson Hwf HP.
  destruct (vault_sealed vault P (random w) Hutf8 Hwf HP) as (e & r' & Hseal).
  split.
  - rewrite storeVaultData_stored, Hseal. reflexivity.
  - rewrite (getVaultData_envelope e) by (by try apply stored_lookup with r').
    rewrite (decrypt_encrypt _ _ _ _ _ Hcipher Hseal).
    destruct Hjson as (Hvault & _). rewrite Hvault. reflexivity.
Qed.

(** Under a password that has no UTF-8 encoding nothing is stored. *)
Lemma storeVaultData_throws vault P w :
  utf8_domain lib → well_formed P = false →
  storeVaultData lib json vault P w = (Throw saveFailed, stored vault P w)
  ∧ prefs (stored vault P w) = prefs w.
Proof.
  intros Hutf8 HP.
  destruct (encryptData_throws (JSON_stringify json (value_of_vault vault)) P (random w)
              Hutf8 HP) as [e Hseal].
  rewrite storeVaultData_stored. unfold stored. rewrite Hseal. done.
Qed.

End Sealing.

(** ** The draws of an envelope *)

(** The [n] words that the tape [t] gives from position [p] on. *)
Fixpoint words_at (t : nat → N) (p n : nat) : list N :=
  match n with
  | O => []
  | S n' => word_at t p :: words_at t (p + 4) n'
  end.

(** The bytes of [WordArray.random(nBytes)] when the cursor is at [p]. *)
Definition drawn (t : nat → N) (p nBytes : nat) : WordArray :=
  take nBytes (flat_map word_bytes (words_at t p ((nBytes + 3) / 4))).

Lemma random_words_at (n : nat) (r : rng) :
  random_words n r = (words_at (tape r) (pos r) n, {| tape := tape r; pos := pos r + 4 * n |}).
Proof.
  revert r. induction n as [|n IH]; intros [t p].
  - simpl. by rewrite Nat.add_0_r.
  - cbn [random_words words_at getRandomValues32 tape pos]. rewrite IH. cbn [tape pos].
    do 2 f_equal. lia.
Qed.

Lemma WordArray_random_drawn (n : nat) (r : rng) :
  WordArray_random n r
  = (drawn (tape r) (pos r) n, {| tape := tape r; pos := pos r + 4 * ((n + 3) / 4) |}).
Proof. unfold WordArray_random, drawn. by rewrite random_words_at. Qed.

Lemma split_byte (a q : N) :
  (a < 256)%N → ((a + 256 * q) / 256 = q ∧ (a + 256 * q) mod 256 = a)%N.
Proof.
  intros Ha.
  apply (N.div_mod_unique 256); [by apply N.mod_lt | exact Ha |].
  rewrite <- N.div_mod by done. lia.
Qed.

(** The bytes of a word of the tape are its four bytes, the last first. *)
Lemma word_bytes_at (t : nat → N) (p : nat) :
  word_bytes (word_at t p)
  = [t (p + 3)%nat mod 256; t (p + 2)%nat mod 256; t (p + 1)%nat mod 256; t p mod 256]%N.
Proof.
  unfold word_bytes, word_at.
  pose proof (N.mod_lt (t p) 256 ltac:(done)) as H0.
  pose proof (N.mod_lt (t (p + 1)%nat) 256 ltac:(done)) as H1.
  pose proof (N.mod_lt (t (p + 2)%nat) 256 ltac:(done)) as H2.
  pose proof (N.mod_lt (t (p + 3)%nat) 256 ltac:(done)) as H3.
  revert H0 H1 H2 H3.
  generalize (t p mod 256)%N (t (p + 1)%nat mod 256)%N (t (p + 2)%nat mod 256)%N
    (t (p + 3)%nat mod 256)%N.
  intros b0 b1 b2 b3 H0 H1 H2 H3.
  change 16777216%N with (256 * 256 * 256)%N. change 65536%N with (256 * 256)%N.
  rewrite <- !N.Div0.div_div.
  destruct (split_byte b0 (b1 + 256 * (b2 + 256 * b3)) H0) as [-> ->].
  destruct (split_byte b1 (b2 + 256 * b3) H1) as [-> ->].
  destruct (split_byte b2 b3 H2) as [-> ->].
  by rewrite (N.mod_small b3 256).
Qed.

Lemma word_at_bytes (t : nat → N) (p q : nat) :
  word_bytes (word_at t p) = word_bytes (word_at t q) → word_at t p = word_at t q.
Proof. rewrite !word_bytes_at. unfold word_at. by intros [= -> -> -> ->]. Qed.

Lemma words_bytes (t : nat → N) (p n : nat) :
  Forall (λ b, (b < 256)%N) (flat_map word_bytes (words_at t p n)).
Proof.
  revert p. induction n as [|n IH]; intros p; [constructor |].
  cbn [words_at flat_map]. apply Forall_app. split; [| apply IH].
  rewrite word_bytes_at. repeat constructor; by apply N.mod_lt.
Qed.

Lemma drawn_32 (t : nat → N) (p : nat) :
  drawn t p 32 = flat_map word_bytes (words_at t p 8).
Proof. reflexivity. Qed.

Lemma drawn_12 (t : nat → N) (p : nat) :
  drawn t p 12 = flat_map word_bytes (words_at t p 3).
Proof. reflexivity. Qed.

Definition hex_value (c : N) : N := (if c <? 58 then c - 48 else c - 87)%N.

Lemma hex_value_digit (d : N) : (d < 16)%N → hex_value (hex_digit d) = d.
Proof.
  intros Hd. destruct d as [|p]; [done |].
  do 4 (destruct p as [p|p|]; try done); lia.
Qed.

Lemma Hex_stringify_inj (w1 w2 : WordArray) :
  Forall (λ b, (b < 256)%N) w1 → Forall (λ b, (b < 256)%N) w2 →
  Hex_stringify w1 = Hex_stringify w2 → w1 = w2.
Proof.
  intros H1. revert w2. induction H1 as [|b1 w1 Hb1 _ IH]; intros w2 H2 Heq.
  - by destruct w2.
  - destruct H2 as [|b2 w2 Hb2 H2]; [done |]. simpl in Heq.
    injection Heq as Hhi Hlo Hrest.
    apply (f_equal hex_value) in Hhi, Hlo.
    rewrite !hex_value_digit in Hhi, Hlo
      by (first [ apply N.mod_lt; lia | apply N.Div0.div_lt_upper_bound; lia ]).
    f_equal; [| by apply IH].
    rewrite (N.div_mod' b1 16), (N.div_mod' b2 16). congruence.
Qed.

(** Two draws of [n] words (one at least) that write the same text start
    with the same word. *)
Lemma same_text_same_word (t : nat → N) (p q n : nat) :
  Hex_stringify (flat_map word_bytes (words_at t p (S n)))
  = Hex_stringify (flat_map word_bytes (words_at t q (S n))) →
  word_at t p = word_at t q.
Proof.
  intros Heq. apply Hex_stringify_inj in Heq; [| apply words_bytes ..].
  cbn [words_at flat_map] in Heq. apply word_at_bytes.
  rewrite !word_bytes_at in *. cbn [app] in Heq. by injection Heq as -> -> -> -> _.
Qed.

(** No two of the words of four bytes that start at the positions from [lo]
    up to [hi] are equal. *)
Definition no_repeat (t : nat → N) (lo hi : nat) : Prop :=
  ∀ i j, (lo ≤ i)%nat → (i < j)%nat → (j < hi)%nat → word_at t i ≠ word_at t j.

Section Freshness.

Variable lib : CryptoJS.
Hypothesis Hdraws : cipher_draws lib.

(** One call: the salt and the IV are the next 32 and the next 12 bytes of
    the random source, read as words, and the source is left at least 44
    bytes later. *)
Lemma encryptData_draws message masterPassword r e r' :
  encryptData lib message masterPassword r = (Ok e, r') →
  salt e = Hex_stringify (drawn (tape r) (pos r) 32)
  ∧ iv e = Hex_stringify (drawn (tape r) (pos r + 32) 12)
  ∧ tape r' = tape r
  ∧ (pos r + 44 ≤ pos r')%nat.
Proof.
  unfold encryptData, generateSalt, generateIV.
  change (256 / 8) with 32%nat. change (96 / 8) with 12%nat.
  rewrite !WordArray_random_drawn. cbn [tape pos].
  destruct (deriveKey _ _ _) as [key|]; [| done].
  match goal with |- context [AES_encrypt lib ?m ?k ?c ?s] =>
    destruct (Hdraws m k c s) as [Htape Hpos];
    destruct (AES_encrypt lib m k c s) as [[enc|] r3] end; [| done].
  intros [= <- <-]. simpl in *. split_and!; try done. lia.
Qed.

End Freshness.

(** ** A small instance of the libraries

    A key derivation that keeps the first bytes of password and salt, a
    cipher that tags the message with the key and deciphers one byte under
    every other key, and a JSON that writes a value as one number in binary
    digits. Both
    refuse the strings that have no UTF-8 encoding, and the cipher draws
    the eight bytes of the salt that the library adds to a ciphertext. The
    instance satisfies the laws above, and serves as the concrete input of
    the examples below. *)

Module Toy.

Definition uriError : exn := Error "URI malformed".

Definition pbkdf2 (password salt : jsstring) (keySize iterations : Z) : result WordArray :=
  if well_formed password && well_formed salt
  then Ok (resize (Z.to_nat (4 * keySize)) 0%N ((λ c, c mod 256)%N <$> (password ++ salt)))
  else Throw uriError.

Definition encrypt (message key : jsstring) (cfg : CipherConfig) (r : rng)
  : result jsstring * rng :=
  let '(_, r') := WordArray_random (64 / 8) r in
  if well_formed message && well_formed key then (Ok (key ++ message), r')
  else (Throw uriError, r').

(** [0 :: message] and one byte of padding when the tag is the key, and
    one byte that is no padding otherwise. *)
Definition decrypt (ciphertext key : jsstring) (cfg : CipherConfig) : result WordArray :=
  Ok (if bool_decide (take (length key) ciphertext = key)
      then 0%N :: drop (length key) ciphertext ++ [1%N]
      else [255%N]).

Definition utf8 (w : WordArray) : result jsstring :=
  match w with
  | [] => Ok []
  | 0%N :: message => Ok message
  | _ => Throw (Error "Malformed UTF-8 data")
  end.

Definition cryptojs : CryptoJS :=
  {| PBKDF2 := pbkdf2;
     CipherParams := jsstring;
     AES_encrypt := encrypt;
     CipherParams_toString := λ c, c;
     AES_decrypt_blocks := decrypt;
     Utf8_stringify := utf8;
     Hex_parse := λ s, s |}.

(** JSON values as trees over their leaves. *)
Definition leaf : Type := bool + (Z * positive) + jsstring.

Fixpoint to_tree (j : JSValue) : gen_tree leaf :=
  match j with
  | JNull => GenNode 0 []
  | JBool b => GenLeaf (inl (inl b))
  | JNumber q => GenLeaf (inl (inr (Qnum q, Qden q)))
  | JString s => GenLeaf (inr s)
  | JArray items => GenNode 1 (to_tree <$> items)
  | JObject fields =>
      GenNode 2 ((λ kv, GenNode 3 [GenLeaf (inr kv.1); to_tree kv.2]) <$> fields)
  end.

Fixpoint from_tree (t : gen_tree leaf) : JSValue :=
  match t with
  | GenLeaf (inl (inl b)) => JBool b
  | GenLeaf (inl (inr (n, d))) => JNumber (Qmake n d)
  | GenLeaf (inr s) => JString s
  | GenNode 1 ts => JArray (from_tree <$> ts)
  | GenNode 2 ts =>
      JObject ((λ t', match t' with
                      | GenNode _ [GenLeaf (inr k); v] => (k, from_tree v)
                      | _ => ([], JNull)
                      end) <$> ts)
  | GenNode _ _ => JNull
  end.

Lemma from_to_tree : ∀ j, from_tree (to_tree j) = j.
Proof.
  fix IH 1. intros [| b | [n d] | s | items | fields]; try reflexivity.
  - cbn [to_tree from_tree]. f_equal.
    induction items as [|x xs IHxs]; csimpl; [reflexivity |].
    rewrite (IH x), IHxs. reflexivity.
  - cbn [to_tree from_tree]. f_equal.
    induction fields as [|[k v] xs IHxs]; csimpl; [reflexivity |].
    rewrite (IH v), IHxs. reflexivity.
Qed.

Definition syntaxError : exn := Error "SyntaxError".

(** A positive number in binary digits, the lowest first and the leading
    one last. *)
Fixpoint bits (p : positive) : jsstring :=
  match p with
  | xH => [49%N]
  | xO p' => 48%N :: bits p'
  | xI p' => 49%N :: bits p'
  end.

Fixpoint unbits (s : jsstring) : option positive :=
  match s with
  | [] => None
  | c :: s' =>
      match s' with
      | [] => if (c =? 49)%N then Some xH else None
      | _ :: _ =>
          match unbits s' with
          | Some p =>
              if (c =? 48)%N then Some (xO p)
              else if (c =? 49)%N then Some (xI p) else None
          | None => None
          end
      end
  end.

Lemma unbits_bits (p : positive) : unbits (bits p) = Some p.
Proof.
  induction p as [p IH|p IH|]; [| | reflexivity]; cbn [bits unbits]; rewrite IH;
    by destruct p.
Qed.

Lemma bits_below (p : positive) : Forall (λ c, (c < 55296)%N) (bits p).
Proof. induction p; cbn [bits]; repeat constructor; done. Qed.

Definition stringify (j : JSValue) : jsstring := bits (encode (to_tree j)).

Definition parse (text : jsstring) : result JSValue :=
  match unbits text with
  | Some p =>
      match decode p with
      | Some t => Ok (from_tree t)
      | None => Throw syntaxError
      end
  | None => Throw syntaxError
  end.

Definition json : JSON := {| JSON_stringify := stringify; JSON_parse := parse |}.

Lemma parse_stringify j : parse (stringify j) = Ok j.
Proof. unfold parse, stringify. by rewrite unbits_bits, decode_encode, from_to_tree. Qed.

Lemma Pkcs7_unpad_one (w : WordArray) : Pkcs7_unpad (w ++ [1%N]) = w.
Proof.
  unfold Pkcs7_unpad. rewrite last_snoc, length_app. simpl.
  rewrite Nat.add_sub. by rewrite take_app_length.
Qed.

Lemma cipher_law : cipher_round_trip cryptojs.
Proof.
  intros message key iv r encrypted r'. cbv zeta. cbn [AES_encrypt cryptojs].
  unfold encrypt. destruct (WordArray_random _ r) as [w r1].
  destruct (_ && _); [| done]. intros [= <- <-].
  exists (0%N :: message). split; [| reflexivity].
  unfold AES_decrypt. cbn [AES_decrypt_blocks CipherParams_toString cryptojs cfg_padding].
  unfold decrypt. rewrite take_app_length, drop_app_length.
  rewrite bool_decide_eq_true_2 by done.
  change (0%N :: message ++ [1%N]) with ((0%N :: message) ++ [1%N]).
  by rewrite Pkcs7_unpad_one.
Qed.

Lemma empty_law : utf8_empty cryptojs.
Proof. reflexivity. Qed.

Lemma draws_law : cipher_draws cryptojs.
Proof.
  intros message key cfg r. cbn [AES_encrypt cryptojs]. unfold encrypt.
  rewrite WordArray_random_drawn. destruct (_ && _); simpl; split; try done; lia.
Qed.

Lemma utf8_law : utf8_domain cryptojs.
Proof.
  split.
  - intros P s keySize iterations. cbn [PBKDF2 cryptojs]. unfold pbkdf2.
    rewrite <- andb_true_iff. destruct (_ && _); split; try done.
    + by eexists.
    + by intros [key [=]].
  - intros message key cfg r Hm Hk. cbn [AES_encrypt cryptojs]. unfold encrypt.
    destruct (WordArray_random _ r) as [w r1]. rewrite Hm, Hk. by eexists.
Qed.

Lemma key_law : key_sized cryptojs.
Proof.
  intros P s keySize iterations key. cbn [PBKDF2 cryptojs]. unfold pbkdf2.
  destruct (_ && _); [| done]. intros [= <-].
  split; [apply length_resize |].
  apply Forall_resize; [lia |]. apply Forall_fmap, Forall_true.
  intros c. simpl. by apply N.mod_lt.
Qed.

Lemma json_law : json_round_trip json.
Proof.
  split_and!; intros; try apply parse_stringify.
  cbn [JSON_stringify json]. unfold stringify. by destruct (encode _).
Qed.

Lemma json_text_law : json_well_formed json.
Proof. intros j. apply well_formed_below, bits_below. Qed.

End Toy.

(** ** Vaults as values *)

Global Instance JString_inj : Inj (=) (=) JString.
Proof. by intros s1 s2 [= ->]. Qed.

Global Instance value_of_entry_inj : Inj (=) (=) value_of_entry.
Proof.
  intros [] []. unfold value_of_entry. simpl. intros [= -> -> -> -> -> -> -> -> Htags].
  f_equal. by apply (inj (fmap JString)).
Qed.

Global Instance value_of_vault_inj : Inj (=) (=) value_of_vault.
Proof.
  intros [] []. unfold value_of_vault. simpl. intros [= Hentries ->].
  f_equal. by apply (inj (fmap value_of_entry)).
Qed.

Definition empty_vault : VaultData := {| entries := []; version := js "1.0.0" |}.

Definition fresh_world : world := {| prefs := ∅; random := counting |}.

(** The password that is one high surrogate, [\uD800]. *)
Definition lone_surrogate : jsstring := [55296%N].

(** C1, as stated, fails. A password is any string, and under the password
    that is one high surrogate nothing is sealed: the key derivation cannot
    encode it, [storeVaultData] throws its error and the store is as it
    was. This holds with every library that encodes strings in UTF-8, and
    is evaluated here on the small instance. *)
Lemma lone_surrogate_not_sealed :
  (storeVaultData Toy.cryptojs Toy.json empty_vault lone_surrogate fresh_world).1
  = Throw saveFailed
  ∧ (∀ lib json, utf8_domain lib →
       ∀ vault w, ∃ w', storeVaultData lib json vault lone_surrogate w
                        = (Throw saveFailed, w')
                        ∧ prefs w' = prefs w).
Proof.
  split; [vm_compute; reflexivity |].
  intros lib json Hutf8 vault w. eexists. by apply storeVaultData_throws.
Qed.

(** C1, amended. Under a password that has a UTF-8 encoding, storing a
    vault and reading it back under the same password returns the value of
    that vault, which is the value of no other vault; so does decrypting
    and parsing the sealed JSON text directly. Under a password that has
    none, [storeVaultData] throws and stores nothing. *)
Theorem vault_round_trip (lib : CryptoJS) (json : JSON) :
  cipher_round_trip lib → utf8_domain lib → json_round_trip json → json_well_formed json →
  ∀ (vault : VaultData) (masterPassword : jsstring) (w : world),
    (well_formed masterPassword = true →
     (∃ w', storeVaultData lib json vault masterPassword w = (Ok (), w')
            ∧ getVaultData lib json masterPassword w'
              = (Ok (Some (value_of_vault vault)), w'))
     ∧ (∀ r, ∃ sealed r' text,
          encryptData lib (JSON_stringify json (value_of_vault vault)) masterPassword r
          = (Ok sealed, r')
          ∧ decryptData lib sealed masterPassword = Ok text
          ∧ JSON_parse json text = Ok (value_of_vault vault)))
    ∧ (well_formed masterPassword = false →
       ∃ w', storeVaultData lib json vault masterPassword w = (Throw saveFailed, w')
             ∧ prefs w' = prefs w)
    ∧ (∀ vault', value_of_vault vault' = value_of_vault vault → vault' = vault).
Proof.
  intros Hcipher Hutf8 Hjson Hwf vault masterPassword w. split_and!.
  - intros HP. split.
    + exists (stored lib json vault masterPassword w).
      by apply getVaultData_same_password.
    + intros r.
      destruct (vault_sealed lib json vault masterPassword r Hutf8 Hwf HP)
        as (sealed & r' & Hseal).
      exists sealed, r', (JSON_stringify json (value_of_vault vault)).
      split; [exact Hseal |]. split; [by eapply decrypt_encrypt |].
      by destruct Hjson as (Hvault & _).
  - intros HP. eexists. by apply storeVaultData_throws.
  - intros vault'. apply (inj value_of_vault).
Qed.

Lemma vault_round_trip_witness :
  ∃ w', storeVaultData Toy.cryptojs Toy.json empty_vault (js "correct-horse-battery")
          fresh_world = (Ok (), w')
        ∧ getVaultData Toy.cryptojs Toy.json (js "correct-horse-battery") w'
          = (Ok (Some (value_of_vault empty_vault)), w').
Proof.
  apply (vault_round_trip Toy.cryptojs Toy.json Toy.cipher_law Toy.utf8_law Toy.json_law
           Toy.json_text_law empty_vault (js "correct-horse-battery") fresh_world).
  reflexivity.
Defined.

(** C2. [decryptData] has no check of its own. It returns a text exactly
    when the library derives a key, decrypts, and decodes the bytes as
    UTF-8, and then it returns that text, whatever it is; and an error of
    [decryptData] is an error that one of the three calls of the library
    threw. In particular, whenever the blocks deciphered under the key of
    the candidate end in a byte that is not below their number, no byte is
    left after the padding is removed, and [decryptData] returns the empty
    string without any error; [validateMasterPassword] then answers false
    only because the empty string is not the sentinel. *)
Theorem decryptData_unchecked (lib : CryptoJS) :
  utf8_empty lib →
  ∀ (e : EncryptedData) (P : jsstring),
    let cfg := {| cfg_iv := Hex_parse lib (iv e); cfg_mode := CBC; cfg_padding := Pkcs7 |} in
    (∀ text,
       decryptData lib e P = Ok text
       ↔ ∃ key decrypted,
           deriveKey lib P (salt e) = Ok key
           ∧ AES_decrypt lib (data e) key cfg = Ok decrypted
           ∧ Utf8_stringify lib decrypted = Ok text)
    ∧ (∀ err,
         decryptData lib e P = Throw err
         ↔ PBKDF2 lib P (salt e) (256 / 32) 100000 = Throw err
           ∨ (∃ key, deriveKey lib P (salt e) = Ok key
                     ∧ AES_decrypt lib (data e) key cfg = Throw err)
           ∨ (∃ key decrypted,
                deriveKey lib P (salt e) = Ok key
                ∧ AES_decrypt lib (data e) key cfg = Ok decrypted
                ∧ Utf8_stringify lib decrypted = Throw err))
    ∧ (∀ key blocks,
         deriveKey lib P (salt e) = Ok key →
         AES_decrypt_blocks lib (data e) key cfg = Ok blocks →
         (length blocks ≤ N.to_nat (default 0%N (last blocks)))%nat →
         decryptData lib e P = Ok [] ∧ validateMasterPassword lib P e = false).
Proof.
  intros Hempty e P. cbv zeta. split_and!.
  - intros text. unfold decryptData.
    destruct (deriveKey lib P (salt e)) as [key|e0].
    + destruct (AES_decrypt lib (data e) key _) as [decrypted|e1] eqn:Hdec.
      * split; [intros Htext; by eexists _, _ |].
        intros (key' & decrypted' & Hk & Hd & Htext). injection Hk as <-.
        rewrite Hdec in Hd. by injection Hd as <-.
      * split; [done |].
        intros (key' & d & Hk & Hd & _). injection Hk as <-. rewrite Hdec in Hd. done.
    + split; [done |]. by intros (key & d & [=] & _).
  - intros err. unfold decryptData, deriveKey.
    destruct (PBKDF2 lib P (salt e) (256 / 32) 100000) as [w|e0].
    + destruct (AES_decrypt lib (data e) (Hex_stringify w) _) as [decrypted|e1] eqn:Hdec.
      * split.
        -- intros Herr. right. right. by eexists _, _.
        -- intros [Hthrow | [(key & Hk & Hd) | (key & d & Hk & Hd & Herr)]].
           ++ done.
           ++ injection Hk as <-. rewrite Hdec in Hd. done.
           ++ injection Hk as <-. rewrite Hdec in Hd. by injection Hd as <-.
      * split.
        -- intros [= <-]. right. left. by eexists.
        -- intros [Hthrow | [(key & Hk & Hd) | (key & d & Hk & Hd & _)]].
           ++ done.
           ++ injection Hk as <-. rewrite Hdec in Hd. by injection Hd as <-.
           ++ injection Hk as <-. rewrite Hdec in Hd. done.
    + split.
      * intros [= <-]. by left.
      * intros [[= <-] | [(key & [=] & _) | (key & d & [=] & _)]]. reflexivity.
  - intros key blocks Hkey Hblocks Hlast.
    assert (decryptData lib e P = Ok []) as Hdec.
    { unfold decryptData, AES_decrypt. rewrite Hkey, Hblocks. cbn [cfg_padding].
      unfold Pkcs7_unpad. rewrite (proj2 (Nat.sub_0_le _ _) Hlast). exact Hempty. }
    split; [exact Hdec |]. unfold validateMasterPassword. by rewrite Hdec.
Qed.

Lemma decryptData_unchecked_witness :
  ∃ validation r',
    createValidationData Toy.cryptojs (js "correct-horse-battery") counting
    = (Ok validation, r')
    ∧ decryptData Toy.cryptojs validation (js "wrong-password") = Ok []
    ∧ validateMasterPassword Toy.cryptojs (js "wrong-password") validation = false.
Proof.
  let v := eval vm_compute in
    (createValidationData Toy.cryptojs (js "correct-horse-battery") counting).1 in
  lazymatch v with
  | Ok ?e =>
      exists e, {| tape := N.of_nat; pos := 52 |};
      split; [vm_compute; reflexivity |];
      let k := eval vm_compute in (deriveKey Toy.cryptojs (js "wrong-password") (salt e)) in
      lazymatch k with
      | Ok ?key =>
          apply (proj2 (proj2 (decryptData_unchecked Toy.cryptojs Toy.empty_law e
                                 (js "wrong-password"))) key [255%N]);
          [vm_compute; reflexivity | vm_compute; reflexivity | vm_compute; lia]
      end
  end.
Defined.

(** *** Passwords that derive the same key

    A derived key has 256 bits, and there are more passwords than keys. *)

(** The bytes of a [WordArray] as one number, first byte lowest. *)
Definition to_number (w : WordArray) : N := foldr (λ b acc, b + 256 * acc)%N 0%N w.

Lemma to_number_bound (w : WordArray) :
  Forall (λ b, (b < 256)%N) w → (to_number w < 256 ^ N.of_nat (length w))%N.
Proof.
  induction 1 as [|b w Hb _ IH]; [simpl; lia |].
  cbn [to_number foldr length]. fold (to_number w).
  rewrite Nat2N.inj_succ, N.pow_succ_r'. nia.
Qed.

Lemma to_number_inj (w1 w2 : WordArray) :
  length w1 = length w2 →
  Forall (λ b, (b < 256)%N) w1 → Forall (λ b, (b < 256)%N) w2 →
  to_number w1 = to_number w2 → w1 = w2.
Proof.
  intros Hlen H1. revert w2 Hlen.
  induction H1 as [|b1 w1 Hb1 _ IH]; intros [|b2 w2] Hlen H2 Heq; try done.
  apply list.Forall_cons in H2 as [Hb2 H2]. cbn [to_number foldr] in Heq.
  fold (to_number w1) in Heq. fold (to_number w2) in Heq.
  assert (b1 = b2 ∧ to_number w1 = to_number w2) as [-> Hrest] by lia.
  f_equal. apply IH; [by injection Hlen | done | done].
Qed.

(** Whatever the salt, two different passwords, each the decimal digits of
    a number, derive the same key. *)
Lemma colliding_passwords (lib : CryptoJS) (s : jsstring) :
  utf8_domain lib → key_sized lib → well_formed s = true →
  ∃ n1 n2 key, decimal n1 ≠ decimal n2
               ∧ deriveKey lib (decimal n1) s = Ok key
               ∧ deriveKey lib (decimal n2) s = Ok key.
Proof.
  intros [Hkey _] Hsized Hs.
  assert (∀ i, ∃ key, PBKDF2 lib (decimal (N.of_nat i)) s (256 / 32) 100000 = Ok key
                      ∧ length key = 32%nat ∧ Forall (λ b, (b < 256)%N) key) as Hderived.
  { intros i.
    destruct (proj2 (Hkey (decimal (N.of_nat i)) s (256 / 32) 100000)) as [key Hk].
    { split; [apply decimal_well_formed | exact Hs]. }
    exists key. split; [exact Hk |]. by apply Hsized in Hk. }
  set (f := λ i : nat,
         match PBKDF2 lib (decimal (N.of_nat i)) s (256 / 32) 100000 with
         | Ok key => N.to_nat (to_number key)
         | Throw _ => 0%nat
         end).
  destruct (nat_pigeonhole f (S (N.to_nat (256 ^ 32))) (N.to_nat (256 ^ 32)))
    as (i1 & i2 & Hlt & Heq); [lia | |].
  { intros i _. unfold f. destruct (Hderived i) as (key & -> & Hlen & Hbytes).
    pose proof (to_number_bound _ Hbytes) as Hbound. rewrite Hlen in Hbound.
    change (N.of_nat 32) with 32%N in Hbound. lia. }
  unfold f in Heq.
  destruct (Hderived i1) as (key1 & Hk1 & Hlen1 & Hbytes1).
  destruct (Hderived i2) as (key2 & Hk2 & Hlen2 & Hbytes2).
  rewrite Hk1, Hk2 in Heq. apply N2Nat.inj in Heq.
  assert (key1 = key2) as <- by (apply to_number_inj; [congruence | done | done | done]).
  exists (N.of_nat i1), (N.of_nat i2), (Hex_stringify key1). split_and!.
  - intros Hi%decimal_inj. lia.
  - unfold deriveKey. by rewrite Hk1.
  - unfold deriveKey. by rewrite Hk2.
Qed.

(** Validation data of one password that another one passes. *)
Lemma colliding_validation (lib : CryptoJS) (r : rng) :
  cipher_round_trip lib → utf8_domain lib → key_sized lib →
  ∃ n1 n2 testData r',
    decimal n1 ≠ decimal n2
    ∧ createValidationData lib (decimal n1) r = (Ok testData, r')
    ∧ validateMasterPassword lib (decimal n2) testData = true.
Proof.
  intros Hcipher Hutf8 Hsized.
  destruct (colliding_passwords lib (generateSalt r).1 Hutf8 Hsized
              (generateSalt_well_formed r)) as (n1 & n2 & key & Hne & Hk1 & Hk2).
  destruct (encryptData_returns lib MASTER_PASSWORD_VALIDATION (decimal n1) r Hutf8
              sentinel_well_formed (decimal_well_formed n1)) as (testData & r' & Hseal).
  exists n1, n2, testData, r'. split; [exact Hne |]. split; [exact Hseal |].
  unfold validateMasterPassword.
  rewrite (decryptData_same_key lib testData (decimal n1) (decimal n2)).
  - rewrite (decrypt_encrypt lib _ _ _ _ _ Hcipher Hseal). by apply bool_decide_eq_true.
  - rewrite (proj1 (encryptData_salt_iv lib _ _ _ _ _ Hseal)). congruence.
Qed.




(** C7. Two calls of [encryptData] that return envelopes, the second one
    anywhere after the first, whatever their plaintexts and passwords: each
    draws its salt and then its IV where the source stands, 32 and 12 bytes
    written in hexadecimal, and the second call draws after all the bytes of
    the first. When the source gives no word of four bytes twice over the
    bytes of the two calls, the two salts differ and the two IVs differ. *)
Theorem envelope_freshness (lib : CryptoJS) :
  cipher_draws lib →
  ∀ (data1 pw1 data2 pw2 : jsstring) (r r1 r' r2 : rng) (first second : EncryptedData),
    encryptData lib data1 pw1 r = (Ok first, r1) →
    tape r' = tape r → (pos r1 ≤ pos r')%nat →
    encryptData lib data2 pw2 r' = (Ok second, r2) →
    no_repeat (tape r) (pos r) (pos r' + 44) →
    salt first ≠ salt second
    ∧ iv first ≠ iv second
    ∧ salt first = Hex_stringify (drawn (tape r) (pos r) 32)
    ∧ iv first = Hex_stringify (drawn (tape r) (pos r + 32) 12)
    ∧ salt second = Hex_stringify (drawn (tape r) (pos r') 32)
    ∧ iv second = Hex_stringify (drawn (tape r) (pos r' + 32) 12)
    ∧ (pos r + 44 ≤ pos r')%nat.
Proof.
  intros Hdraws data1 pw1 data2 pw2 r r1 r' r2 first second Hfirst Htape Hpos Hsecond Hfresh.
  destruct (encryptData_draws lib Hdraws _ _ _ _ _ Hfirst) as (Hs1 & Hi1 & _ & Hp1).
  destruct (encryptData_draws lib Hdraws _ _ _ _ _ Hsecond) as (Hs2 & Hi2 & _ & _).
  rewrite Htape in Hs2, Hi2.
  split_and!; [| | exact Hs1 | exact Hi1 | exact Hs2 | exact Hi2 | lia].
  - rewrite Hs1, Hs2, !drawn_32. intros Heq%same_text_same_word.
    apply (Hfresh (pos r) (pos r')); [lia | lia | lia | exact Heq].
  - rewrite Hi1, Hi2, !drawn_12. intros Heq%same_text_same_word.
    apply (Hfresh (pos r + 32)%nat (pos r' + 32)%nat); [lia | lia | lia | exact Heq].
Qed.

Lemma word_at_low (t : nat → N) (p : nat) : (word_at t p mod 256 = t p mod 256)%N.
Proof.
  unfold word_at. apply split_byte. by apply N.mod_lt.
Qed.

Lemma counting_no_repeat (hi : nat) : (hi ≤ 256)%nat → no_repeat N.of_nat 0 hi.
Proof.
  intros Hhi i j _ Hij Hj Heq. apply (f_equal (λ w, (w mod 256)%N)) in Heq.
  rewrite !word_at_low, !N.mod_small in Heq by lia. lia.
Qed.

Lemma envelope_freshness_witness :
  ∃ first r1 second r2,
    encryptData Toy.cryptojs (js "vault") (js "password") counting = (Ok first, r1)
    ∧ encryptData Toy.cryptojs (js "vault") (js "password") r1 = (Ok second, r2)
    ∧ salt first ≠ salt second
    ∧ iv first ≠ iv second.
Proof.
  pose (r1 := {| tape := N.of_nat; pos := 52 |}).
  pose (r2 := {| tape := N.of_nat; pos := 104 |}).
  let v1 := eval vm_compute in
    (encryptData Toy.cryptojs (js "vault") (js "password") counting).1 in
  let v2 := eval vm_compute in
    (encryptData Toy.cryptojs (js "vault") (js "password") r1).1 in
  lazymatch v1 with
  | Ok ?e1 =>
      lazymatch v2 with
      | Ok ?e2 =>
          assert (encryptData Toy.cryptojs (js "vault") (js "password") counting
                  = (Ok e1, r1)) as Hfirst by (vm_compute; reflexivity);
          assert (encryptData Toy.cryptojs (js "vault") (js "password") r1
                  = (Ok e2, r2)) as Hsecond by (vm_compute; reflexivity);
          exists e1, r1, e2, r2
      end
  end.
  split; [exact Hfirst |]. split; [exact Hsecond |].
  destruct (envelope_freshness Toy.cryptojs Toy.draws_law _ _ _ _ counting r1 r1 r2 _ _
              Hfirst eq_refl ltac:(simpl; lia) Hsecond) as (Hsalt & Hiv & _).
  { apply counting_no_repeat. simpl. lia. }
  split; [exact Hsalt | exact Hiv].
Defined.

(** X3. With any library that keeps the laws and returns keys of 32 bytes,
    there are two different passwords, each the decimal digits of a number,
    such that the vault stored under the one is read under the other. *)
Lemma some_other_password_opens (lib : CryptoJS) (json : JSON) :
  cipher_round_trip lib → utf8_domain lib → key_sized lib →
  json_round_trip json → json_well_formed json →
  ∀ (vault : VaultData) (w : world),
    ∃ n1 n2 w',
      decimal n1 ≠ decimal n2
      ∧ storeVaultData lib json vault (decimal n1) w = (Ok (), w')
      ∧ getVaultData lib json (decimal n2) w' = (Ok (Some (value_of_vault vault)), w').
Proof.
  intros Hcipher Hutf8 Hsized Hjson Hwf vault w.
  destruct (colliding_passwords lib (generateSalt (random w)).1 Hutf8 Hsized
              (generateSalt_well_formed (random w))) as (n1 & n2 & key & Hne & Hk1 & Hk2).
  destruct (vault_sealed lib json vault (decimal n1) (random w) Hutf8 Hwf
              (decimal_well_formed n1)) as (e & r' & Hseal).
  exists n1, n2, (stored lib json vault (decimal n1) w). split; [exact Hne |]. split.
  - rewrite storeVaultData_stored, Hseal. reflexivity.
  - rewrite (getVaultData_envelope lib json e) by (by try apply stored_lookup with r').
    rewrite (decryptData_same_key lib e (decimal n1) (decimal n2)).
    + rewrite (decrypt_encrypt lib _ _ _ _ _ Hcipher Hseal).
      destruct Hjson as (Hvault & _). rewrite Hvault. reflexivity.
    + rewrite (proj1 (encryptData_salt_iv lib _ _ _ _ _ Hseal)). congruence.
Qed.

Lemma some_other_password_opens_witness :
  ∃ n1 n2 w',
    decimal n1 ≠ decimal n2
    ∧ storeVaultData Toy.cryptojs Toy.json empty_vault (decimal n1) fresh_world = (Ok (), w')
    ∧ getVaultData Toy.cryptojs Toy.json (decimal n2) w'
      = (Ok (Some (value_of_vault empty_vault)), w').
Proof.
  apply (some_other_password_opens Toy.cryptojs Toy.json Toy.cipher_law Toy.utf8_law
           Toy.key_law Toy.json_law Toy.json_text_law empty_vault fresh_world).
Defined.

(** X4. With any library that keeps the laws and returns keys of 32 bytes,
    there are two different passwords, each the decimal digits of a number,
    of which one passes the validation data of the other. *)
Lemma some_other_password_validates (lib : CryptoJS) :
  cipher_round_trip lib → utf8_domain lib → key_sized lib →
  ∀ r, ∃ n1 n2 testData r',
    decimal n1 ≠ decimal n2
    ∧ createValidationData lib (decimal n1) r = (Ok testData, r')
    ∧ validateMasterPassword lib (decimal n2) testData = true.
Proof. intros Hcipher Hutf8 Hsized r. by apply colliding_validation. Qed.

Lemma some_other_password_validates_witness :
  ∃ n1 n2 testData r',
    decimal n1 ≠ decimal n2
    ∧ createValidationData Toy.cryptojs (decimal n1) counting = (Ok testData, r')
    ∧ validateMasterPassword Toy.cryptojs (decimal n2) testData = true.
Proof.
  apply (some_other_password_validates Toy.cryptojs Toy.cipher_law Toy.utf8_law
           Toy.key_law counting).
Defined.

(** * Further properties *)

(** ** The store of validation data and settings *)

Definition put (key value : jsstring) (w : world) : world :=
  {| prefs := <[key := value]> (prefs w); random := random w |}.

Lemma envelope_not_falsy (e : EncryptedData) : falsy (value_of_envelope e) = false.
Proof. done. Qed.

(** X5. Validation data that was stored is read back as it was, and the
    vault then counts as existing. *)
Lemma validation_data_round_trip (json : JSON) :
  json_round_trip json →
  ∀ (validationData : EncryptedData) (w : world),
    let w' := put MASTER_PASSWORD_VALIDATION_KEY
                (JSON_stringify json (value_of_envelope validationData)) w in
    storeMasterPasswordValidation json validationData w = (Ok (), w')
    ∧ getMasterPasswordValidation json w' = (Ok (Some (value_of_envelope validationData)), w')
    ∧ as_EncryptedData (value_of_envelope validationData) = Ok validationData
    ∧ vaultExists json w' = (Ok true, w').
Proof.
  intros (_ & Henv & Hne) validationData w. cbv zeta.
  assert (getMasterPasswordValidation json
            (put MASTER_PASSWORD_VALIDATION_KEY
               (JSON_stringify json (value_of_envelope validationData)) w)
          = (Ok (Some (value_of_envelope validationData)),
             put MASTER_PASSWORD_VALIDATION_KEY
               (JSON_stringify json (value_of_envelope validationData)) w)) as Hget.
  { unfold getMasterPasswordValidation, try_catch, bind, Preferences_get, lift, ret, put.
    cbn [prefs]. rewrite lookup_insert_eq.
    destruct (JSON_stringify json (value_of_envelope validationData)) as [|c text] eqn:Htext.
    { by apply Hne in Htext. }
    by rewrite <- Htext, Henv. }
  split_and!.
  - done.
  - exact Hget.
  - by destruct validationData.
  - unfold vaultExists, try_catch, bind. rewrite Hget. done.
Qed.

Lemma validation_data_round_trip_witness :
  vaultExists Toy.json
    (put MASTER_PASSWORD_VALIDATION_KEY
       (JSON_stringify Toy.json
          (value_of_envelope {| data := js "00"; iv := js "01"; salt := js "02" |}))
       fresh_world)
  = (Ok true,
     put MASTER_PASSWORD_VALIDATION_KEY
       (JSON_stringify Toy.json
          (value_of_envelope {| data := js "00"; iv := js "01"; salt := js "02" |}))
       fresh_world).
Proof.
  apply (validation_data_round_trip Toy.json Toy.json_law
           {| data := js "00"; iv := js "01"; salt := js "02" |} fresh_world).
Defined.

(** X6. With nothing stored, [getVaultData] returns [null] whatever the
    password, there is no validation data, no vault exists, and [login]
    refuses every password and leaves the session as it is. *)
Lemma nothing_stored (lib : CryptoJS) (json : JSON) (password : jsstring)
    (s : session) (w : world) :
  prefs w !! VAULT_DATA = None → prefs w !! MASTER_PASSWORD_VALIDATION_KEY = None →
  getVaultData lib json password w = (Ok None, w)
  ∧ getMasterPasswordValidation json w = (Ok None, w)
  ∧ vaultExists json w = (Ok false, w)
  ∧ login lib json password s w = (Ok (false, s), w).
Proof.
  intros Hvault Hvalidation.
  assert (getMasterPasswordValidation json w = (Ok None, w)) as Hget.
  { unfold getMasterPasswordValidation, try_catch, bind, Preferences_get.
    by rewrite Hvalidation. }
  split_and!.
  - unfold getVaultData, try_catch, bind, Preferences_get. by rewrite Hvault.
  - exact Hget.
  - unfold vaultExists, try_catch, bind. by rewrite Hget.
  - unfold login, try_catch, bind. by rewrite Hget.
Qed.

Lemma nothing_stored_witness :
  getVaultData Toy.cryptojs Toy.json (js "correct-horse-battery") fresh_world
  = (Ok None, fresh_world)
  ∧ vaultExists Toy.json fresh_world = (Ok false, fresh_world).
Proof.
  destruct (nothing_stored Toy.cryptojs Toy.json (js "correct-horse-battery")
              {| isAuthenticated := false; hasVault := false; masterPassword := None |}
              fresh_world) as (Hvault & _ & Hexists & _); [done | done |].
  split; [exact Hvault | exact Hexists].
Defined.

(** X7. Stored text that [JSON.parse] rejects: [getVaultData] throws its
    one error, while [getMasterPasswordValidation] swallows the error and
    returns [null], so that no vault is reported and [login] returns false
    without touching the session. *)
Lemma corrupted_store (lib : CryptoJS) (json : JSON) (password : jsstring)
    (s : session) (w : world) (text : jsstring) (e : exn) :
  text ≠ [] → JSON_parse json text = Throw e →
  (prefs w !! VAULT_DATA = Some text →
   getVaultData lib json password w = (Throw decryptFailed, w))
  ∧ (prefs w !! MASTER_PASSWORD_VALIDATION_KEY = Some text →
     getMasterPasswordValidation json w = (Ok None, w)
     ∧ vaultExists json w = (Ok false, w)
     ∧ login lib json password s w = (Ok (false, s), w)).
Proof.
  intros Hne Hparse. split.
  - intros Hvault. unfold getVaultData, try_catch, bind, Preferences_get, lift, throw.
    rewrite Hvault. destruct text; [done |]. by rewrite Hparse.
  - intros Hvalidation.
    assert (getMasterPasswordValidation json w = (Ok None, w)) as Hget.
    { unfold getMasterPasswordValidation, try_catch, bind, Preferences_get, lift, ret.
      rewrite Hvalidation. destruct text; [done |]. by rewrite Hparse. }
    split_and!.
    + exact Hget.
    + unfold vaultExists, try_catch, bind. by rewrite Hget.
    + unfold login, try_catch, bind. by rewrite Hget.
Qed.

Lemma corrupted_store_witness :
  getVaultData Toy.cryptojs Toy.json (js "correct-horse-battery")
    (put VAULT_DATA (js "{") fresh_world)
  = (Throw decryptFailed, put VAULT_DATA (js "{") fresh_world).
Proof.
  apply (proj1 (corrupted_store Toy.cryptojs Toy.json (js "correct-horse-battery")
                  {| isAuthenticated := false; hasVault := false; masterPassword := None |}
                  (put VAULT_DATA (js "{") fresh_world) (js "{") Toy.syntaxError
                  ltac:(discriminate) ltac:(reflexivity))).
  reflexivity.
Defined.

(** ** The settings *)

(** X8. The biometric flag that was set is the flag that is read, and it
    reads as false when nothing or anything but the text [true] is stored. *)
Lemma biometric_flag (enabled : bool) (w : world) :
  let w' := put BIOMETRIC_ENABLED (if enabled then js "true" else js "false") w in
  setBiometricEnabled enabled w = (Ok (), w')
  ∧ isBiometricEnabled w' = (Ok enabled, w')
  ∧ (prefs w !! BIOMETRIC_ENABLED ≠ Some (js "true") → isBiometricEnabled w = (Ok false, w)).
Proof.
  cbv zeta. split_and!.
  - done.
  - unfold isBiometricEnabled, try_catch, bind, Preferences_get, ret, put. cbn [prefs].
    rewrite lookup_insert_eq. by destruct enabled.
  - intros Hne. unfold isBiometricEnabled, try_catch, bind, Preferences_get, ret.
    by rewrite bool_decide_eq_false_2.
Qed.

Lemma biometric_flag_witness : isBiometricEnabled fresh_world = (Ok false, fresh_world).
Proof. apply (biometric_flag true fresh_world). done. Defined.

Lemma digit_not_whitespace (c : N) : is_digit c = true → is_whitespace c = false.
Proof.
  unfold is_digit, is_whitespace, in_range, mem. simpl.
  intros [Hlo Hhi]%andb_true_iff. apply N.leb_le in Hlo, Hhi.
  repeat (apply orb_false_intro); try (apply N.eqb_neq; lia); try done.
  apply andb_false_iff. left. apply N.leb_gt. lia.
Qed.

(** [parseInt] reads the decimal digits of an integer below [2^53] back,
    with or without a minus sign before them. *)
Lemma parseInt_decimal (nearest : Z → number) (n : N) :
  (Z.of_N n < 2 ^ 53) →
  parseInt nearest (decimal n) = Num (inject_Z (Z.of_N n))
  ∧ parseInt nearest (45%N :: decimal n) = Num (inject_Z (- Z.of_N n)).
Proof.
  intros Hsafe.
  destruct (decimal_spec n) as (ds & -> & Hne & Hall & Hval).
  destruct ds as [|d ds]; [done |].
  pose proof (Forall_inv Hall) as Hd. simpl in Hd.
  pose proof (digit_not_whitespace d Hd) as Hws.
  assert (parse_digits (d :: ds) 0%N false = (n, true)) as Hparse.
  { rewrite <- (app_nil_r (d :: ds)), parse_digits_app, Hval by done. done. }
  unfold is_digit, in_range in Hd. apply andb_true_iff in Hd as [Hlo Hhi].
  apply N.leb_le in Hlo, Hhi.
  split.
  - unfold parseInt. cbn [skip_whitespace]. rewrite Hws.
    rewrite (proj2 (N.eqb_neq d 45)), (proj2 (N.eqb_neq d 43)) by lia.
    rewrite Hparse. cbv zeta. by rewrite (proj2 (Z.ltb_lt _ _)) by lia.
  - unfold parseInt. cbn [skip_whitespace].
    change (is_whitespace 45) with false. cbv iota.
    change (45 =? 45)%N with true. cbv iota. rewrite Hparse. cbv zeta.
    by rewrite (proj2 (Z.ltb_lt _ _)) by lia.
Qed.

(** X9. An auto-lock timeout that is an integer below [2^53] in absolute
    value is read back as it was set; with nothing stored the timeout is 5;
    and stored text in which [parseInt] finds no integer is read as [NaN],
    not as the default. *)
Lemma auto_lock_timeout (shortest : Z → jsstring) (nearest : Z → number) (minutes : Z)
    (w : world) :
  let w' := put AUTO_LOCK_TIMEOUT (Number_toString shortest minutes) w in
  setAutoLockTimeout shortest minutes w = (Ok (), w')
  ∧ (Z.abs minutes < 2 ^ 53 →
     getAutoLockTimeout nearest w' = (Ok (Num (inject_Z minutes)), w'))
  ∧ (prefs w !! AUTO_LOCK_TIMEOUT = None → getAutoLockTimeout nearest w = (Ok (Num 5), w))
  ∧ (∀ text, prefs w !! AUTO_LOCK_TIMEOUT = Some text → text ≠ [] →
             parseInt nearest text = NaN →
             getAutoLockTimeout nearest w = (Ok NaN, w)).
Proof.
  cbv zeta. split_and!.
  - done.
  - intros Hsmall.
    unfold getAutoLockTimeout, try_catch, bind, Preferences_get, ret, put. cbn [prefs].
    rewrite lookup_insert_eq. unfold Number_toString.
    rewrite (proj2 (Z.ltb_lt _ _) Hsmall).
    destruct (Z.ltb_spec minutes 0) as [Hneg|Hpos].
    + rewrite (proj2 (parseInt_decimal nearest (Z.to_N (- minutes)) ltac:(lia))).
      rewrite Z2N.id, Z.opp_involutive by lia. done.
    + destruct (decimal_spec (Z.to_N minutes)) as (ds & Hds & Hne & _).
      pose proof (proj1 (parseInt_decimal nearest (Z.to_N minutes) ltac:(lia))) as Hparse.
      rewrite Hds in *. destruct ds as [|d ds]; [done |].
      rewrite Hparse, Z2N.id by lia. done.
  - intros Hnone. unfold getAutoLockTimeout, try_catch, bind, Preferences_get.
    by rewrite Hnone.
  - intros text Hsome Hne Hnan.
    unfold getAutoLockTimeout, try_catch, bind, Preferences_get, ret.
    rewrite Hsome. destruct text; [done |]. by rewrite Hnan.
Qed.

Lemma auto_lock_timeout_witness :
  getAutoLockTimeout (λ _, NaN)
    (put AUTO_LOCK_TIMEOUT (Number_toString (λ _, []) 15) fresh_world)
  = (Ok (Num (inject_Z 15)), put AUTO_LOCK_TIMEOUT (Number_toString (λ _, []) 15) fresh_world)
  ∧ getAutoLockTimeout (λ _, NaN) fresh_world = (Ok (Num 5), fresh_world)
  ∧ getAutoLockTimeout (λ _, NaN) (put AUTO_LOCK_TIMEOUT (js "never") fresh_world)
    = (Ok NaN, put AUTO_LOCK_TIMEOUT (js "never") fresh_world).
Proof.
  split_and!.
  - apply (auto_lock_timeout (λ _, []) (λ _, NaN) 15 fresh_world). reflexivity.
  - apply (auto_lock_timeout (λ _, []) (λ _, NaN) 15 fresh_world). reflexivity.
  - apply (proj2 (proj2 (proj2 (auto_lock_timeout (λ _, []) (λ _, NaN) 15
             (put AUTO_LOCK_TIMEOUT (js "never") fresh_world)))) (js "never"));
      [reflexivity | discriminate | reflexivity].
Defined.

Definition cleared (w : world) : world :=
  {| prefs := delete APP_SETTINGS (delete AUTO_LOCK_TIMEOUT (delete BIOMETRIC_ENABLED
                (delete MASTER_PASSWORD_VALIDATION_KEY (delete VAULT_DATA (prefs w)))));
     random := random w |}.

Lemma cleared_lookup (w : world) (key : jsstring) :
  prefs (cleared w) !! key
  = if bool_decide (key ∈ [VAULT_DATA; MASTER_PASSWORD_VALIDATION_KEY; BIOMETRIC_ENABLED;
                            AUTO_LOCK_TIMEOUT; APP_SETTINGS])
    then None else prefs w !! key.
Proof.
  unfold cleared. cbn [prefs]. case_bool_decide as Hin.
  - repeat (apply elem_of_cons in Hin as [->|Hin]); [.. | by apply elem_of_nil in Hin];
      rewrite ?lookup_delete_ne by (vm_compute; discriminate); apply lookup_delete_eq.
  - rewrite !lookup_delete_ne; [done | ..]; intros <-; apply Hin; set_solver.
Qed.

(** X10. After [clearAllData] no vault exists, [getVaultData] returns
    [null], the biometric flag reads false and the timeout reads 5, whatever
    was stored before; every key other than the five of the application
    keeps its value, and the random source is not drawn from. *)
Lemma clearAllData_clears (lib : CryptoJS) (json : JSON) (nearest : Z → number)
    (password : jsstring) (w : world) :
  clearAllData w = (Ok (), cleared w)
  ∧ random (cleared w) = random w
  ∧ vaultExists json (cleared w) = (Ok false, cleared w)
  ∧ getVaultData lib json password (cleared w) = (Ok None, cleared w)
  ∧ isBiometricEnabled (cleared w) = (Ok false, cleared w)
  ∧ getAutoLockTimeout nearest (cleared w) = (Ok (Num 5), cleared w)
  ∧ (∀ key, key ∉ [VAULT_DATA; MASTER_PASSWORD_VALIDATION_KEY; BIOMETRIC_ENABLED;
                    AUTO_LOCK_TIMEOUT; APP_SETTINGS] →
            prefs (cleared w) !! key = prefs w !! key).
Proof.
  split_and!.
  - reflexivity.
  - reflexivity.
  - unfold vaultExists, getMasterPasswordValidation, try_catch, bind, Preferences_get.
    by rewrite cleared_lookup.
  - unfold getVaultData, try_catch, bind, Preferences_get. by rewrite cleared_lookup.
  - unfold isBiometricEnabled, try_catch, bind, Preferences_get, ret.
    by rewrite cleared_lookup.
  - unfold getAutoLockTimeout, try_catch, bind, Preferences_get.
    by rewrite cleared_lookup.
  - intros key Hkey. rewrite cleared_lookup. by rewrite bool_decide_eq_false_2.
Qed.

Lemma clearAllData_clears_witness :
  prefs (cleared (put (js "theme") (js "dark") (put VAULT_DATA (js "{}") fresh_world)))
    !! js "theme"
  = prefs (put (js "theme") (js "dark") (put VAULT_DATA (js "{}") fresh_world)) !! js "theme".
Proof.
  apply (clearAllData_clears Toy.cryptojs Toy.json (λ _, NaN) []
           (put (js "theme") (js "dark") (put VAULT_DATA (js "{}") fresh_world))).
  vm_compute. intros Hin. repeat (apply elem_of_cons in Hin as [Hin|Hin]; [discriminate |]).
  by apply elem_of_nil in Hin.
Defined.

(** ** Setting up and logging in *)

(** What [getMasterPasswordValidation] and [login] return depends on the
    store through the validation key only, and they leave the world as it
    is. *)
Lemma getMasterPasswordValidation_reads (json : JSON) (w : world) :
  ∃ v, getMasterPasswordValidation json w = (Ok v, w)
       ∧ ∀ w', prefs w' !! MASTER_PASSWORD_VALIDATION_KEY
               = prefs w !! MASTER_PASSWORD_VALIDATION_KEY →
               getMasterPasswordValidation json w' = (Ok v, w').
Proof.
  unfold getMasterPasswordValidation, try_catch, bind, Preferences_get, lift, ret.
  destruct (prefs w !! MASTER_PASSWORD_VALIDATION_KEY) as [[|c text]|] eqn:Hw.
  - exists None. split; [done |]. by intros w' ->.
  - destruct (JSON_parse json (c :: text)) as [parsed|e] eqn:Hparse.
    + exists (Some parsed). split; [done |]. intros w' ->. by rewrite Hparse.
    + exists None. split; [done |]. intros w' ->. by rewrite Hparse.
  - exists None. split; [done |]. by intros w' ->.
Qed.

Definition logged_in (password : jsstring) (s : session) : session :=
  {| isAuthenticated := true; hasVault := hasVault s; masterPassword := Some password |}.

Lemma login_reads (lib : CryptoJS) (json : JSON) (password : jsstring) (s : session)
    (w : world) :
  ∃ ok : bool,
    login lib json password s w = (Ok (ok, if ok then logged_in password s else s), w)
    ∧ (ok = true →
       ∃ text parsed testData,
         prefs w !! MASTER_PASSWORD_VALIDATION_KEY = Some text
         ∧ JSON_parse json text = Ok parsed
         ∧ as_EncryptedData parsed = Ok testData
         ∧ decryptData lib testData password = Ok MASTER_PASSWORD_VALIDATION)
    ∧ ∀ w', prefs w' !! MASTER_PASSWORD_VALIDATION_KEY
            = prefs w !! MASTER_PASSWORD_VALIDATION_KEY →
            login lib json password s w'
            = (Ok (ok, if ok then logged_in password s else s), w').
Proof.
  unfold login, getMasterPasswordValidation, try_catch, bind, Preferences_get, lift, ret.
  destruct (prefs w !! MASTER_PASSWORD_VALIDATION_KEY) as [[|c text]|] eqn:Hw.
  - exists false. split_and!; [done | done |]. by intros w' ->.
  - destruct (JSON_parse json (c :: text)) as [parsed|e] eqn:Hparse.
    + destruct (falsy parsed) eqn:Hfalsy.
      { exists false. split_and!; [done | done |]. intros w' ->. by rewrite Hparse, Hfalsy. }
      unfold validate_value.
      destruct (as_EncryptedData parsed) as [testData|e] eqn:Hshape.
      * destruct (validateMasterPassword lib password testData) eqn:Hvalid.
        -- exists true. split_and!; [done | |].
           ++ intros _. exists (c :: text), parsed, testData. split_and!; try done.
              unfold validateMasterPassword in Hvalid.
              destruct (decryptData lib testData password) as [plain|]; [| done].
              by apply bool_decide_eq_true in Hvalid as ->.
           ++ intros w' ->. by rewrite Hparse, Hfalsy, Hshape, Hvalid.
        -- exists false. split_and!; [done | done |].
           intros w' ->. by rewrite Hparse, Hfalsy, Hshape, Hvalid.
      * exists false. split_and!; [done | done |].
        intros w' ->. by rewrite Hparse, Hfalsy, Hshape.
    + exists false. split_and!; [done | done |]. intros w' ->. by rewrite Hparse.
  - exists false. split_and!; [done | done |]. by intros w' ->.
Qed.

(** X11. [login] never throws and never changes the store or the random
    source. When it returns true, the stored validation data is an envelope
    that decrypts to the sentinel under the password, and the session holds
    the password; when it returns false the session is as it was. *)
Lemma login_outcome (lib : CryptoJS) (json : JSON) (password : jsstring) (s : session)
    (w : world) :
  (login lib json password s w = (Ok (true, logged_in password s), w)
   ∧ ∃ text parsed testData,
       prefs w !! MASTER_PASSWORD_VALIDATION_KEY = Some text
       ∧ JSON_parse json text = Ok parsed
       ∧ as_EncryptedData parsed = Ok testData
       ∧ decryptData lib testData password = Ok MASTER_PASSWORD_VALIDATION)
  ∨ login lib json password s w = (Ok (false, s), w).
Proof.
  destruct (login_reads lib json password s w) as ([|] & Hlogin & Htrue & _).
  - left. split; [exact Hlogin | by apply Htrue].
  - by right.
Qed.

Lemma stored_other_keys (lib : CryptoJS) (json : JSON) (vault : VaultData)
    (masterPassword : jsstring) (w : world) (key : jsstring) :
  key ≠ VAULT_DATA → prefs (stored lib json vault masterPassword w) !! key = prefs w !! key.
Proof.
  intros Hkey. unfold stored. cbn [prefs].
  destruct (encryptData _ _ _ _).1; [by rewrite lookup_insert_ne | done].
Qed.

(** X12. Whether [storeVaultData] returns or throws, and it throws no
    other error than its own, it leaves every other key of the store as it
    was, and the whole store when it throws; so it changes neither the
    answer of [login] to any password nor the settings. *)
Lemma storeVaultData_frame (lib : CryptoJS) (json : JSON) (nearest : Z → number)
    (vault : VaultData) (masterPassword password : jsstring) (s : session) (w : world) :
  let run := storeVaultData lib json vault masterPassword w in
  (run.1 = Ok () ∨ run.1 = Throw saveFailed)
  ∧ (run.1 = Throw saveFailed → prefs run.2 = prefs w)
  ∧ (∀ key, key ≠ VAULT_DATA → prefs run.2 !! key = prefs w !! key)
  ∧ (login lib json password s run.2).1 = (login lib json password s w).1
  ∧ (isBiometricEnabled run.2).1 = (isBiometricEnabled w).1
  ∧ (getAutoLockTimeout nearest run.2).1 = (getAutoLockTimeout nearest w).1.
Proof.
  cbv zeta. rewrite storeVaultData_stored. cbn [fst snd].
  pose proof (stored_other_keys lib json vault masterPassword w) as Hframe.
  split_and!.
  - destruct (encryptData _ _ _ _).1; [by left | by right].
  - unfold stored. cbn [prefs]. by destruct (encryptData _ _ _ _).1.
  - exact Hframe.
  - destruct (login_reads lib json password s w) as (ok & Hlogin & _ & Hother).
    rewrite Hlogin, (Hother (stored lib json vault masterPassword w)); [done |].
    by apply Hframe.
  - unfold isBiometricEnabled, try_catch, bind, Preferences_get, ret.
    by rewrite Hframe.
  - unfold getAutoLockTimeout, try_catch, bind, Preferences_get.
    rewrite Hframe by done.
    by destruct (prefs w !! AUTO_LOCK_TIMEOUT) as [[|c text]|].
Qed.

Lemma storeVaultData_frame_witness :
  prefs (storeVaultData Toy.cryptojs Toy.json empty_vault (js "correct-horse-battery")
           fresh_world).2 !! BIOMETRIC_ENABLED
  = prefs fresh_world !! BIOMETRIC_ENABLED.
Proof.
  apply (storeVaultData_frame Toy.cryptojs Toy.json (λ _, NaN) empty_vault
           (js "correct-horse-battery") (js "guess")
           {| isAuthenticated := false; hasVault := false; masterPassword := None |}
           fresh_world).
  vm_compute. discriminate.
Defined.

Lemma getMasterPasswordValidation_envelope (json : JSON) (e : EncryptedData) (w : world) :
  json_round_trip json →
  prefs w !! MASTER_PASSWORD_VALIDATION_KEY
  = Some (JSON_stringify json (value_of_envelope e)) →
  getMasterPasswordValidation json w = (Ok (Some (value_of_envelope e)), w).
Proof.
  intros (_ & Henv & Hne) Hkey.
  unfold getMasterPasswordValidation, try_catch, bind, Preferences_get, lift, ret.
  rewrite Hkey. pose proof (Hne (value_of_envelope e)) as Hnonempty.
  pose proof (Henv e) as Hparse.
  destruct (JSON_stringify json (value_of_envelope e)) as [|c text]; [done |].
  rewrite Hparse. reflexivity.
Qed.

(** The world after the setup form ran through its [try] block: the
    validation data of the password and an empty vault sealed under it, or,
    when no validation data could be created, the store as it was. *)
Definition set_up (lib : CryptoJS) (json : JSON) (password : jsstring) (w : world) : world :=
  match createValidationData lib password (random w) with
  | (Ok validation, r) =>
      stored lib json initialVault password
        (put MASTER_PASSWORD_VALIDATION_KEY
           (JSON_stringify json (value_of_envelope validation))
           {| prefs := prefs w; random := r |})
  | (Throw _, r) => {| prefs := prefs w; random := r |}
  end.

(** X13. The setup form refuses two different passwords and a password of
    fewer than 8 code units without storing anything. A longer password
    that has a UTF-8 encoding completes the setup, and afterwards a vault
    exists, [login] accepts the password and keeps it in the session, and
    [getVaultData] under the password returns the empty vault. With a
    longer password that has none the setup fails and the store is as it
    was. *)
Lemma master_password_setup (lib : CryptoJS) (json : JSON) :
  cipher_round_trip lib → utf8_domain lib → json_round_trip json → json_well_formed json →
  ∀ (password confirmPassword : jsstring) (s : session) (w : world),
    (password ≠ confirmPassword →
     MasterPasswordSetup_handleSubmit lib json password confirmPassword w
     = (Ok PasswordMismatch, w))
    ∧ (password = confirmPassword → (length password < 8)%nat →
       MasterPasswordSetup_handleSubmit lib json password confirmPassword w
       = (Ok PasswordTooShort, w))
    ∧ (password = confirmPassword → (8 ≤ length password)%nat →
       well_formed password = true →
       let w' := set_up lib json password w in
       MasterPasswordSetup_handleSubmit lib json password confirmPassword w
       = (Ok SetupComplete, w')
       ∧ vaultExists json w' = (Ok true, w')
       ∧ login lib json password s w' = (Ok (true, logged_in password s), w')
       ∧ getVaultData lib json password w'
         = (Ok (Some (value_of_vault initialVault)), w'))
    ∧ (password = confirmPassword → (8 ≤ length password)%nat →
       well_formed password = false →
       let w' := set_up lib json password w in
       MasterPasswordSetup_handleSubmit lib json password confirmPassword w
       = (Ok SetupFailed, w')
       ∧ prefs w' = prefs w).
Proof.
  intros Hcipher Hutf8 Hjson Hwf password confirmPassword s w. split_and!.
  - intros Hne. unfold MasterPasswordSetup_handleSubmit.
    by rewrite bool_decide_eq_true_2.
  - intros <- Hshort. unfold MasterPasswordSetup_handleSubmit.
    rewrite bool_decide_eq_false_2 by (by intros []).
    by rewrite (proj2 (Nat.ltb_lt _ _) Hshort).
  - intros <- Hlong HP. cbv zeta.
    destruct (encryptData_returns lib MASTER_PASSWORD_VALIDATION password (random w) Hutf8
                sentinel_well_formed HP) as (validation & r & Hseal).
    fold (createValidationData lib password (random w)) in Hseal.
    set (w1 := put MASTER_PASSWORD_VALIDATION_KEY
                 (JSON_stringify json (value_of_envelope validation))
                 {| prefs := prefs w; random := r |}).
    assert (set_up lib json password w = stored lib json initialVault password w1) as Hw'.
    { unfold set_up. by rewrite Hseal. }
    rewrite Hw'.
    destruct (getVaultData_same_password lib json initialVault password w1
                Hcipher Hutf8 Hjson Hwf HP) as [Hstore Hget].
    assert (prefs (stored lib json initialVault password w1)
              !! MASTER_PASSWORD_VALIDATION_KEY
            = Some (JSON_stringify json (value_of_envelope validation))) as Hkey.
    { rewrite stored_other_keys by (vm_compute; discriminate).
      unfold w1, put. cbn [prefs]. apply lookup_insert_eq. }
    split_and!.
    + unfold MasterPasswordSetup_handleSubmit.
      rewrite bool_decide_eq_false_2 by (by intros []).
      rewrite (proj2 (Nat.ltb_ge _ _) Hlong).
      unfold storeMasterPasswordValidation, with_random, Preferences_set.
      unfold try_catch, bind, ret. cbv beta. rewrite Hseal.
      cbn [prefs random]. unfold w1, put in Hstore |- *. cbn [prefs random] in Hstore |- *.
      rewrite Hstore. reflexivity.
    + unfold vaultExists, try_catch, bind.
      rewrite (getMasterPasswordValidation_envelope json _ _ Hjson Hkey). reflexivity.
    + unfold login, try_catch, bind.
      rewrite (getMasterPasswordValidation_envelope json _ _ Hjson Hkey).
      rewrite envelope_not_falsy. unfold validate_value.
      rewrite as_EncryptedData_envelope.
      unfold validateMasterPassword.
      rewrite (decrypt_encrypt lib _ _ _ _ _ Hcipher Hseal).
      rewrite bool_decide_eq_true_2 by reflexivity. reflexivity.
    + exact Hget.
  - intros <- Hlong HP. cbv zeta.
    destruct (encryptData_throws lib MASTER_PASSWORD_VALIDATION password (random w) Hutf8 HP)
      as [e Hseal].
    fold (createValidationData lib password (random w)) in Hseal.
    unfold set_up. rewrite Hseal. split; [| reflexivity].
    unfold MasterPasswordSetup_handleSubmit.
    rewrite bool_decide_eq_false_2 by (by intros []).
    rewrite (proj2 (Nat.ltb_ge _ _) Hlong).
    unfold with_random, try_catch, bind, ret. cbv beta. rewrite Hseal. reflexivity.
Qed.

Lemma master_password_setup_witness :
  MasterPasswordSetup_handleSubmit Toy.cryptojs Toy.json (js "correct-horse-battery")
    (js "correct-horse-battery") fresh_world
  = (Ok SetupComplete, set_up Toy.cryptojs Toy.json (js "correct-horse-battery") fresh_world)
  ∧ MasterPasswordSetup_handleSubmit Toy.cryptojs Toy.json (js "short") (js "short")
      fresh_world = (Ok PasswordTooShort, fresh_world)
  ∧ MasterPasswordSetup_handleSubmit Toy.cryptojs Toy.json (js "correct-horse-battery")
      (js "correct-horse-batterx") fresh_world = (Ok PasswordMismatch, fresh_world)
  ∧ MasterPasswordSetup_handleSubmit Toy.cryptojs Toy.json (lone_surrogate ++ js "1234567")
      (lone_surrogate ++ js "1234567") fresh_world
    = (Ok SetupFailed, set_up Toy.cryptojs Toy.json (lone_surrogate ++ js "1234567")
                         fresh_world).
Proof.
  split_and!.
  - apply (proj1 (proj2 (proj2 (master_password_setup Toy.cryptojs Toy.json Toy.cipher_law
                           Toy.utf8_law Toy.json_law Toy.json_text_law
                           (js "correct-horse-battery") (js "correct-horse-battery")
                           {| isAuthenticated := false; hasVault := false;
                              masterPassword := None |} fresh_world))));
      [reflexivity | vm_compute; lia | reflexivity].
  - apply (proj1 (proj2 (master_password_setup Toy.cryptojs Toy.json Toy.cipher_law
                           Toy.utf8_law Toy.json_law Toy.json_text_law
                           (js "short") (js "short")
                           {| isAuthenticated := false; hasVault := false;
                              masterPassword := None |} fresh_world)));
      [reflexivity | vm_compute; lia].
  - apply (proj1 (master_password_setup Toy.cryptojs Toy.json Toy.cipher_law
                    Toy.utf8_law Toy.json_law Toy.json_text_law
                    (js "correct-horse-battery") (js "correct-horse-batterx")
                    {| isAuthenticated := false; hasVault := false;
                       masterPassword := None |} fresh_world)).
    discriminate.
  - apply (proj2 (proj2 (proj2 (master_password_setup Toy.cryptojs Toy.json Toy.cipher_law
                           Toy.utf8_law Toy.json_law Toy.json_text_law
                           (lone_surrogate ++ js "1234567") (lone_surrogate ++ js "1234567")
                           {| isAuthenticated := false; hasVault := false;
                              masterPassword := None |} fresh_world))));
      [reflexivity | vm_compute; lia | reflexivity].
Defined.

(** ** The entries of the vault *)

Section VaultProperties.

Variable lib : CryptoJS.
Variable json : JSON.

Definition saved (newVaultData : VaultData) (st : vault_state) : vault_state :=
  {| auth := auth st; vaultData := newVaultData; editingEntry := editingEntry st |}.

Definition logged_out (st : vault_state) : vault_state :=
  {| auth := logout (auth st); vaultData := vaultData st; editingEntry := editingEntry st |}.

Section Laws.

Hypothesis Hcipher : cipher_round_trip lib.
Hypothesis Hutf8 : utf8_domain lib.
Hypothesis Hjson : json_round_trip json.
Hypothesis Hwf : json_well_formed json.

(** With a session password that has a UTF-8 encoding the vault is stored
    and can be read back. *)
Lemma saveVaultData_with_password newVaultData st w P :
  masterPassword (auth st) = Some P → P ≠ [] → well_formed P = true →
  saveVaultData lib json newVaultData st w
  = (Ok (saved newVaultData st), stored lib json newVaultData P w)
  ∧ getVaultData lib json P (stored lib json newVaultData P w)
    = (Ok (Some (value_of_vault newVaultData)), stored lib json newVaultData P w).
Proof.
  intros HP Hne Hwell.
  destruct (getVaultData_same_password lib json newVaultData P w Hcipher Hutf8 Hjson Hwf
              Hwell) as [Hstore Hget].
  split; [| exact Hget].
  unfold saveVaultData, try_catch, bind. rewrite HP.
  destruct P as [|c P]; [done |]. rewrite Hstore. reflexivity.
Qed.

(** With one that has none, [storeVaultData] throws and the handler keeps
    the state. *)
Lemma saveVaultData_unsealed newVaultData st w P :
  masterPassword (auth st) = Some P → well_formed P = false →
  saveVaultData lib json newVaultData st w = (Ok st, stored lib json newVaultData P w)
  ∧ prefs (stored lib json newVaultData P w) = prefs w.
Proof.
  intros HP Hwell.
  destruct (storeVaultData_throws lib json newVaultData P w Hutf8 Hwell) as [Hstore Hprefs].
  split; [| exact Hprefs].
  unfold saveVaultData, try_catch, bind. rewrite HP.
  destruct P as [|c P]; [done |]. rewrite Hstore. reflexivity.
Qed.

End Laws.

Lemma saveVaultData_without_password newVaultData st w :
  masterPassword (auth st) = None ∨ masterPassword (auth st) = Some [] →
  saveVaultData lib json newVaultData st w = (Ok (logged_out st), w).
Proof.
  intros HP. unfold saveVaultData, try_catch, bind. by destruct HP as [-> | ->].
Qed.

(** X14. With a master password in memory that has a UTF-8 encoding,
    [saveVaultData] stores the new vault and makes it the vault of the
    component, and reading the store under that password returns this very
    vault. With one that has none, storing throws, and the component and the
    store keep what they had. Without a master password it stores nothing,
    keeps the vault of the component and logs out. *)
Lemma saveVaultData_persists :
  cipher_round_trip lib → utf8_domain lib → json_round_trip json → json_well_formed json →
  ∀ (newVaultData : VaultData) (st : vault_state) (w : world),
    (∀ P, masterPassword (auth st) = Some P → P ≠ [] → well_formed P = true →
       ∃ w', saveVaultData lib json newVaultData st w = (Ok (saved newVaultData st), w')
             ∧ getVaultData lib json P w'
               = (Ok (Some (value_of_vault (vaultData (saved newVaultData st)))), w'))
    ∧ (∀ P, masterPassword (auth st) = Some P → well_formed P = false →
         ∃ w', saveVaultData lib json newVaultData st w = (Ok st, w')
               ∧ prefs w' = prefs w)
    ∧ (masterPassword (auth st) = None ∨ masterPassword (auth st) = Some [] →
       saveVaultData lib json newVaultData st w = (Ok (logged_out st), w)
       ∧ vaultData (logged_out st) = vaultData st
       ∧ masterPassword (auth (logged_out st)) = None
       ∧ isAuthenticated (auth (logged_out st)) = false).
Proof.
  intros Hcipher Hutf8 Hjson Hwf newVaultData st w. split_and!.
  - intros P HP Hne Hwell. exists (stored lib json newVaultData P w).
    by apply saveVaultData_with_password.
  - intros P HP Hwell. exists (stored lib json newVaultData P w).
    by apply saveVaultData_unsealed.
  - intros HP. split; [by apply saveVaultData_without_password | done].
Qed.

(** X15. Deleting an entry keeps, in their order, exactly the entries with
    another identifier, and keeps the version; with a master password in
    memory that has a UTF-8 encoding the vault that is read back from the
    store is the vault without the entry. *)
Lemma handleDeleteEntry_removes :
  cipher_round_trip lib → utf8_domain lib → json_round_trip json → json_well_formed json →
  ∀ (entryId P : jsstring) (st : vault_state) (w : world),
    masterPassword (auth st) = Some P → P ≠ [] → well_formed P = true →
    ∃ st' w',
      handleDeleteEntry lib json entryId st w = (Ok st', w')
      ∧ getVaultData lib json P w' = (Ok (Some (value_of_vault (vaultData st'))), w')
      ∧ version (vaultData st') = version (vaultData st)
      ∧ entries (vaultData st') `sublist_of` entries (vaultData st)
      ∧ (∀ entry, entry ∈ entries (vaultData st')
                  ↔ entry ∈ entries (vaultData st) ∧ id entry ≠ entryId)
      ∧ entryId ∉ id <$> entries (vaultData st').
Proof.
  intros Hcipher Hutf8 Hjson Hwf entryId P st w HP Hne Hwell.
  destruct (saveVaultData_with_password Hcipher Hutf8 Hjson Hwf
              (with_entries (vaultData st) (remainingEntries (vaultData st) entryId))
              st w P HP Hne Hwell) as [Hsave Hget].
  eexists _, _. split; [exact Hsave |].
  cbn [saved vaultData with_entries entries version]. split_and!.
  - exact Hget.
  - done.
  - unfold remainingEntries. induction (entries (vaultData st)) as [|e l IH]; simpl.
    + constructor.
    + case_bool_decide; [by constructor | by apply sublist_cons].
  - intros entry. unfold remainingEntries.
    rewrite list_elem_of_In, List.filter_In, <- list_elem_of_In, bool_decide_eq_true. done.
  - unfold remainingEntries. intros (entry & Hid & Hin)%list_elem_of_fmap.
    apply list_elem_of_In, List.filter_In in Hin as [_ Hdiff].
    apply bool_decide_eq_true in Hdiff. congruence.
Qed.

End VaultProperties.

Definition example_entry (entryId : jsstring) : PasswordEntry :=
  {| id := entryId; title := js "Mail"; website := js "mail.example.org";
     username := js "ada"; password := js "b5OHNKPR^QMJG%4A"; notes := [];
     createdAt := js "2025-01-01T00:00:00.000Z"; updatedAt := js "2025-01-01T00:00:00.000Z";
     tags := [js "work"; js "mail"] |}.

Definition example_data : EntryData.t :=
  {| EntryData.title := js "Bank"; EntryData.website := js "bank.example.org";
     EntryData.username := js "ada"; EntryData.password := js "xy6CE5z%b*wDAFBc";
     EntryData.notes := js "joint account"; EntryData.tags := [js "money"] |}.

Definition example_state : vault_state :=
  {| auth := {| isAuthenticated := true; hasVault := true;
                masterPassword := Some (js "correct-horse-battery") |};
     vaultData := {| entries := [example_entry (js "a"); example_entry (js "b")];
                     version := js "1.0.0" |};
     editingEntry := Some (example_entry (js "a")) |}.

Lemma saveVaultData_persists_witness :
  ∃ w', saveVaultData Toy.cryptojs Toy.json empty_vault example_state fresh_world
        = (Ok (saved empty_vault example_state), w')
        ∧ getVaultData Toy.cryptojs Toy.json (js "correct-horse-battery") w'
          = (Ok (Some (value_of_vault (vaultData (saved empty_vault example_state)))), w').
Proof.
  apply (proj1 (saveVaultData_persists Toy.cryptojs Toy.json Toy.cipher_law Toy.utf8_law
                  Toy.json_law Toy.json_text_law empty_vault example_state fresh_world)
           (js "correct-horse-battery"));
    [reflexivity | discriminate | reflexivity].
Defined.

Lemma handleDeleteEntry_removes_witness :
  ∃ st' w',
    handleDeleteEntry Toy.cryptojs Toy.json (js "a") example_state fresh_world = (Ok st', w')
    ∧ getVaultData Toy.cryptojs Toy.json (js "correct-horse-battery") w'
      = (Ok (Some (value_of_vault (vaultData st'))), w')
    ∧ version (vaultData st') = version (vaultData example_state)
    ∧ entries (vaultData st') `sublist_of` entries (vaultData example_state)
    ∧ (∀ entry, entry ∈ entries (vaultData st')
                ↔ entry ∈ entries (vaultData example_state) ∧ id entry ≠ js "a")
    ∧ js "a" ∉ id <$> entries (vaultData st').
Proof.
  apply (handleDeleteEntry_removes Toy.cryptojs Toy.json Toy.cipher_law Toy.utf8_law
           Toy.json_law Toy.json_text_law
           (js "a") (js "correct-horse-battery") example_state fresh_world);
    [reflexivity | discriminate | reflexivity].
Defined.

(** X16. Saving the dialog while an entry is being edited keeps the number
    and the order of the entries and every identifier and creation date; at
    each position an entry with another identifier is unchanged, and an entry
    with the identifier of the edited one takes the fields of the dialog and
    the current time as date of modification. Saving without an edited entry
    appends one entry with the new identifier, created and modified now, and
    keeps all the others. In both cases, with a master password in memory
    that has a UTF-8 encoding, the vault read back from the store is the new
    one. *)
Lemma handleSaveEntry_saves (lib : CryptoJS) (json : JSON) :
  cipher_round_trip lib → utf8_domain lib → json_round_trip json → json_well_formed json →
  ∀ (entryData : EntryData.t) (now uuid P : jsstring) (st : vault_state) (w : world),
    masterPassword (auth st) = Some P → P ≠ [] → well_formed P = true →
    ∃ st' w',
      handleSaveEntry lib json entryData now uuid st w = (Ok st', w')
      ∧ getVaultData lib json P w' = (Ok (Some (value_of_vault (vaultData st'))), w')
      ∧ version (vaultData st') = version (vaultData st)
      ∧ match editingEntry st with
        | Some editing =>
            id <$> entries (vaultData st') = id <$> entries (vaultData st)
            ∧ createdAt <$> entries (vaultData st') = createdAt <$> entries (vaultData st)
            ∧ ∀ i entry, entries (vaultData st) !! i = Some entry →
                entries (vaultData st') !! i
                = Some (if bool_decide (id entry = id editing)
                        then updated_entry entry entryData now else entry)
        | None =>
            entries (vaultData st')
            = entries (vaultData st) ++ [new_entry entryData uuid now]
        end.
Proof.
  intros Hcipher Hutf8 Hjson Hwf entryData now uuid P st w HP Hne Hwell.
  pose proof (λ v, saveVaultData_with_password lib json Hcipher Hutf8 Hjson Hwf v st w P
                     HP Hne Hwell) as Hsave.
  unfold handleSaveEntry. destruct (editingEntry st) as [editing|] eqn:Hedit.
  - eexists _, _. split; [apply Hsave |].
    cbn [saved vaultData with_entries entries version]. split_and!.
    + apply Hsave.
    + done.
    + unfold updatedEntries. rewrite <- list_fmap_compose. apply list_fmap_ext.
      intros i entry _. simpl. by case_bool_decide.
    + unfold updatedEntries. rewrite <- list_fmap_compose. apply list_fmap_ext.
      intros i entry _. simpl. by case_bool_decide.
    + intros i entry Hi. unfold updatedEntries. by rewrite list_lookup_fmap, Hi.
  - eexists _, _. split; [apply Hsave |].
    cbn [saved vaultData with_entries entries version]. split_and!; try done.
    apply Hsave.
Qed.

Lemma handleSaveEntry_saves_witness :
  ∃ st' w',
    handleSaveEntry Toy.cryptojs Toy.json example_data (js "2025-06-01T12:00:00.000Z")
      (js "c") example_state fresh_world = (Ok st', w')
    ∧ getVaultData Toy.cryptojs Toy.json (js "correct-horse-battery") w'
      = (Ok (Some (value_of_vault (vaultData st'))), w')
    ∧ version (vaultData st') = version (vaultData example_state)
    ∧ id <$> entries (vaultData st') = id <$> entries (vaultData example_state)
    ∧ createdAt <$> entries (vaultData st') = createdAt <$> entries (vaultData example_state)
    ∧ ∀ i entry, entries (vaultData example_state) !! i = Some entry →
        entries (vaultData st') !! i
        = Some (if bool_decide (id entry = id (example_entry (js "a")))
                then updated_entry entry example_data (js "2025-06-01T12:00:00.000Z")
                else entry).
Proof.
  apply (handleSaveEntry_saves Toy.cryptojs Toy.json Toy.cipher_law Toy.utf8_law
           Toy.json_law Toy.json_text_law
           example_data (js "2025-06-01T12:00:00.000Z") (js "c")
           (js "correct-horse-battery") example_state fresh_world);
    [reflexivity | discriminate | reflexivity].
Defined.

(** X17. That no two entries share an identifier is kept by an edit and by
    a deletion, and by an addition exactly when the new identifier is not
    yet in the vault. *)
Lemma entry_ids_unique (vault : VaultData) (editing : PasswordEntry)
    (entryData : EntryData.t) (now uuid entryId : jsstring) :
  NoDup (id <$> entries vault) →
  NoDup (id <$> updatedEntries vault editing entryData now)
  ∧ NoDup (id <$> remainingEntries vault entryId)
  ∧ (NoDup (id <$> (entries vault ++ [new_entry entryData uuid now]))
     ↔ uuid ∉ id <$> entries vault).
Proof.
  intros Hnodup. split_and!.
  - replace (id <$> updatedEntries vault editing entryData now)
      with (id <$> entries vault); [done |].
    unfold updatedEntries. rewrite <- list_fmap_compose. apply list_fmap_ext.
    intros i entry _. simpl. by case_bool_decide.
  - unfold remainingEntries. induction (entries vault) as [|e l IH]; simpl; [constructor |].
    apply NoDup_cons in Hnodup as [Hnotin Hnodup].
    case_bool_decide; [| by apply IH]. csimpl. apply NoDup_cons. split; [| by apply IH].
    intros (e' & Hid & Hin)%list_elem_of_fmap. apply Hnotin.
    apply list_elem_of_fmap. exists e'. split; [done |].
    apply list_elem_of_In, List.filter_In in Hin. apply list_elem_of_In, Hin.
  - rewrite fmap_app. simpl. rewrite NoDup_app. split.
    + intros (_ & Hdisjoint & _) Hin. apply (Hdisjoint uuid Hin). apply list_elem_of_here.
    + intros Hfresh. split_and!; [done | | apply NoDup_singleton].
      intros x Hx ->%list_elem_of_singleton. done.
Qed.

Lemma entry_ids_unique_witness :
  NoDup (id <$> updatedEntries (vaultData example_state) (example_entry (js "a"))
                  example_data (js "2025-06-01T12:00:00.000Z"))
  ∧ NoDup (id <$> remainingEntries (vaultData example_state) (js "a")).
Proof.
  destruct (entry_ids_unique (vaultData example_state) (example_entry (js "a"))
              example_data (js "2025-06-01T12:00:00.000Z") (js "c") (js "a"))
    as (Hedit & Hdelete & _).
  - vm_compute. apply NoDup_cons. split.
    + intros Hin. apply list_elem_of_singleton in Hin. discriminate.
    + apply NoDup_singleton.
  - split; [exact Hedit | exact Hdelete].
Defined.

(** ** Search, tag filter and list of tags *)

Definition matches_search (toLowerCase : jsstring → jsstring) (searchQuery : jsstring)
    (entry : PasswordEntry) : bool :=
  contains (toLowerCase searchQuery) (toLowerCase (title entry))
  || contains (toLowerCase searchQuery) (toLowerCase (website entry))
  || contains (toLowerCase searchQuery) (toLowerCase (username entry))
  || contains (toLowerCase searchQuery) (toLowerCase (notes entry)).

Lemma filter_sublist {A} (p : A → bool) (l : list A) : List.filter p l `sublist_of` l.
Proof.
  induction l as [|x l IH]; simpl; [constructor |].
  destruct (p x); [by constructor | by apply sublist_cons].
Qed.

Lemma elem_of_filter {A} (p : A → bool) (l : list A) (x : A) :
  x ∈ List.filter p l ↔ x ∈ l ∧ p x = true.
Proof. by rewrite list_elem_of_In, List.filter_In, <- list_elem_of_In. Qed.

(** X18. The entries shown are entries of the vault, in their order: all of
    them when there is neither search text nor tag, and otherwise exactly
    those in which the lower-cased search text occurs in the lower-cased
    title, website, user name or notes (when there is a search text) and
    that carry the selected tag (when there is one). The password of an
    entry is never searched. *)
Lemma filteredEntries_shown (toLowerCase : jsstring → jsstring) (vault : VaultData)
    (searchQuery : jsstring) (selectedTag : option jsstring) :
  filteredEntries toLowerCase vault searchQuery selectedTag `sublist_of` entries vault
  ∧ (∀ entry,
       entry ∈ filteredEntries toLowerCase vault searchQuery selectedTag
       ↔ entry ∈ entries vault
         ∧ (searchQuery ≠ [] → matches_search toLowerCase searchQuery entry = true)
         ∧ (∀ tag, selectedTag = Some tag → tag ≠ [] → tag ∈ tags entry))
  ∧ (searchQuery = [] → selectedTag = None ∨ selectedTag = Some [] →
     filteredEntries toLowerCase vault searchQuery selectedTag = entries vault)
  ∧ (∀ (entry : PasswordEntry) (secret : jsstring),
       matches_search toLowerCase searchQuery entry
       = matches_search toLowerCase searchQuery
           {| id := id entry; title := title entry; website := website entry;
              username := username entry; password := secret; notes := notes entry;
              createdAt := createdAt entry; updatedAt := updatedAt entry;
              tags := tags entry |}).
Proof.
  split_and!.
  - unfold filteredEntries. cbv zeta.
    destruct searchQuery as [|c q], selectedTag as [[|t tag]|]; try done;
      repeat (etrans; [apply filter_sublist |]); done.
  - intros entry. unfold filteredEntries. cbv zeta. fold (matches_search toLowerCase).
    destruct searchQuery as [|c q], selectedTag as [[|t tag]|];
      rewrite ?elem_of_filter, ?bool_decide_eq_true;
      change (λ entry0, contains (toLowerCase ?q) _ || _ || _ || _)
        with (matches_search toLowerCase q) in *.
    all: split;
      [ intros H; repeat (destruct H as [H ?]); split_and!; try done;
        intros ? [= <-]; done
      | intros (Hin & Hq & Htag); repeat split; try done;
        first [ by apply Hq | by apply (Htag _ eq_refl) ] ].
  - intros -> [-> | ->]; done.
  - done.
Qed.

Lemma filteredEntries_shown_witness :
  filteredEntries (map fold_case) (vaultData example_state) [] None
  = entries (vaultData example_state).
Proof.
  apply (filteredEntries_shown (map fold_case) (vaultData example_state) [] None);
    [reflexivity | left; reflexivity].
Defined.

(** *** The order of the tags *)

Definition str_lt (a b : jsstring) : Prop := str_le a b ∧ a ≠ b.

Lemma str_leb_total (a b : jsstring) : str_leb a b = true ∨ str_leb b a = true.
Proof.
  revert b. induction a as [|x a IH]; intros [|y b]; simpl; auto.
  destruct (N.ltb_spec x y), (N.ltb_spec y x); auto; lia.
Qed.

Lemma str_leb_trans (a b c : jsstring) :
  str_leb a b = true → str_leb b c = true → str_leb a c = true.
Proof.
  revert b c. induction a as [|x a IH]; intros [|y b] [|z c]; simpl; try done.
  destruct (N.ltb_spec x y), (N.ltb_spec y x), (N.ltb_spec y z), (N.ltb_spec z y),
    (N.ltb_spec x z), (N.ltb_spec z x); try done; try lia.
  apply IH.
Qed.

Lemma str_leb_antisym (a b : jsstring) :
  str_leb a b = true → str_leb b a = true → a = b.
Proof.
  revert b. induction a as [|x a IH]; intros [|y b]; simpl; try done.
  destruct (N.ltb_spec x y), (N.ltb_spec y x); try done; try lia.
  intros Hab Hba. f_equal; [lia | by apply IH].
Qed.

Global Instance str_le_total : Total str_le.
Proof. intros a b. apply str_leb_total. Qed.

Global Instance str_le_trans : Transitive str_le.
Proof. intros a b c. apply str_leb_trans. Qed.

Lemma Set_from_acc (array set : list jsstring) :
  NoDup set →
  NoDup (fold_left (λ set x, if bool_decide (x ∈ set) then set else set ++ [x]) array set)
  ∧ ∀ x, x ∈ fold_left (λ set x, if bool_decide (x ∈ set) then set else set ++ [x]) array set
         ↔ x ∈ set ∨ x ∈ array.
Proof.
  revert set. induction array as [|y array IH]; intros set Hnodup; simpl.
  - split; [done |]. intros x. rewrite elem_of_nil. tauto.
  - case_bool_decide as Hy.
    + destruct (IH set Hnodup) as [Hnd Hmem]. split; [done |].
      intros x. rewrite Hmem, elem_of_cons. split; [tauto |].
      intros [? | [-> | ?]]; tauto.
    + destruct (IH (set ++ [y])) as [Hnd Hmem].
      { apply NoDup_app. split_and!; [done | | apply NoDup_singleton].
        intros x Hx ->%list_elem_of_singleton. done. }
      split; [done |]. intros x.
      rewrite Hmem, elem_of_app, list_elem_of_singleton, elem_of_cons. tauto.
Qed.

(** X19. The list of tags holds exactly the tags that some entry carries,
    each once, in ascending order of their code units. *)
Lemma getAllTags_sorted (vault : VaultData) :
  (∀ tag, tag ∈ getAllTags vault ↔ ∃ entry, entry ∈ entries vault ∧ tag ∈ tags entry)
  ∧ NoDup (getAllTags vault)
  ∧ StronglySorted str_lt (getAllTags vault).
Proof.
  unfold getAllTags. cbv zeta.
  destruct (Set_from_acc (flat_map tags (entries vault)) [] (NoDup_nil_2))
    as [Hnodup Hmem].
  fold (Set_from (flat_map tags (entries vault))) in Hnodup, Hmem.
  assert (NoDup (merge_sort str_le (Set_from (flat_map tags (entries vault))))) as Hnd.
  { by rewrite merge_sort_Permutation. }
  split_and!.
  - intros tag. rewrite merge_sort_Permutation, Hmem, elem_of_nil.
    rewrite list_elem_of_In, in_flat_map. setoid_rewrite list_elem_of_In. tauto.
  - exact Hnd.
  - pose proof (StronglySorted_merge_sort str_le
                  (Set_from (flat_map tags (entries vault)))) as Hsorted.
    revert Hnd Hsorted. generalize (merge_sort str_le (Set_from (flat_map tags (entries vault)))).
    intros l Hnd Hsorted. induction Hsorted as [|x l Hsorted IH Hall]; [constructor |].
    apply NoDup_cons in Hnd as [Hx Hnd]. constructor; [by apply IH |].
    apply Forall_forall. intros y Hy. split.
    + by eapply Forall_forall in Hall.
    + intros ->. done.
Qed.

(** ** The password generator, continued *)

Lemma getRandomChar_advance (str : jsstring) (r : rng) : (getRandomChar str r).2 = advance r.
Proof. done. Qed.

Lemma shuffle_loop_pos (i : nat) (array : jsstring) (r : rng) :
  pos (shuffle_loop i array r).2 = (pos r + i)%nat ∧ tape (shuffle_loop i array r).2 = tape r.
Proof.
  revert array r. induction i as [|i IH]; intros array r; cbn [shuffle_loop].
  - simpl. split; [lia | done].
  - unfold getRandomValues1.
    destruct (IH (swap array (S i)
                    (N.to_nat (tape r (pos r) `mod` 256)%N `mod` (S i + 1))%nat)
                {| tape := tape r; pos := S (pos r) |}) as [-> ->].
    simpl. split; [lia | done].
Qed.

(** The random source after the first part of [generatePassword]: one draw
    for each required character. *)
Lemma buildCharset_pos (o : PasswordOptions) (r : rng) :
  pos (source (buildCharset o r)) = (pos r + length (requiredChars (buildCharset o r)))%nat
  ∧ tape (source (buildCharset o r)) = tape r.
Proof.
  assert (∀ n str acc r0,
            str ≠ [] →
            length (draw_chars n str acc r0).1 = (length acc + n)%nat) as Hlen.
  { intros n str acc r0 Hne. destruct (draw_chars_spec n str acc r0 Hne) as (d & -> & <- & _).
    by rewrite length_app. }
  unfold buildCharset.
  set (b0 := {| charset := []; requiredChars := []; source := r |}).
  assert (pos (source b0) = (pos r + length (requiredChars b0))%nat
          ∧ tape (source b0) = tape r) as H0 by (simpl; split; [lia | done]).
  assert (∀ b, pos (source b) = (pos r + length (requiredChars b))%nat ∧ tape (source b) = tape r →
               pos (source (addUppercase o b))
               = (pos r + length (requiredChars (addUppercase o b)))%nat
               ∧ tape (source (addUppercase o b)) = tape r) as HU.
  { intros b [Hp Ht]. unfold addUppercase. destruct (includeUppercase o); [| done].
    destruct (getRandomChar_spec (upperChars o) (source b) (upperChars_nonempty o))
      as (c & -> & _). simpl. rewrite length_app. simpl. split; [lia | done]. }
  assert (∀ b, pos (source b) = (pos r + length (requiredChars b))%nat ∧ tape (source b) = tape r →
               pos (source (addLowercase o b))
               = (pos r + length (requiredChars (addLowercase o b)))%nat
               ∧ tape (source (addLowercase o b)) = tape r) as HL.
  { intros b [Hp Ht]. unfold addLowercase. destruct (includeLowercase o); [| done].
    destruct (getRandomChar_spec (lowerChars o) (source b) (lowerChars_nonempty o))
      as (c & -> & _). simpl. rewrite length_app. simpl. split; [lia | done]. }
  assert (∀ b, pos (source b) = (pos r + length (requiredChars b))%nat ∧ tape (source b) = tape r →
               pos (source (addNumbers o b))
               = (pos r + length (requiredChars (addNumbers o b)))%nat
               ∧ tape (source (addNumbers o b)) = tape r) as HD.
  { intros b [Hp Ht]. unfold addNumbers. destruct (includeNumbers o); [| done].
    pose proof (Hlen (Z.to_nat (or_one (numberCount o))) (numberChars o) (requiredChars b)
                  (source b) (numberChars_nonempty o)) as Hl.
    destruct (draw_chars_pos (Z.to_nat (or_one (numberCount o))) (numberChars o)
                (requiredChars b) (source b)) as [Hp' Ht'].
    destruct (draw_chars _ _ _ _) as [req r']. simpl in *. split; [lia | congruence]. }
  assert (∀ b, pos (source b) = (pos r + length (requiredChars b))%nat ∧ tape (source b) = tape r →
               pos (source (addSpecialChars o b))
               = (pos r + length (requiredChars (addSpecialChars o b)))%nat
               ∧ tape (source (addSpecialChars o b)) = tape r) as HS.
  { intros b [Hp Ht]. unfold addSpecialChars. destruct (includeSpecialChars o); [| done].
    pose proof (Hlen (Z.to_nat (or_one (specialCharCount o))) (specialChars o)
                  (requiredChars b) (source b) (specialChars_nonempty o)) as Hl.
    destruct (draw_chars_pos (Z.to_nat (or_one (specialCharCount o))) (specialChars o)
                (requiredChars b) (source b)) as [Hp' Ht'].
    destruct (draw_chars _ _ _ _) as [req r']. simpl in *. split; [lia | congruence]. }
  by apply HS, HD, HL, HU.
Qed.

(** X20. [generatePassword] returns a password exactly when a class is
    enabled and the required characters fit the length. A call that returns
    has drawn one random byte for each character and one for each step of
    the shuffle, of which there is one less than characters (and none for an
    empty password). A call that throws has drawn one byte for each required
    character. *)
Lemma generatePassword_draws (o : PasswordOptions) (r : rng) :
  ((∃ pw r', generatePassword o r = (Ok pw, r'))
   ↔ anyClass o = true ∧ requiredCount o ≤ opt_length o)
  ∧ (∀ pw r', generatePassword o r = (Ok pw, r') →
       tape r' = tape r
       ∧ Z.of_nat (pos r') = Z.of_nat (pos r) + opt_length o + Z.max 0 (opt_length o - 1))
  ∧ (∀ e r', generatePassword o r = (Throw e, r') →
       tape r' = tape r ∧ Z.of_nat (pos r') = Z.of_nat (pos r) + requiredCount o).
Proof.
  split_and!.
  - split.
    + intros (pw & r' & Hgen). by destruct (generatePassword_ok _ _ _ _ Hgen) as (? & ? & _).
    + intros [Hany Hfit]. by apply generatePassword_returns.
  - intros pw r' Hgen.
    destruct (generatePassword_ok _ _ _ _ Hgen) as (Hany & Hfit & _).
    pose proof (requiredChars_length o r) as Hreq.
    destruct (buildCharset_pos o r) as [Hpos Htape].
    revert Hgen. unfold generatePassword. cbv zeta. rewrite Hreq.
    case_bool_decide as Hcs; [done |].
    destruct (Z.ltb_spec (opt_length o - requiredCount o) 0); [done |].
    destruct (draw_chars_spec (Z.to_nat (opt_length o - requiredCount o))
                (charset (buildCharset o r)) (requiredChars (buildCharset o r))
                (source (buildCharset o r)) Hcs) as (fill & Hfill & Hlen & _).
    destruct (draw_chars_pos (Z.to_nat (opt_length o - requiredCount o))
                (charset (buildCharset o r)) (requiredChars (buildCharset o r))
                (source (buildCharset o r))) as [Hp1 Ht1].
    destruct (draw_chars _ _ _ _) as [password r1]. simpl in Hfill, Hp1, Ht1. subst password.
    unfold shuffleString.
    destruct (shuffle_loop_pos (length (requiredChars (buildCharset o r) ++ fill) - 1)
                (requiredChars (buildCharset o r) ++ fill) r1) as [Hp2 Ht2].
    destruct (shuffle_loop _ _ _) as [shuffled r2]. simpl in Hp2, Ht2.
    intros [= _ <-]. split; [congruence |].
    rewrite length_app in Hp2. lia.
  - intros e r' Hgen.
    pose proof (requiredChars_length o r) as Hreq.
    destruct (buildCharset_pos o r) as [Hpos Htape].
    revert Hgen. unfold generatePassword. cbv zeta. rewrite Hreq.
    case_bool_decide as Hcs; [intros [= _ <-]; split; [done | lia] |].
    destruct (Z.ltb_spec (opt_length o - requiredCount o) 0);
      [intros [= _ <-]; split; [done | lia] |].
    destruct (draw_chars _ _ _ _) as [password r1].
    by destruct (shuffleString _ _).
Qed.

Lemma generatePassword_draws_witness :
  tape (shuffleString (js "Ab45%^GHJKMNOPQR") {| tape := N.of_nat; pos := 16 |}).2
  = tape counting
  ∧ Z.of_nat (pos (shuffleString (js "Ab45%^GHJKMNOPQR") {| tape := N.of_nat; pos := 16 |}).2)
    = Z.of_nat (pos counting) + opt_length DEFAULT_PASSWORD_OPTIONS
      + Z.max 0 (opt_length DEFAULT_PASSWORD_OPTIONS - 1).
Proof.
  apply (proj1 (proj2 (generatePassword_draws DEFAULT_PASSWORD_OPTIONS counting))
           (js "b5OHNKPR^QMJG%4A")).
  vm_compute. reflexivity.
Defined.

(** What a class contributes is drawn from its alphabet when enabled. *)
Lemma part_subset enabled n str drawn :
  part enabled n str drawn → Forall (λ c, c ∈ enabled_chars enabled str) drawn.
Proof.
  unfold part, enabled_chars. destruct enabled.
  - by intros [_ Hall].
  - intros ->. constructor.
Qed.

(** X21. Every character of a password that [generatePassword] returns
    belongs to the alphabet of an enabled class; so the password holds no
    upper-case letter, lower-case letter, digit or special character whose
    class is disabled. *)
Lemma generatePassword_alphabet (o : PasswordOptions) (r : rng) (pw : jsstring) (r' : rng) :
  generatePassword o r = (Ok pw, r') →
  Forall (λ c, c ∈ charset (buildCharset o r)) pw
  ∧ charset (buildCharset o r)
    = enabled_chars (includeUppercase o) (upperChars o)
      ++ enabled_chars (includeLowercase o) (lowerChars o)
      ++ enabled_chars (includeNumbers o) (numberChars o)
      ++ enabled_chars (includeSpecialChars o) (specialChars o)
  ∧ (includeUppercase o = false → count_in UPPERCASE pw = 0%nat)
  ∧ (includeLowercase o = false → count_in LOWERCASE pw = 0%nat)
  ∧ (includeNumbers o = false → count_in NUMBERS pw = 0%nat)
  ∧ (includeSpecialChars o = false → count_in SPECIAL_CHARS pw = 0%nat).
Proof.
  intros Hgen.
  destruct (generatePassword_ok _ _ _ _ Hgen) as (_ & _ & fill & _ & Hfill & Hperm).
  destruct (buildCharset_spec o r) as (U & L & D & S & Hreq & PU & PL & PD & PS & Hcs).
  assert (Forall (λ c, c ∈ charset (buildCharset o r)) pw) as Hall.
  { rewrite Hperm, Hreq, !Forall_app, Hcs. split_and!; [.. | by rewrite <- Hcs].
    - eapply List.Forall_impl; [| exact (part_subset _ _ _ _ PU)].
      intros c Hc. cbv beta. rewrite !elem_of_app. auto.
    - eapply List.Forall_impl; [| exact (part_subset _ _ _ _ PL)].
      intros c Hc. cbv beta. rewrite !elem_of_app. auto.
    - eapply List.Forall_impl; [| exact (part_subset _ _ _ _ PD)].
      intros c Hc. cbv beta. rewrite !elem_of_app. auto.
    - eapply List.Forall_impl; [| exact (part_subset _ _ _ _ PS)].
      intros c Hc. cbv beta. rewrite !elem_of_app. auto. }
  assert (∀ cls, forallb (λ c, negb (mem c cls)) (charset (buildCharset o r)) = true →
                 count_in cls pw = 0%nat) as Hnone.
  { intros cls Hcls. apply count_in_none.
    pose proof (Forall_of_forallb _ _ _ Hcls Hall) as Hout.
    eapply List.Forall_impl; [| exact Hout]. intros c Hc. by apply negb_true_iff. }
  split_and!; [exact Hall | exact Hcs | ..]; intros Hoff; apply Hnone; rewrite Hcs, Hoff;
    unfold enabled_chars, upperChars, lowerChars, numberChars, specialChars;
    destruct (includeUppercase o), (includeLowercase o), (includeNumbers o),
      (includeSpecialChars o), (excludeSimilar o), (excludeAmbiguous o);
    try done; vm_compute; reflexivity.
Qed.

Lemma generatePassword_alphabet_witness :
  count_in NUMBERS (js "o") = 0%nat ∧ count_in UPPERCASE (js "o") = 0%nat.
Proof.
  destruct (generatePassword_alphabet (only_lowercase 1 true) (constant 12) (js "o")
              {| tape := λ _, 12%N; pos := 1 |} ltac:(vm_compute; reflexivity))
    as (_ & _ & HU & _ & HD & _).
  split; [apply HD | apply HU]; reflexivity.
Defined.

(** X22. With [excludeAmbiguous], a password that [generatePassword]
    returns holds none of the characters of [AMBIGUOUS_CHARS]. *)
Lemma excludeAmbiguous_removed (o : PasswordOptions) (r : rng) (pw : jsstring) (r' : rng) :
  excludeAmbiguous o = true → generatePassword o r = (Ok pw, r') →
  Forall (λ c, mem c AMBIGUOUS_CHARS = false) pw.
Proof.
  intros Hamb Hgen.
  destruct (generatePassword_ok _ _ _ _ Hgen) as (_ & _ & fill & _ & Hall & Hperm).
  destruct (buildCharset_spec o r) as (U & L & D & S & Hreq & PU & PL & PD & PS & Hcs).
  rewrite Hperm, Hreq, !Forall_app. split_and!.
  - eapply part_out, PU. by_alphabet o.
  - eapply part_out, PL. by_alphabet o.
  - eapply part_out, PD. by_alphabet o.
  - eapply part_out, PS. unfold specialChars. rewrite Hamb. vm_compute. reflexivity.
  - assert (forallb (λ c, negb (mem c AMBIGUOUS_CHARS)) (charset (buildCharset o r)) = true)
      as Hcharset.
    { rewrite Hcs. unfold enabled_chars, upperChars, lowerChars, numberChars, specialChars.
      rewrite Hamb.
      destruct (includeUppercase o), (includeLowercase o), (includeNumbers o),
        (includeSpecialChars o), (excludeSimilar o); vm_compute; reflexivity. }
    pose proof (Forall_of_forallb _ _ _ Hcharset Hall) as Hfill.
    eapply List.Forall_impl; [| exact Hfill]. intros c Hc. by apply negb_true_iff.
Qed.

Definition only_special (len : Z) (ambiguous : bool) : PasswordOptions :=
  {| opt_length := len;
     includeUppercase := false; includeLowercase := false;
     includeNumbers := false; includeSpecialChars := true;
     numberCount := None; specialCharCount := None;
     excludeSimilar := false; excludeAmbiguous := ambiguous |}.

Lemma excludeAmbiguous_removed_witness :
  Forall (λ c, mem c AMBIGUOUS_CHARS = false) (js "$$$$").
Proof.
  apply (excludeAmbiguous_removed (only_special 4 true) (constant 3) (js "$$$$")
           {| tape := λ _, 3%N; pos := 7 |}); vm_compute; reflexivity.
Defined.

(** ** The format of the salt and of the IV *)

Definition is_hex_digit (c : N) : bool := mem c (js "0123456789abcdef").

Lemma hex_digit_is_hex (d : N) : (d < 16)%N → is_hex_digit (hex_digit d) = true.
Proof.
  intros Hd. destruct d as [|p]; [reflexivity |].
  do 4 (destruct p as [p|p|]; try reflexivity); lia.
Qed.

Lemma Hex_stringify_hex (w : WordArray) :
  Forall (λ b, (b < 256)%N) w → Forall (λ c, is_hex_digit c = true) (Hex_stringify w).
Proof.
  induction 1 as [|b w Hb _ IH]; simpl; [constructor |].
  constructor; [| constructor; [| exact IH]].
  - apply hex_digit_is_hex, N.Div0.div_lt_upper_bound. lia.
  - apply hex_digit_is_hex, N.mod_lt. lia.
Qed.

Lemma Hex_stringify_size (w : WordArray) :
  length (Hex_stringify w) = (2 * length w)%nat.
Proof. induction w as [|b w IH]; simpl; [done | lia]. Qed.

(** X23. Whatever the random source, [generateSalt] returns 64 lower-case
    hexadecimal digits and [generateIV] 24 of them; and whatever the
    library, the message and the password, the salt and the IV of an
    envelope that [encryptData] returns are such texts. *)
Lemma envelope_salt_iv_format (lib : CryptoJS) (message masterPassword : jsstring) (r : rng) :
  (length (generateSalt r).1 = 64%nat
   ∧ Forall (λ c, is_hex_digit c = true) (generateSalt r).1
   ∧ length (generateIV r).1 = 24%nat
   ∧ Forall (λ c, is_hex_digit c = true) (generateIV r).1)
  ∧ (∀ e r', encryptData lib message masterPassword r = (Ok e, r') →
       length (salt e) = 64%nat ∧ Forall (λ c, is_hex_digit c = true) (salt e)
       ∧ length (iv e) = 24%nat ∧ Forall (λ c, is_hex_digit c = true) (iv e)).
Proof.
  assert (∀ r0, length (generateSalt r0).1 = 64%nat
                ∧ Forall (λ c, is_hex_digit c = true) (generateSalt r0).1
                ∧ length (generateIV r0).1 = 24%nat
                ∧ Forall (λ c, is_hex_digit c = true) (generateIV r0).1) as Hformat.
  { intros r0. unfold generateSalt, generateIV.
    change (256 / 8) with 32%nat. change (96 / 8) with 12%nat.
    rewrite !WordArray_random_drawn. cbn [fst]. rewrite drawn_32, drawn_12.
    rewrite !Hex_stringify_size.
    split_and!; [reflexivity | | reflexivity |]; apply Hex_stringify_hex, words_bytes. }
  split; [apply Hformat |].
  intros e r' Hseal. destruct (encryptData_salt_iv lib _ _ _ _ _ Hseal) as [-> ->].
  destruct (Hformat r) as (Hs & Hsx & _).
  destruct (Hformat (generateSalt r).2) as (_ & _ & Hi & Hix).
  split_and!; assumption.
Qed.

(** ** Bounds on the score *)

Definition at_most (x : number) (b : Q) : Prop := ∃ q, x = Num q ∧ (q <= b)%Q.

Lemma at_most_add a b p q : at_most a p → at_most b q → at_most (num_add a b) (p + q).
Proof. intros (x & -> & Hx) (y & -> & Hy). exists (x + y)%Q. split; [done | lra]. Qed.

Lemma at_most_bonus (c : bool) a p d :
  (0 <= d)%Q → at_most a p → at_most (if c then num_add a (Num d) else a) (p + d).
Proof.
  intros Hd (x & -> & Hx). destruct c.
  - exists (x + d)%Q. split; [done | lra].
  - exists x. split; [done | lra].
Qed.

Lemma at_most_penalty (c : bool) a p d :
  (0 <= d)%Q → at_most a p → at_most (if c then num_sub a (Num d) else a) p.
Proof.
  intros Hd (x & -> & Hx). destruct c.
  - exists (x + - d)%Q. split; [done | lra].
  - exists x. split; [done | lra].
Qed.

Lemma at_most_sub a p d : at_most a p → at_most (num_sub a (Num d)) (p - d).
Proof. intros (x & -> & Hx). exists (x + - d)%Q. split; [done | lra]. Qed.

Lemma at_most_min a b : finite a → at_most (Math_min a (Num b)) b.
Proof.
  intros [x ->]. unfold Math_min, num_lt.
  destruct (Qle_bool x b) eqn:Hle; simpl.
  - exists x. split; [done |]. by apply Qle_bool_iff.
  - exists b. split; [done | lra].
Qed.

Lemma at_most_Num q : at_most (Num q) q.
Proof. exists q. split; [done | lra]. Qed.

Lemma at_most_weaken a p q : (p <= q)%Q → at_most a p → at_most a q.
Proof. intros Hpq (x & -> & Hx). exists x. split; [done | lra]. Qed.

Lemma clamp_at_most (s b : Q) :
  (s <= b)%Q → (0 <= b)%Q → (b <= 100)%Q →
  ∃ q, Math_max (Num 0) (Math_min (Num 100) (Num s)) = Num q ∧ (0 <= q <= b)%Q.
Proof.
  intros Hs H0 H100. unfold Math_min, num_lt.
  destruct (Qle_bool 100 s) eqn:Hbig; simpl.
  { apply Qle_bool_iff in Hbig. exists 100%Q. split; [reflexivity | lra]. }
  unfold Math_max, num_lt. destruct (Qle_bool s 0) eqn:Hneg; simpl.
  - exists 0%Q. split; [reflexivity | lra].
  - exists s. split; [reflexivity |]. split; [| done].
    apply Qlt_le_weak, Qnot_le_lt. intros Hle. apply Qle_bool_iff in Hle. congruence.
Qed.

Section EstimatorBounds.

Variable log2 : Q → Q.

Lemma entropy_at_most (password : jsstring) :
  password ≠ [] →
  at_most (Math_min (num_div (num_mul (of_nat (length password))
                                (Math_log2 log2 (of_nat (set_size password))))
                       (Num 4)) (Num 25)) 25.
Proof.
  intros Hne. apply at_most_min.
  destruct (finite_entropy log2 password Hne) as [e ->]. by eexists.
Qed.

Lemma raw_score_at_most (password : jsstring) :
  password ≠ [] → at_most (raw_score log2 password) 95.
Proof.
  intros Hne. unfold raw_score. cbv zeta.
  eapply at_most_weaken; [| apply at_most_add; [| by apply entropy_at_most]].
  2: { apply at_most_penalty; [discriminate |].
       do 2 (apply at_most_bonus; [discriminate |]).
       do 2 (apply at_most_penalty; [discriminate |]).
       do 4 (apply at_most_bonus; [discriminate |]).
       apply at_most_add; [apply at_most_Num |].
       apply at_most_min. by eexists. }
  vm_compute. discriminate.
Qed.

Lemma raw_score_short (password : jsstring) :
  password ≠ [] → (length password < 8)%nat → at_most (raw_score log2 password) 55.
Proof.
  intros Hne Hshort. unfold raw_score. cbv zeta.
  rewrite (proj2 (Nat.ltb_lt _ _) Hshort).
  rewrite (proj2 (Nat.leb_gt 16 _)) by lia. rewrite (proj2 (Nat.leb_gt 20 _)) by lia.
  eapply at_most_weaken; [| apply at_most_add; [| by apply entropy_at_most]].
  2: { apply at_most_sub.
       do 2 (apply at_most_penalty; [discriminate |]).
       do 4 (apply at_most_bonus; [discriminate |]).
       apply at_most_add; [apply at_most_Num |].
       apply at_most_min. by eexists. }
  vm_compute. discriminate.
Qed.

(** X24. A password of one to seven code units scores at most 55 and is
    rated Weak or Fair, never Good or Strong. *)
Lemma short_password_rating (password : jsstring) :
  password ≠ [] → (length password < 8)%nat →
  ∃ q, score (estimatePasswordStrength log2 password) = Num q ∧ (0 <= q <= 55)%Q
       ∧ (label (estimatePasswordStrength log2 password) = "Weak"
          ∨ label (estimatePasswordStrength log2 password) = "Fair").
Proof.
  intros Hne Hshort. destruct (raw_score_short password Hne Hshort) as (s & Hs & Hle).
  unfold estimatePasswordStrength. cbv zeta. rewrite Hs.
  destruct (clamp_at_most s 55 Hle) as (q & -> & Hq); [discriminate | discriminate |].
  exists q. destruct (num_lt (Num q) (Num 30)); [simpl; by auto |].
  assert (num_lt (Num q) (Num 60) = true) as ->.
  { unfold num_lt. destruct (Qle_bool 60 q) eqn:Hbig; [| reflexivity].
    apply Qle_bool_iff in Hbig. lra. }
  simpl. by auto.
Qed.

(** X25. The score of a non-empty password is at most 95: the bonuses add
    up to no more, so the cap at 100 is never what limits it. *)
Lemma score_at_most_95 (password : jsstring) :
  password ≠ [] →
  ∃ q, score (estimatePasswordStrength log2 password) = Num q ∧ (0 <= q <= 95)%Q.
Proof.
  intros Hne. destruct (raw_score_at_most password Hne) as (s & Hs & Hle).
  unfold estimatePasswordStrength. cbv zeta. rewrite Hs.
  destruct (clamp_at_most s 95 Hle) as (q & -> & Hq); [discriminate | discriminate |].
  exists q. by repeat (destruct (num_lt (Num q) _); [simpl; by split |]).
Qed.

End EstimatorBounds.

Lemma short_password_rating_witness :
  ∃ q, score (estimatePasswordStrength (λ x, x) (js "abc")) = Num q ∧ (0 <= q <= 55)%Q
       ∧ (label (estimatePasswordStrength (λ x, x) (js "abc")) = "Weak"
          ∨ label (estimatePasswordStrength (λ x, x) (js "abc")) = "Fair").
Proof.
  apply (short_password_rating (λ x, x) (js "abc")); [discriminate | simpl; lia].
Defined.

Lemma score_at_most_95_witness :
  ∃ q, score (estimatePasswordStrength (λ x, x) (js "Tr0ub4dor&3-horse-staple")) = Num q
       ∧ (0 <= q <= 95)%Q.
Proof. apply (score_at_most_95 (λ x, x) (js "Tr0ub4dor&3-horse-staple")). discriminate. Defined.
